(** * Smart Insights: the insight orchestration engine

    A shallow embedding of the Go backend of smart-insights: the prompt
    builder ([internal/prompt]), the response appender, source registry and
    PostgreSQL connector ([internal/source]), the in-memory storage
    ([internal/storage/memory]) and the PostgreSQL storage that the server
    wires ([internal/storage/postgres]), the orchestrator
    ([internal/orchastrator]) and the background task of the assistant
    handler ([internal/api/handlers]).

    Go values are modelled as the code has them: strings are byte strings,
    [int] is [Z], maps are [gmap], an [error] is a chain of wrapped messages,
    and a call that can fault returns in the [go] type, whose [Panic] case is
    a run-time panic.  Log output is not part of the model. *)

From Stdlib Require Import ZArith Lia Ascii QArith_base.
From Stdlib Require Import FunctionalExtensionality.
From stdpp Require Import base strings list gmap.

(** ** Go run-time values *)

(** The outcome of evaluating a Go expression: a value, or a panic carrying
    the text of the panic value. *)
Inductive go (A : Type) : Type :=
| Return (a : A)
| Panic (v : string).
Arguments Return {A} a.
Arguments Panic {A} v.

(** Go's [error] interface, for the two ways this code base builds one: a
    plain message ([errors.New], [fmt.Errorf] without the wrapping verb) and
    a prefix put before another error by [fmt.Errorf] with [%w]. *)
Inductive error : Type :=
| errorString (s : string)
| wrapError (prefix : string) (err : error).

#[global] Instance error_eq_dec : EqDecision error.
Proof. solve_decision. Defined.

(** [err.Error()] *)
Fixpoint Error (e : error) : string :=
  match e with
  | errorString s => s
  | wrapError p e' => p +:+ Error e'
  end.

(** [errors.Is(e, target)] *)
Fixpoint errors_Is (e target : error) : bool :=
  if decide (e = target) then true
  else match e with
       | errorString _ => false
       | wrapError _ e' => errors_Is e' target
       end.

(** A Go result pair [(T, error)] in which exactly one side is set. *)
Inductive result (A : Type) : Type :=
| ok (a : A)
| err (e : error).
Arguments ok {A} a.
Arguments err {A} e.

(** The double quote character, for texts that contain one. *)
Definition dq : string := String (ascii_of_nat 34) EmptyString.

(** ** Package [strings] of the Go standard library

    The byte-level functions are written out.  [TrimSpace] and [ToLower] have
    an ASCII fast path, written out below as in the library, and fall back to
    Unicode-table driven code once they meet a byte [>= utf8.RuneSelf]; those
    fallbacks are the fields of [UnicodeTables]. *)
Class UnicodeTables : Type := {
  (** [strings.TrimFunc(s, unicode.IsSpace)] *)
  TrimFunc_IsSpace : string → string;
  (** [strings.TrimRightFunc(s, unicode.IsSpace)] *)
  TrimRightFunc_IsSpace : string → string;
  (** [strings.Map(unicode.ToLower, s)] *)
  Map_ToLower : string → string
}.

(** An instance for evaluating the model on ASCII text, where the Unicode
    fallbacks are never reached. *)
Definition asciiOnly : UnicodeTables :=
  {| TrimFunc_IsSpace := id; TrimRightFunc_IsSpace := id; Map_ToLower := id |}.

Module GoStrings.

(** [len(s)] *)
Definition len (s : string) : Z := Z.of_nat (String.length s).

(** [utf8.RuneSelf]: bytes below it are single-byte runes. *)
Definition RuneSelf : N := 128.

Definition byte (c : ascii) : N := N_of_ascii c.

(** The table [asciiSpace]: tab, newline, vertical tab, form feed, carriage
    return, space. *)
Definition asciiSpace (c : ascii) : bool :=
  match byte c with
  | 9 | 10 | 11 | 12 | 13 | 32 => true
  | _ => false
  end%N.

(** [s[lo:hi]] *)
Definition slice (s : string) (lo hi : Z) : go string :=
  if ((0 <=? lo) && (lo <=? hi) && (hi <=? len s))%Z
  then Return (String.substring (Z.to_nat lo) (Z.to_nat (hi - lo)) s)
  else Panic "runtime error: slice bounds out of range".

(** [strings.HasPrefix(s, prefix)] *)
Definition HasPrefix (s prefix : string) : bool := String.prefix prefix s.

Fixpoint index_from (i : nat) (s substr : string) {struct s} : Z :=
  if String.prefix substr s then Z.of_nat i
  else match s with
       | EmptyString => -1
       | String _ s' => index_from (S i) s' substr
       end.

(** [strings.Index(s, substr)]: the byte index of the first instance of
    [substr] in [s], or [-1]. *)
Definition Index (s substr : string) : Z := index_from 0 s substr.

(** [strings.Contains(s, substr)] is [Index(s, substr) >= 0]. *)
Definition Contains (s substr : string) : bool := (0 <=? Index s substr)%Z.

(** [strings.Join(elems, sep)] *)
Fixpoint Join (elems : list string) (sep : string) : string :=
  match elems with
  | [] => EmptyString
  | [e] => e
  | e :: rest => e +:+ sep +:+ Join rest sep
  end.

Section unicode.
Context `{UnicodeTables}.

(** The first loop of [TrimSpace]: skip leading ASCII space; the flag tells
    that a byte [>= RuneSelf] stopped the scan. *)
Fixpoint trim_start (s : string) : bool * string :=
  match s with
  | EmptyString => (false, s)
  | String c s' =>
      if (RuneSelf <=? byte c)%N then (true, s)
      else if asciiSpace c then trim_start s'
      else (false, s)
  end.

(** The second loop of [TrimSpace], which walks back from the end of the
    string. *)
Fixpoint trim_stop (s : string) : bool * string :=
  match s with
  | EmptyString => (false, s)
  | String c s' =>
      match trim_stop s' with
      | (false, EmptyString) =>
          if (RuneSelf <=? byte c)%N then (true, String c EmptyString)
          else if asciiSpace c then (false, EmptyString)
          else (false, String c EmptyString)
      | (hit, t) => (hit, String c t)
      end
  end.

(** [strings.TrimSpace(s)] *)
Definition TrimSpace (s : string) : string :=
  let '(nonASCII, s1) := trim_start s in
  if nonASCII then TrimFunc_IsSpace s1
  else
    let '(nonASCII, s2) := trim_stop s1 in
    if nonASCII then TrimRightFunc_IsSpace s2 else s2.

Fixpoint isASCII (s : string) : bool :=
  match s with
  | EmptyString => true
  | String c s' => (byte c <? RuneSelf)%N && isASCII s'
  end.

Definition isUpper (c : ascii) : bool :=
  (65 <=? byte c)%N && (byte c <=? 90)%N.

Fixpoint hasUpper (s : string) : bool :=
  match s with
  | EmptyString => false
  | String c s' => isUpper c || hasUpper s'
  end.

(** [c += 'a' - 'A'] on an upper-case letter *)
Definition lowerByte (c : ascii) : ascii :=
  if isUpper c then ascii_of_N (byte c + 32) else c.

Fixpoint lowerBytes (s : string) : string :=
  match s with
  | EmptyString => EmptyString
  | String c s' => String (lowerByte c) (lowerBytes s')
  end.

(** [strings.ToLower(s)] *)
Definition ToLower (s : string) : string :=
  if isASCII s then
    if hasUpper s then lowerBytes s else s
  else Map_ToLower s.

End unicode.

End GoStrings.

(** ** Package [prompt] *)
Module prompt.
Import GoStrings.

(** [LLMPayload] contains the data needed for generating prompts. *)
Record LLMPayload : Type := {
  DBSchema : string;
  Question : string;
  InitialQuery : string;
  QueryResultJSON : string
}.

(** [InitialPrompt] generates the prompt for SQL query generation. *)
Definition InitialPrompt (l : LLMPayload) : string :=
  "You are a PostgreSQL expert who helps convert natural language questions into SQL queries.
Your task is to analyze the provided database schema and generate the most appropriate SQL query to answer the user's question.

Database Schema:
" +:+
  dq +:+
  dq +:+
  dq +:+
  "
" +:+
  DBSchema l +:+
  "
" +:+
  dq +:+
  dq +:+
  dq +:+
  "

User Question: " +:+
  Question l +:+
  "

Instructions:
1. Analyze the schema carefully, considering table relationships and available columns
2. Generate a single, efficient SQL query that answers the user's question without inline comment
3. Use appropriate JOINs when needed. Don't make up any join if not needed or the table doesn't exists
4. Include WHERE clauses to filter data appropriately
5. Use aggregations (GROUP BY, HAVING) when required for summary data
6. Order results in a logical way using ORDER BY when appropriate
7. Limit results if returning large datasets
8. Consider query performance and optimization

Important Notes:
- Ensure the query follows PostgreSQL syntax
- Use lowercase for SQL keywords for consistency
- Include proper table aliases when joining multiple tables
- Add appropriate comments for complex logic
- Handle NULL values appropriately
- Only include tables and columns that exist in the schema
- No DML operations (INSERT, UPDATE, DELETE) allowed

Response Format (no markdown):
<sql>
Your SQL query here
</sql>

Generate the SQL query now.".

(** [GenerateReportPrompt] creates the prompt for formatting query
    results. *)
Definition GenerateReportPrompt (l : LLMPayload) : string :=
  "You are a reporting assistant skilled in converting database query results into clear,
markdown-formatted reports. Based on the provided JSON data and the user's question, create an appropriate
markdown report that effectively visualizes and explains the data.

User Question: " +:+
  Question l +:+
  "

Query Results (JSON):
" +:+
  QueryResultJSON l +:+
  "

Instructions:
1. Analyze the data structure and values carefully
2. Choose the most appropriate format for presentation:
   - Tables for structured, columnar data
   - Lists for enumerated items
   - Summaries for aggregated data
   - Charts or graphs (using markdown syntax) when appropriate
3. Include relevant statistics or insights
4. Format numbers appropriately (e.g., currencies, percentages)
5. Keep the report concise but informative
6. Use proper markdown syntax and formatting insie the <markdown> tags. Don't use markdown response outside of <markdown> tags.'

Response Format (no markdown):
<markdown>
Your markdown-formatted report here
</markdown>

Generate the report now.".

Section prompt.
Context `{UnicodeTables}.

(** [ExtractResponse] extracts content between specified XML-style tags. *)
Definition ExtractResponse (tag response : string) : go string :=
  let startTag := "<" +:+ tag +:+ ">" in
  let endTag := "</" +:+ tag +:+ ">" in
  let startIndex := Index response startTag in
  let endIndex := Index response endTag in
  if ((startIndex =? -1) || (endIndex =? -1))%Z then Return EmptyString
  else
    match slice response (startIndex + len startTag) endIndex with
    | Return interior => Return (TrimSpace interior)
    | Panic v => Panic v
    end.

Definition dangerousKeywords : list string :=
  ["drop"; "truncate"; "delete"; "update"; "insert"; "alter"; "create"].

(** The [for _, keyword := range dangerousKeywords] loop of [ValidateQuery],
    which returns at the first keyword found. *)
Fixpoint checkKeywords (query : string) (keywords : list string)
  : option error :=
  match keywords with
  | [] => None
  | keyword :: keywords' =>
      if Contains query keyword
      then Some (errorString
                   ("query contains forbidden keyword: " +:+ keyword))
      else checkKeywords query keywords'
  end.

(** [ValidateQuery] performs basic validation of generated SQL query; [None]
    is Go's [nil] error. *)
Definition ValidateQuery (query : string) : option error :=
  let query := ToLower (TrimSpace query) in
  match checkKeywords query dangerousKeywords with
  | Some e => Some e
  | None =>
      if negb (HasPrefix query "select")
      then Some (errorString "query must start with SELECT")
      else None
  end.

End prompt.

End prompt.

(** ** Package [models] *)
Module models.

(** One immutable, timestamped, typed entry of a response's history.  The Go
    field [Type] is [Type_] here. *)
Record Update : Type := {
  Text : string;
  Timestamp : Z;
  Type_ : string
}.

Record AssistantResponse : Type := {
  UUID : string;
  Question : string;
  Success : bool;
  Status : string;
  Response : list Update
}.

(** [response.Response = append(response.Response, update)] *)
Definition appendUpdate (response : AssistantResponse) (update : Update)
  : AssistantResponse :=
  {| UUID := UUID response; Question := Question response;
     Success := Success response; Status := Status response;
     Response := Response response ++ [update] |}.

(** [response.Status = status; response.Success = success] *)
Definition setStatus (response : AssistantResponse) (status : string)
  (success : bool) : AssistantResponse :=
  {| UUID := UUID response; Question := Question response;
     Success := success; Status := status;
     Response := Response response |}.

Record AssistantRequestOptions : Type := {
  LLMProvider : string;
  LLMConfig_ : string
}.

Record AssistantRequest : Type := {
  DBConfigurationName : string;
  RequestQuestion : string;
  Options : AssistantRequestOptions
}.

(** [DatabaseConfig]; its [Options] field is not read by the code below. *)
Record DatabaseConfig : Type := {
  Name : string;
  DBType : string;
  Host : string;
  Port : string;
  DBName : string;
  Username : string;
  Password : string
}.

(** A value of [LLMConfig.Options]: a [float64], or anything else. *)
Inductive optionValue : Type :=
| float64 (q : Q)
| otherValue.

Record LLMConfig : Type := {
  LLMName : string;
  LLMType : string;
  APIKey : string;
  Model : string;
  LLMOptions : option (gmap string optionValue)
}.

End models.

(** The dynamic values ([interface{}]) that [Storage.LoadLLMConfig] hands
    out: a [models.LLMConfig] by value (the in-memory storage), a
    [*models.LLMConfig] (the PostgreSQL storage), or something else. *)
Inductive any : Type :=
| LLMConfig_value (c : models.LLMConfig)
| LLMConfig_pointer (c : models.LLMConfig)
| other_value.

(** ** Package [llminterface] *)
Module llminterface.

Record Message : Type := {
  Role : string;
  Content : string
}.

(** [CompletionRequest]; [Options] stays [nil] in this code base. *)
Record CompletionRequest : Type := {
  Messages : list Message;
  MaxTokens : Z;
  Temperature : Q;
  Model : string
}.

(** [CompletionResponse], its [Content]; usage counts and metadata are not
    read by the orchestrator. *)
Record CompletionResponse : Type := {
  ResponseContent : string
}.

End llminterface.

(** ** Package [openai]: the provider configuration *)
Module openai.

Record Config : Type := {
  Name : string;
  APIKey : string;
  Model : string;
  MaxTokens : Z
}.

Definition NewConfig (name apiKey model : string) (maxTokens : Z) : Config :=
  {| Name := name; APIKey := apiKey; Model := model; MaxTokens := maxTokens |}.

Definition Validate (c : Config) : option error :=
  if decide (Name c = EmptyString) then Some (errorString "name is required")
  else if decide (APIKey c = EmptyString)
  then Some (errorString "API key is required")
  else if decide (Model c = EmptyString)
  then Some (errorString "model is required")
  else None.

(** [Provider.Initialize] on an [*openai.Config]. *)
Definition Initialize (cfg : Config) : option error :=
  match Validate cfg with
  | Some e => Some (wrapError "invalid config: " e)
  | None => None
  end.

End openai.

(** ** Package [database/sql] and the outside world *)

(** A [driver.Value]. *)
Inductive driverValue : Type :=
| dv_nil
| dv_int64 (z : Z)
| dv_float64 (q : Q)
| dv_bool (b : bool)
| dv_bytes (b : string)
| dv_string (s : string)
| dv_time (unixNano : Z).

(** One row of a result set, by what [rows.Scan] gives for the two ways the
    connector scans: into [(tableName, columnsJSON, tableComment)] and into a
    slice of [interface{}] holders. *)
Record Row : Type := {
  scanSchema : result (string * string * option string);
  scanValues : result (list driverValue)
}.

(** [*sql.Rows]: the rows [Next] yields in turn, then [Err]. *)
Record Rows : Type := {
  Columns : result (list string);
  records : list Row;
  Err : option error
}.

(** A [*sql.DB] connection pool object. *)
Record DB : Type := {
  DSN : string;
  MaxOpenConns : Z;
  MaxIdleConns : Z;
  ConnMaxLifetime : Z;
  Closed : bool
}.

(** Everything the process cannot decide by itself: the database server, the
    JSON codec on driver values, the LLM registry and the LLM backend. *)
Record Env : Type := {
  (** [sql.Open("postgres", dsn)] *)
  sql_Open : string → option error;
  (** [db.Ping()] on the pool with this handle *)
  Ping : nat → option error;
  (** [db.QueryContext(ctx, query)] on the pool with this handle *)
  QueryContext : nat → string → go (result Rows);
  (** [json.Unmarshal(columnsJSON, &columns)] into a [[]string] *)
  json_Unmarshal : string → result (list string);
  (** [json.Marshal] of a query result *)
  json_Marshal : list (gmap string driverValue) → result string;
  (** [llm.GetProvider(provider)]: [nil] when a provider is handed out *)
  GetProvider : string → option error;
  (** [provider.Complete(ctx, req)]: the pair Go returns, either side of
      which may be [nil] *)
  Complete : openai.Config → llminterface.CompletionRequest →
             go (option llminterface.CompletionResponse * option error)
}.

(** ** The state of the process *)
Record World : Type := {
  (** [MemoryStorage.assistantResponses] *)
  assistantResponses : gmap string models.AssistantResponse;
  (** [MemoryStorage.configs] *)
  configs : gmap string models.DatabaseConfig;
  (** [MemoryStorage.llmConfigs] *)
  llmConfigs : gmap string (gmap string any);
  (** [Registry.pools], by pool handle *)
  pools : gmap string nat;
  (** the [*sql.DB] objects, by handle, and the next free handle *)
  dbs : gmap nat DB;
  nextDB : nat;
  (** the length of the buffered channel [AssistantManager.orchestratorPool] *)
  orchestratorPool : nat;
  (** the wall clock read by [time.Now()] *)
  clock : Z;
  (** trace: every content the response store went through, newest first *)
  saved : list (gmap string models.AssistantResponse);
  (** trace: the SQL texts handed to [QueryContext], oldest first *)
  queries : list string;
  (** trace: the requests handed to [provider.Complete], oldest first *)
  completions : list llminterface.CompletionRequest
}.

Definition set_assistantResponses
  (m : gmap string models.AssistantResponse) (w : World) : World :=
  {| assistantResponses := m; configs := configs w;
     llmConfigs := llmConfigs w; pools := pools w; dbs := dbs w;
     nextDB := nextDB w; orchestratorPool := orchestratorPool w;
     clock := clock w; saved := m :: saved w; queries := queries w;
     completions := completions w |}.

Definition set_pools (p : gmap string nat) (w : World) : World :=
  {| assistantResponses := assistantResponses w; configs := configs w;
     llmConfigs := llmConfigs w; pools := p; dbs := dbs w;
     nextDB := nextDB w; orchestratorPool := orchestratorPool w;
     clock := clock w; saved := saved w; queries := queries w;
     completions := completions w |}.

Definition set_dbs (d : gmap nat DB) (next : nat) (w : World) : World :=
  {| assistantResponses := assistantResponses w; configs := configs w;
     llmConfigs := llmConfigs w; pools := pools w; dbs := d;
     nextDB := next; orchestratorPool := orchestratorPool w;
     clock := clock w; saved := saved w; queries := queries w;
     completions := completions w |}.

Definition set_orchestratorPool (n : nat) (w : World) : World :=
  {| assistantResponses := assistantResponses w; configs := configs w;
     llmConfigs := llmConfigs w; pools := pools w; dbs := dbs w;
     nextDB := nextDB w; orchestratorPool := n;
     clock := clock w; saved := saved w; queries := queries w;
     completions := completions w |}.

Definition set_clock (t : Z) (w : World) : World :=
  {| assistantResponses := assistantResponses w; configs := configs w;
     llmConfigs := llmConfigs w; pools := pools w; dbs := dbs w;
     nextDB := nextDB w; orchestratorPool := orchestratorPool w;
     clock := t; saved := saved w; queries := queries w;
     completions := completions w |}.

Definition set_queries (q : list string) (w : World) : World :=
  {| assistantResponses := assistantResponses w; configs := configs w;
     llmConfigs := llmConfigs w; pools := pools w; dbs := dbs w;
     nextDB := nextDB w; orchestratorPool := orchestratorPool w;
     clock := clock w; saved := saved w; queries := q;
     completions := completions w |}.

Definition set_completions (c : list llminterface.CompletionRequest)
  (w : World) : World :=
  {| assistantResponses := assistantResponses w; configs := configs w;
     llmConfigs := llmConfigs w; pools := pools w; dbs := dbs w;
     nextDB := nextDB w; orchestratorPool := orchestratorPool w;
     clock := clock w; saved := saved w; queries := queries w;
     completions := c |}.

(** Go code that reads and writes the process state and may panic; a panic
    keeps the writes made before it. *)
Definition M (A : Type) : Type := World → go A * World.

#[global] Instance M_ret : MRet M := λ A a w, (Return a, w).

#[global] Instance M_bind : MBind M := λ A B f m w,
  match m w with
  | (Return a, w') => f a w'
  | (Panic v, w') => (Panic v, w')
  end.

(** The value of a call into the outside world. *)
Definition lift {A : Type} (g : go A) : M A := λ w, (g, w).

(** [defer func() { if r := recover(); r != nil { handler } }()] around
    [body]. *)
Definition recover (body : M unit) (handler : string → M unit) : M unit :=
  λ w,
    match body w with
    | (Return _, w') => (Return tt, w')
    | (Panic v, w') => handler v w'
    end.

(** [time.Now()] *)
Definition time_Now : M Z :=
  λ w, (Return (clock w), set_clock (clock w + 1) w).

(** ** Package [storage] *)
Module storage.

Definition ErrConfigNotFound : error :=
  errorString "database configuration not found".
Definition ErrResponseNotFound : error :=
  errorString "assistant response not found".

(** The methods of the [Storage] interface that the orchestration path
    calls. *)
Class Storage : Type := {
  SaveAssistantResponse : models.AssistantResponse → M (option error);
  LoadAssistantResponse : string → M (result models.AssistantResponse);
  LoadDatabaseConfig : string → M (result models.DatabaseConfig);
  LoadLLMConfig : string → string → M (result any)
}.

End storage.

(** ** Package [memory]: the in-memory storage *)
Module memory.

Definition SaveAssistantResponse (response : models.AssistantResponse)
  : M (option error) :=
  λ w, (Return None,
        set_assistantResponses
          (<[models.UUID response := response]> (assistantResponses w)) w).

Definition LoadAssistantResponse (uuid : string)
  : M (result models.AssistantResponse) :=
  λ w, match assistantResponses w !! uuid with
       | Some response => (Return (ok response), w)
       | None => (Return (err storage.ErrResponseNotFound), w)
       end.

Definition LoadDatabaseConfig (configName : string)
  : M (result models.DatabaseConfig) :=
  λ w, match configs w !! configName with
       | Some config => (Return (ok config), w)
       | None => (Return (err storage.ErrConfigNotFound), w)
       end.

Definition LoadLLMConfig (provider configName : string) : M (result any) :=
  λ w, match llmConfigs w !! provider with
       | None => (Return (err storage.ErrConfigNotFound), w)
       | Some providerConfigs =>
           match providerConfigs !! configName with
           | Some config => (Return (ok config), w)
           | None => (Return (err storage.ErrConfigNotFound), w)
           end
       end.

#[global] Instance MemoryStorage : storage.Storage := {|
  storage.SaveAssistantResponse := SaveAssistantResponse;
  storage.LoadAssistantResponse := LoadAssistantResponse;
  storage.LoadDatabaseConfig := LoadDatabaseConfig;
  storage.LoadLLMConfig := LoadLLMConfig
|}.

End memory.

(** ** Package [source] *)
Module source.
Import models storage GoStrings.

(** The line feed, as in the Go escapes of this package. *)
Definition nl : string := String (ascii_of_nat 10) EmptyString.

(** [time.Hour], in nanoseconds *)
Definition time_Hour : Z := 3600 * 1000000000.

(** Query to get database schema *)
Definition getSchemaQuery : string :=
  "
SELECT 
    t.table_name,
    json_agg(
        c.column_name || ' ' || 
        c.data_type || 
        CASE 
            WHEN c.character_maximum_length IS NOT NULL 
            THEN '(' || c.character_maximum_length || ')'
            ELSE ''
        END
    ) as columns,
    obj_description(quote_ident(t.table_name)::regclass::oid) as table_comment
FROM 
    information_schema.tables t
    JOIN information_schema.columns c ON t.table_name = c.table_name
WHERE 
    t.table_schema = 'public'
GROUP BY 
    t.table_name
ORDER BY 
    t.table_name;
".

(** [PostgresConnector] implements [DatabaseConnector] for PostgreSQL; [db]
    is the handle of its pool.  Its [appender] is the one appender of the
    run, over the one storage. *)
Record PostgresConnector : Type := {
  db : nat
}.

Definition NewPostgresConnector (db : nat) : PostgresConnector :=
  {| db := db |}.

Definition formatSchemaEntry (schema tableName : string)
  (tableComment : option string) (columns : list string) : string :=
  let schema := schema +:+ "Table: " +:+ tableName +:+ nl in
  let schema :=
    match tableComment with
    | Some comment => schema +:+ "Description: " +:+ comment +:+ nl
    | None => schema
    end in
  let schema := schema +:+ "Columns:" +:+ nl in
  let schema :=
    fold_left (λ schema column, schema +:+ "  - " +:+ column +:+ nl)
      columns schema in
  schema +:+ nl.

(** [if b, ok := value.([]byte); ok { string(b) } else { value }] *)
Definition convertValue (value : driverValue) : driverValue :=
  match value with
  | dv_bytes b => dv_string b
  | _ => value
  end.

(** The [for i, column := range columns] loop that converts a row to a map;
    a holder that [Scan] left untouched is [nil]. *)
Fixpoint rowMap (i : nat) (columns : list string) (values : list driverValue)
  (row : gmap string driverValue) : gmap string driverValue :=
  match columns with
  | [] => row
  | column :: columns' =>
      rowMap (S i) columns' values
        (<[column := convertValue (default dv_nil (values !! i))]> row)
  end.

(** The [for rows.Next()] loop of [processQueryResults]. *)
Fixpoint scanQueryRows (columns : list string) (rows : list Row)
  (acc : list (gmap string driverValue))
  : result (list (gmap string driverValue)) :=
  match rows with
  | [] => ok acc
  | row :: rows' =>
      match scanValues row with
      | err e => err (wrapError "failed to scan row: " e)
      | ok values =>
          scanQueryRows columns rows' (acc ++ [rowMap 0 columns values ∅])
      end
  end.

Definition processQueryResults (rows : Rows)
  : result (list (gmap string driverValue)) :=
  match Columns rows with
  | err e => err (wrapError "failed to get columns: " e)
  | ok columns =>
      match scanQueryRows columns (records rows) [] with
      | err e => err e
      | ok acc =>
          match Err rows with
          | Some e => err (wrapError "error iterating rows: " e)
          | None => ok acc
          end
      end
  end.

(** [db.SetMaxOpenConns], [db.SetMaxIdleConns], [db.SetConnMaxLifetime] and
    [db.Close] on the pool object with handle [h]. *)
Definition alter_db (f : DB → DB) (h : nat) : M unit :=
  λ w, (Return tt, set_dbs (alter f h (dbs w)) (nextDB w) w).

Definition SetMaxOpenConns (h : nat) (n : Z) : M unit :=
  alter_db (λ d, {| DSN := DSN d; MaxOpenConns := n;
                    MaxIdleConns := MaxIdleConns d;
                    ConnMaxLifetime := ConnMaxLifetime d;
                    Closed := Closed d |}) h.

Definition SetMaxIdleConns (h : nat) (n : Z) : M unit :=
  alter_db (λ d, {| DSN := DSN d; MaxOpenConns := MaxOpenConns d;
                    MaxIdleConns := n;
                    ConnMaxLifetime := ConnMaxLifetime d;
                    Closed := Closed d |}) h.

Definition SetConnMaxLifetime (h : nat) (t : Z) : M unit :=
  alter_db (λ d, {| DSN := DSN d; MaxOpenConns := MaxOpenConns d;
                    MaxIdleConns := MaxIdleConns d;
                    ConnMaxLifetime := t;
                    Closed := Closed d |}) h.

Definition db_Close (h : nat) : M unit :=
  alter_db (λ d, {| DSN := DSN d; MaxOpenConns := MaxOpenConns d;
                    MaxIdleConns := MaxIdleConns d;
                    ConnMaxLifetime := ConnMaxLifetime d;
                    Closed := true |}) h.

(** [r.pools[dbConfigName]], [delete(r.pools, dbConfigName)] and
    [r.pools[dbConfigName] = pool] *)
Definition lookup_pool (dbConfigName : string) : M (option nat) :=
  λ w, (Return (pools w !! dbConfigName), w).

Definition delete_pool (dbConfigName : string) : M unit :=
  λ w, (Return tt, set_pools (delete dbConfigName (pools w)) w).

Definition store_pool (dbConfigName : string) (pool : nat) : M unit :=
  λ w, (Return tt, set_pools (<[dbConfigName := pool]> (pools w)) w).

(** The [dsn] that [createConnectionPool] formats from a configuration. *)
Definition dataSourceName (config : DatabaseConfig) : string :=
  "host=" +:+ Host config +:+ " port=" +:+ Port config +:+
  " user=" +:+ Username config +:+ " password=" +:+ Password config +:+
  " dbname=" +:+ DBName config +:+ " sslmode=disable".

Section source.
Context (E : Env) `{Storage}.

(** [AppendResponse] adds a new update to an existing assistant response. *)
Definition AppendResponse (uuid updateType text : string)
  : M (option error) :=
  r ← LoadAssistantResponse uuid;
  match r with
  | err e => mret (Some (wrapError "failed to load response: " e))
  | ok response =>
      now ← time_Now;
      let update :=
        {| Text := text; Timestamp := now; Type_ := updateType |} in
      let response := appendUpdate response update in
      e ← SaveAssistantResponse response;
      match e with
      | Some e =>
          mret (Some (wrapError "failed to save updated response: " e))
      | None => mret None
      end
  end.

(** [UpdateStatus] updates the status of an assistant response. *)
Definition UpdateStatus (uuid status : string) (success : bool)
  : M (option error) :=
  r ← LoadAssistantResponse uuid;
  match r with
  | err e => mret (Some (wrapError "failed to load response: " e))
  | ok response =>
      let response := setStatus response status success in
      e ← SaveAssistantResponse response;
      match e with
      | Some e =>
          mret (Some (wrapError "failed to save updated status: " e))
      | None => mret None
      end
  end.

(** [sql.Open("postgres", dsn)]: a new pool object with the library's
    defaults. *)
Definition sql_DB_Open (dsn : string) : M (result nat) :=
  λ w, match sql_Open E dsn with
       | Some e => (Return (err e), w)
       | None =>
           let h := nextDB w in
           (Return (ok h),
            set_dbs (<[h := {| DSN := dsn; MaxOpenConns := 0;
                               MaxIdleConns := 2; ConnMaxLifetime := 0;
                               Closed := false |}]> (dbs w)) (S h) w)
       end.

Definition db_Ping (h : nat) : M (option error) := lift (Return (Ping E h)).

Definition db_QueryContext (h : nat) (query : string) : M (result Rows) :=
  λ w, (QueryContext E h query, set_queries (queries w ++ [query]) w).

Definition createConnectionPool (config : DatabaseConfig) : M (result nat) :=
  let dsn := dataSourceName config in
  r ← sql_DB_Open dsn;
  match r with
  | err e => mret (err (wrapError "failed to open database connection: " e))
  | ok db =>
      (* Configure pool settings *)
      SetMaxOpenConns db 25;;
      SetMaxIdleConns db 5;;
      SetConnMaxLifetime db time_Hour;;
      (* Verify connection *)
      e ← db_Ping db;
      match e with
      | Some e =>
          db_Close db;;
          mret (err (wrapError "failed to ping database: " e))
      | None => mret (ok db)
      end
  end.

(** The part of [LoadSource] after the check of the cached pool: load the
    configuration, create the pool, store it for reuse. *)
Definition loadAndConnect (dbConfigName : string)
  : M (result PostgresConnector) :=
  r ← LoadDatabaseConfig dbConfigName;
  match r with
  | err e => mret (err (wrapError "failed to load database config: " e))
  | ok config =>
      r ← createConnectionPool config;
      match r with
      | err e =>
          mret (err (wrapError "failed to create connection pool: " e))
      | ok pool =>
          store_pool dbConfigName pool;;
          mret (ok (NewPostgresConnector pool))
      end
  end.

Definition LoadSource (dbConfigName : string)
  : M (result PostgresConnector) :=
  cached ← lookup_pool dbConfigName;
  match cached with
  | Some pool =>
      e ← db_Ping pool;
      match e with
      | None => mret (ok (NewPostgresConnector pool))
      | Some _ =>
          (* If ping fails, remove the pool *)
          delete_pool dbConfigName;;
          loadAndConnect dbConfigName
      end
  | None => loadAndConnect dbConfigName
  end.

(** The [for rows.Next()] loop of [processSchemaRows]. *)
Fixpoint scanSchemaRows (rows : list Row) (schema : string)
  (processedTable : list string) : result (string * list string) :=
  match rows with
  | [] => ok (schema, processedTable)
  | row :: rows' =>
      match scanSchema row with
      | err e => err (wrapError "failed to scan row: " e)
      | ok (tableName, columnsJSON, tableComment) =>
          match json_Unmarshal E columnsJSON with
          | err e => err (wrapError "failed to parse columns: " e)
          | ok columns =>
              scanSchemaRows rows'
                (formatSchemaEntry schema tableName tableComment columns)
                (processedTable ++ [tableName])
          end
      end
  end.

Definition processSchemaRows (responseUUID : string) (rows : Rows)
  : M (result string) :=
  match scanSchemaRows (records rows)
          ("Database Schema:" +:+ nl +:+ nl) [] with
  | err e => mret (err e)
  | ok (schema, processedTable) =>
      AppendResponse responseUUID "debug_log"
        ("Processed tables: " +:+ Join processedTable ", ");;
      match Err rows with
      | Some e => mret (err (wrapError "error iterating rows: " e))
      | None =>
          AppendResponse responseUUID "step_output"
            "Schema retrieval completed";;
          mret (ok schema)
      end
  end.

(** [GetSchema] retrieves and formats the database schema. *)
Definition GetSchema (p : PostgresConnector) (responseUUID : string)
  : M (result string) :=
  AppendResponse responseUUID "step_output" "Fetching database schema...";;
  r ← db_QueryContext (db p) getSchemaQuery;
  match r with
  | err e => mret (err (wrapError "failed to query schema: " e))
  | ok rows => processSchemaRows responseUUID rows
  end.

(** [ExecuteQuery] executes a SQL query and returns the results. *)
Definition ExecuteQuery (p : PostgresConnector) (query : string)
  : M (result (list (gmap string driverValue))) :=
  r ← db_QueryContext (db p) query;
  match r with
  | err e => mret (err (wrapError "failed to execute query: " e))
  | ok rows => mret (processQueryResults rows)
  end.

End source.

End source.

(** ** Package [orchestrator] *)
Module orchestrator.
Import models storage llminterface.

(** [QueryResult] represents the result of a database query; only [Data] is
    ever set. *)
Record QueryResult : Type := {
  Data : list (gmap string driverValue)
}.

(** [Orchestrator] coordinates the flow between different components; the
    storage and the source registry are those of the process state. *)
Record Orchestrator : Type := {
  provider : openai.Config;
  askID : string;
  dbConfigName : string
}.

(** [int(f)] for a [float64] in range: truncation toward zero *)
Definition int_of_float64 (q : Q) : Z := Z.quot (Qnum q) (Zpos (Qden q)).

(** Helper function for extracting max tokens from options *)
Definition getMaxTokens (options : option (gmap string optionValue)) : Z :=
  match options with
  | None => 3000
  | Some options =>
      match options !! "max_tokens" with
      | Some (float64 maxTokens) =>
          if decide (Qnum maxTokens = 0%Z) then 3000
          else int_of_float64 maxTokens
      | _ => 3000
      end
  end.

Section orchestrator.
Context `{UnicodeTables} (E : Env) `{Storage}.

Definition NewOrchestrator (provider : string) (llmConfig : LLMConfig)
  (dbConfigName askID : string) : result Orchestrator :=
  (* Get the LLM provider *)
  match GetProvider E provider with
  | Some e => err (wrapError "failed to get LLM provider: " e)
  | None =>
      (* Convert LLMConfig to provider-specific config *)
      if decide (provider = "openai") then
        let providerConfig :=
          openai.NewConfig (LLMName llmConfig) (APIKey llmConfig)
            (models.Model llmConfig)
            (getMaxTokens (LLMOptions llmConfig)) in
        (* Initialize the provider *)
        match openai.Initialize providerConfig with
        | Some e => err (wrapError "failed to initialize LLM provider: " e)
        | None =>
            ok {| provider := providerConfig; askID := askID;
                  dbConfigName := dbConfigName |}
        end
      else err (errorString ("unsupported LLM provider: " +:+ provider))
  end.

Definition handleError (o : Orchestrator) (message : string) (e : error)
  : M unit :=
  source.AppendResponse (askID o) "error" (message +:+ ": " +:+ Error e);;
  source.UpdateStatus (askID o) "failed" false;;
  mret tt.

Definition loadAssistantResponse (o : Orchestrator)
  : M (result AssistantResponse) :=
  r ← LoadAssistantResponse (askID o);
  match r with
  | err e => mret (err (wrapError "failed to load assistant response: " e))
  | ok response => mret (ok response)
  end.

Definition connectToDatabase (o : Orchestrator)
  : M (result source.PostgresConnector) :=
  r ← source.LoadSource E (dbConfigName o);
  match r with
  | err e => mret (err (wrapError "failed to connect to source database: " e))
  | ok connectDB => mret (ok connectDB)
  end.

Definition fetchDatabaseSchema (o : Orchestrator)
  (db : source.PostgresConnector) : M (result string) :=
  r ← source.GetSchema E db (askID o);
  match r with
  | err e => mret (err (wrapError "failed to get schema: " e))
  | ok schemaStr => mret (ok schemaStr)
  end.

(** [completion.Content] after [completion, err := o.provider.Complete(...)]
    with the [err != nil] check that follows the call. *)
Definition completionContent
  (c : option CompletionResponse * option error)
  : go (result string) :=
  match c with
  | (_, Some e) => Return (err e)
  | (Some completion, None) => Return (ok (ResponseContent completion))
  | (None, None) =>
      Panic "runtime error: invalid memory address or nil pointer dereference"
  end.

(** [o.provider.Complete(ctx, req)] *)
Definition provider_Complete (o : Orchestrator) (req : CompletionRequest)
  : M (option CompletionResponse * option error) :=
  λ w, (Complete E (provider o) req,
        set_completions (completions w ++ [req]) w).

Definition generateSQLQuery (o : Orchestrator) (schema question : string)
  : M (result string) :=
  source.AppendResponse (askID o) "step_output"
    "Generating SQL query... please wait";;
  let payload :=
    {| prompt.DBSchema := schema; prompt.Question := question;
       prompt.InitialQuery := EmptyString;
       prompt.QueryResultJSON := EmptyString |} in
  let messages :=
    [ {| Role := "system";
         Content := "You are a PostgreSQL expert who generates SQL queries based on natural language questions." |};
      {| Role := "user"; Content := prompt.InitialPrompt payload |} ] in
  completion ← provider_Complete o
                 {| Messages := messages; MaxTokens := 0;
                    Temperature := 0.3; Model := EmptyString |};
  content ← lift (completionContent completion);
  match content with
  | err e => mret (err (wrapError "failed to generate SQL query: " e))
  | ok content =>
      query ← lift (prompt.ExtractResponse "sql" content);
      if decide (query = EmptyString)
      then mret (err (errorString "no SQL query found in LLM response"))
      else
        e ← source.AppendResponse (askID o) "step_output" query;
        match e with
        | Some e => mret (err e)
        | None => mret (ok query)
        end
  end.

Definition executeQuery (o : Orchestrator) (db : source.PostgresConnector)
  (query : string) : M (result QueryResult) :=
  r ← source.ExecuteQuery E db query;
  match r with
  | err e => mret (err (wrapError "failed to execute query: " e))
  | ok data =>
      source.AppendResponse (askID o) "step_output"
        "Query executed successfully";;
      mret (ok {| Data := data |})
  end.

Definition generateFinalResponse (o : Orchestrator) (question : string)
  (queryResult : QueryResult) : M (option error) :=
  match json_Marshal E (Data queryResult) with
  | err e => mret (Some (wrapError "failed to marshal query result: " e))
  | ok resultJSON =>
      let payload :=
        {| prompt.DBSchema := EmptyString; prompt.Question := question;
           prompt.InitialQuery := EmptyString;
           prompt.QueryResultJSON := resultJSON |} in
      let messages :=
        [ {| Role := "system";
             Content := "You are a data analyst who explains query results in a clear, concise way." |};
          {| Role := "user";
             Content := prompt.GenerateReportPrompt payload |} ] in
      source.AppendResponse (askID o) "step_output" "Generating report...";;
      completion ← provider_Complete o
                     {| Messages := messages; MaxTokens := 0;
                        Temperature := 0.7; Model := EmptyString |};
      content ← lift (completionContent completion);
      match content with
      | err e => mret (Some (wrapError "failed to generate report: " e))
      | ok content =>
          markdown ← lift (prompt.ExtractResponse "markdown" content);
          if decide (markdown = EmptyString)
          then mret (Some (errorString
                             "no markdown content found in LLM response"))
          else
            e ← source.AppendResponse (askID o) "final_response" markdown;
            match e with
            | Some e =>
                mret (Some (wrapError "failed to append final response: " e))
            | None => mret None
            end
      end
  end.

(** The body of [Run], between its deferred recovery and its end.  The
    deferred [db.Close()] of a connector returns [nil] and does nothing. *)
Definition steps (o : Orchestrator) : M unit :=
  r ← loadAssistantResponse o;
  match r with
  | err e => handleError o "Failed to load assistant response" e
  | ok assistantResponse =>
  (* Step 2: Connect to database *)
  r ← connectToDatabase o;
  match r with
  | err e =>
      source.AppendResponse (askID o) "error"
        ("Failed to connect to database: " +:+ Error e);;
      handleError o "Failed to connect to database" e
  | ok db =>
  (* Step 3: Fetch database schema *)
  r ← fetchDatabaseSchema o db;
  match r with
  | err e => handleError o "Failed to fetch database schema" e
  | ok schema =>
  (* Step 4: Generate SQL query using LLM *)
  r ← generateSQLQuery o schema (models.Question assistantResponse);
  match r with
  | err e => handleError o "Failed to generate SQL query" e
  | ok query =>
  (* Step 5: Execute query *)
  r ← executeQuery o db query;
  match r with
  | err e => handleError o "Failed to execute query" e
  | ok queryResult =>
  (* Step 6: Generate final response *)
  e ← generateFinalResponse o (models.Question assistantResponse) queryResult;
  match e with
  | Some e => handleError o "Failed to generate final response" e
  | None =>
  (* Update final status *)
  source.UpdateStatus (askID o) "completed" true;;
  mret tt
  end end end end end end.

(** [Run] executes the main orchestration flow. *)
Definition Run (o : Orchestrator) : M unit :=
  recover (steps o)
    (λ _, source.UpdateStatus (askID o) "failed" false;; mret tt).

End orchestrator.

End orchestrator.

(** ** Package [handlers]: the assistant manager *)
Module handlers.
Import models storage.

(** [AssistantManagerConfig]; the capacity that [make(chan struct{}, n)]
    gives [orchestratorPool]. *)
Record AssistantManagerConfig : Type := {
  MaxConcurrentOrchestrations : nat
}.

Section handlers.
Context `{UnicodeTables} (E : Env) `{Storage}.

(** The part of [CreateAssistantRequest] before the background task starts:
    create the initial response and save it.  [uuid] is the value of
    [uuid.New().String()]; a [nil] result is answered with status 201. *)
Definition CreateAssistantRequest (request : AssistantRequest)
  (uuid : string) : M (option error) :=
  now ← time_Now;
  let response :=
    {| UUID := uuid; Question := RequestQuestion request; Success := true;
       Status := "in_progress";
       Response := [ {| Text := "Processing your request...";
                        Timestamp := now; Type_ := "step_output" |} ] |} in
  SaveAssistantResponse response.

Definition handleOrchestrationError (uuid message : string) (e : error)
  : M unit :=
  now ← time_Now;
  let response :=
    {| UUID := uuid; Question := EmptyString; Success := false;
       Status := "failed";
       Response := [ {| Text := message +:+ ": " +:+ Error e;
                        Timestamp := now; Type_ := "error" |} ] |} in
  SaveAssistantResponse response;;
  mret tt.

(** The background task of [CreateAssistantRequest] while it holds its
    orchestration slot: from the load of the LLM configuration to the end of
    [orc.Run]. *)
Definition backgroundTask (request : AssistantRequest) (uuid : string)
  : M unit :=
  (* Load LLM configuration *)
  r ← LoadLLMConfig (LLMProvider (Options request))
        (LLMConfig_ (Options request));
  match r with
  | err e =>
      if decide (e = ErrConfigNotFound) then
        handleOrchestrationError uuid
          ("LLM configuration '" +:+ LLMConfig_ (Options request) +:+
           "' not found for provider '" +:+
           LLMProvider (Options request) +:+ "'") e
      else handleOrchestrationError uuid "Failed to load LLM configuration" e
  | ok llmConfigInterface =>
      (* Convert to concrete LLMConfig *)
      match llmConfigInterface with
      | LLMConfig_pointer llmConfig =>
          (* Create and run orchestrator *)
          match orchestrator.NewOrchestrator E
                  (LLMProvider (Options request)) llmConfig
                  (DBConfigurationName request) uuid with
          | err e =>
              handleOrchestrationError uuid "Failed to create orchestrator" e
          | ok orc => orchestrator.Run E orc
          end
      | _ =>
          handleOrchestrationError uuid "Invalid LLM configuration type"
            (errorString "expected *models.LLMConfig")
      end
  end.

(** *** The admission gate

    Where one background task stands: before the send on [orchestratorPool],
    inside the guarded section, at its deferred receive with the outcome of
    the section, or gone. *)
Inductive pc : Type :=
| Waiting
| Running
| Leaving (r : go unit)
| Exited.

Record Task : Type := {
  request : AssistantRequest;
  uuid : string;
  at_ : pc
}.

Definition move (t : Task) (p : pc) : Task :=
  {| request := request t; uuid := uuid t; at_ := p |}.

(** The process: its state, its background tasks, and whether an unrecovered
    panic has ended it. *)
Record System : Type := {
  world : World;
  tasks : list Task;
  crashed : bool
}.

Definition isPanic (r : go unit) : bool :=
  match r with
  | Panic _ => true
  | Return _ => false
  end.

(** One step of one goroutine, under any interleaving.  A send on the
    buffered channel needs room in the buffer, a receive needs an element in
    it, and a send meets a waiting receive directly when the buffer is
    empty. *)
Inductive step (config : AssistantManagerConfig) : System → System → Prop :=
| step_accept s request uuid w' :
    crashed s = false →
    CreateAssistantRequest request uuid (world s) = (Return None, w') →
    step config s
      {| world := w';
         tasks := tasks s ++ [ {| request := request; uuid := uuid;
                                  at_ := Waiting |} ];
         crashed := false |}
| step_send s i t :
    crashed s = false →
    tasks s !! i = Some t →
    at_ t = Waiting →
    orchestratorPool (world s) < MaxConcurrentOrchestrations config →
    step config s
      {| world := set_orchestratorPool (S (orchestratorPool (world s)))
                    (world s);
         tasks := <[i := move t Running]> (tasks s);
         crashed := false |}
| step_run s i t r w' :
    crashed s = false →
    tasks s !! i = Some t →
    at_ t = Running →
    backgroundTask (request t) (uuid t) (world s) = (r, w') →
    step config s
      {| world := w';
         tasks := <[i := move t (Leaving r)]> (tasks s);
         crashed := false |}
| step_receive s i t r n :
    crashed s = false →
    tasks s !! i = Some t →
    at_ t = Leaving r →
    orchestratorPool (world s) = S n →
    step config s
      {| world := set_orchestratorPool n (world s);
         tasks := <[i := move t Exited]> (tasks s);
         crashed := isPanic r |}
| step_handoff s i j t u r :
    crashed s = false →
    i ≠ j →
    tasks s !! i = Some t →
    at_ t = Waiting →
    tasks s !! j = Some u →
    at_ u = Leaving r →
    orchestratorPool (world s) = 0 →
    step config s
      {| world := world s;
         tasks := <[j := move u Exited]> (<[i := move t Running]> (tasks s));
         crashed := isPanic r |}.

(** The states the process reaches from [s]. *)
Inductive reachable (config : AssistantManagerConfig) (s : System)
  : System → Prop :=
| reachable_refl : reachable config s s
| reachable_step s1 s2 :
    reachable config s s1 → step config s1 s2 → reachable config s s2.

(** A task holds an orchestration slot from its send to its deferred
    receive. *)
Definition holds (t : Task) : bool :=
  match at_ t with
  | Running | Leaving _ => true
  | Waiting | Exited => false
  end.

Definition holders (s : System) : nat :=
  length (filter (λ t, holds t = true) (tasks s)).

(** The process in state [w] right after it accepted the requests [asks],
    each with its identifier: every background task is before its send. *)
Definition launched (w : World) (asks : list (AssistantRequest * string))
  : System :=
  {| world := w;
     tasks := (λ a, {| request := a.1; uuid := a.2; at_ := Waiting |})
                <$> asks;
     crashed := false |}.

End handlers.

End handlers.

(** ** Vocabulary of the specification *)
Module spec.
Import models llminterface GoStrings.

(** The text [substr] occurs in [s]; [s] starts with [prefix]. *)
Definition occurs (substr s : string) : Prop :=
  ∃ pre post, s = pre +:+ substr +:+ post.

Definition starts_with (prefix s : string) : Prop :=
  ∃ rest, s = prefix +:+ rest.

(** The tail [s[n:]] of a string. *)
Definition drop_bytes (n : nat) (s : string) : string :=
  String.substring n (String.length s - n) s.

(** The specification's [ExtractTagged(tagName, rawText)], in its words:
    locate the first opening delimiter and the first closing delimiter that
    follows it, and return the trimmed interior of that pair; return empty
    if either delimiter is missing. *)
Definition ExtractTagged `{UnicodeTables} (tagName rawText : string)
  : string :=
  let startTag := "<" +:+ tagName +:+ ">" in
  let endTag := "</" +:+ tagName +:+ ">" in
  let i := Index rawText startTag in
  if (i =? -1)%Z then EmptyString
  else
    let rest := drop_bytes (Z.to_nat (i + len startTag)) rawText in
    let j := Index rest endTag in
    if (j =? -1)%Z then EmptyString
    else TrimSpace (String.substring 0 (Z.to_nat j) rest).

(** The number of updates of one kind in a response. *)
Definition count_kind (kind : string) (r : AssistantResponse) : nat :=
  length (filter (λ x, Type_ x = kind) (Response r)).

(** Every response of [m] is still in [m'], with its updates a prefix of
    the updates it has there. *)
Definition grows (m m' : gmap string AssistantResponse) : Prop :=
  ∀ u r, m !! u = Some r →
    ∃ r', m' !! u = Some r' ∧ Response r `prefix_of` Response r'.

(** The computation [m] leaves the part [f] of the process state as it
    is, whatever it returns. *)
Definition keeps {A B : Type} (f : World → B) (m : M A) : Prop :=
  ∀ w, f (m w).2 = f w.

(** The part of the state that the response log and its traces make up. *)
Definition responseView (w : World)
  : gmap string AssistantResponse * list (gmap string AssistantResponse) *
    list CompletionRequest :=
  (assistantResponses w, saved w, completions w).

(** Where the response of one request stands in its orchestration, relative
    to the response [r0] the run started from: still being worked on; an
    error update appended last; failed, with or without that error update;
    the final response appended; or completed. *)
Inductive stage : Type :=
| Working
| Errored
| Failed (withError : bool)
| Reported
| Completed.

Definition notFinal (x : Update) : Prop := Type_ x ≠ "final_response".

(** The errors that the steps of [Run] return, under the message that
    [Run] hands to [handleError] with them: each step puts its own prefix
    before the error it met, or makes the error itself. *)
Definition stepError (message : string) (cause : error) : Prop :=
  (message = "Failed to load assistant response" ∧
   ∃ e, cause = wrapError "failed to load assistant response: " e) ∨
  (message = "Failed to connect to database" ∧
   ∃ e, cause = wrapError "failed to connect to source database: " e) ∨
  (message = "Failed to fetch database schema" ∧
   ∃ e, cause = wrapError "failed to get schema: " e) ∨
  (message = "Failed to generate SQL query" ∧
   ((∃ e, cause = wrapError "failed to generate SQL query: " e) ∨
    cause = errorString "no SQL query found in LLM response" ∨
    (∃ e, cause = wrapError "failed to load response: " e) ∨
    (∃ e, cause = wrapError "failed to save updated response: " e))) ∨
  (message = "Failed to execute query" ∧
   ∃ e, cause = wrapError "failed to execute query: " e) ∨
  (message = "Failed to generate final response" ∧
   ((∃ e, cause = wrapError "failed to marshal query result: " e) ∨
    (∃ e, cause = wrapError "failed to generate report: " e) ∨
    cause = errorString "no markdown content found in LLM response" ∨
    (∃ e, cause = wrapError "failed to append final response: " e))).

(** The last of the updates [extra] is an error update whose text is the
    message of a step of the run, followed by the text of an error of that
    step. *)
Definition endsInError (extra : list Update) : Prop :=
  ∃ x message cause,
    last extra = Some x ∧ stepError message cause ∧ Type_ x = "error" ∧
    Text x = message +:+ ": " +:+ Error cause.

Definition in_stage (u : string) (r0 : AssistantResponse) (st : stage)
  (r : AssistantResponse) : Prop :=
  UUID r = u ∧
  match st with
  | Working =>
      ∃ extra, Forall notFinal extra ∧
        Response r = Response r0 ++ extra ∧
        Status r = Status r0 ∧ Success r = Success r0
  | Errored =>
      ∃ extra, Forall notFinal extra ∧
        Response r = Response r0 ++ extra ∧
        Status r = Status r0 ∧ Success r = Success r0 ∧
        endsInError extra
  | Failed withError =>
      ∃ extra, Forall notFinal extra ∧
        Response r = Response r0 ++ extra ∧
        Status r = "failed" ∧ Success r = false ∧
        (withError = true → endsInError extra)
  | Reported =>
      ∃ extra x, Forall notFinal extra ∧ Type_ x = "final_response" ∧
        Response r = Response r0 ++ extra ++ [x] ∧
        Status r = Status r0 ∧ Success r = Success r0
  | Completed =>
      ∃ extra x, Forall notFinal extra ∧ Type_ x = "final_response" ∧
        Response r = Response r0 ++ extra ++ [x] ∧
        Status r = "completed" ∧ Success r = true
  end.

(** The response store holds a response for [u] that is at some stage. *)
Definition staged (u : string) (r0 : AssistantResponse)
  (m : gmap string AssistantResponse) : Prop :=
  ∃ r st, m !! u = Some r ∧ in_stage u r0 st r.

(** The state [w] of a process that started the orchestration of [u] in
    state [w0]: the response of [u] is at stage [st], every content the
    store went through since [w0] held a staged response for [u], and the
    requests made to the LLM so far satisfy [calls]. *)
Definition At (u : string) (r0 : AssistantResponse) (w0 : World)
  (st : stage) (calls : list CompletionRequest → Prop) (w : World) : Prop :=
  (∃ r, assistantResponses w !! u = Some r ∧ in_stage u r0 st r) ∧
  (∃ new, saved w = new ++ saved w0 ∧ Forall (staged u r0) new) ∧
  calls (completions w).

Section calls.
Context `{UnicodeTables} (E : Env) (o : orchestrator.Orchestrator).

(** The provider answers [req] with a text from which the extraction of the
    [sql] tag returns empty. *)
Definition emptyExtraction (req : CompletionRequest) : Prop :=
  ∃ c, Complete E (orchestrator.provider o) req = Return (Some c, None) ∧
       prompt.ExtractResponse "sql" (ResponseContent c) = Return EmptyString.

Definition anyCalls (cs : list CompletionRequest) : Prop := True.

(** No request was made since [w0]. *)
Definition noCall (w0 : World) (cs : list CompletionRequest) : Prop :=
  cs = completions w0.

(** The first request made since [w0] was not answered with a text of empty
    extraction. *)
Definition firstCallFull (w0 : World) (cs : list CompletionRequest) : Prop :=
  ∃ req rest, cs = completions w0 ++ req :: rest ∧ ¬ emptyExtraction req.

(** No request was made since [w0], or the first one was not answered with
    a text of empty extraction. *)
Definition noEmptyFirst (w0 : World) (cs : list CompletionRequest) : Prop :=
  noCall w0 cs ∨ firstCallFull w0 cs.

End calls.

(** *** What the claims say of a response *)

(** A response holds one final response exactly when it is completed with
    success. *)
Definition finalIffCompleted (r : AssistantResponse) : Prop :=
  count_kind "final_response" r = 1 ↔
  Status r = "completed" ∧ Success r = true.

(** A response holds at most one final response, and holds one when it is
    completed with success. *)
Definition finalWhenCompleted (r : AssistantResponse) : Prop :=
  count_kind "final_response" r ≤ 1 ∧
  (Status r = "completed" ∧ Success r = true →
   count_kind "final_response" r = 1).

Section outcomes.
Context `{UnicodeTables} (E : Env).

(** What the admission gate with limit [MaxConcurrentOrchestrations config]
    grants in the state [s] of the process: no more tasks than the limit
    hold a slot, and the channel holds one element for each of them; at the
    limit no step lets a waiting task pass its send; below the limit a
    waiting task can pass it; a task that runs its guarded section gets to
    its deferred receive, whatever the outcome; and a task at its deferred
    receive can take it, which frees its slot. *)
Definition admits (config : handlers.AssistantManagerConfig)
  (s : handlers.System) : Prop :=
  let limit := handlers.MaxConcurrentOrchestrations config in
  handlers.holders s ≤ limit ∧
  orchestratorPool (handlers.world s) = handlers.holders s ∧
  (handlers.holders s = limit →
   ∀ s' i t,
     handlers.step E config s s' →
     handlers.tasks s !! i = Some t → handlers.at_ t = handlers.Waiting →
     ∃ t', handlers.tasks s' !! i = Some t' ∧
           handlers.at_ t' = handlers.Waiting) ∧
  (handlers.crashed s = false → handlers.holders s < limit →
   ∀ i t,
     handlers.tasks s !! i = Some t → handlers.at_ t = handlers.Waiting →
     ∃ s', handlers.step E config s s' ∧
           handlers.tasks s' !! i
           = Some (handlers.move t handlers.Running)) ∧
  (handlers.crashed s = false →
   ∀ i t,
     handlers.tasks s !! i = Some t → handlers.at_ t = handlers.Running →
     ∃ s' r, handlers.step E config s s' ∧
             handlers.tasks s' !! i
             = Some (handlers.move t (handlers.Leaving r))) ∧
  (handlers.crashed s = false →
   ∀ i t r,
     handlers.tasks s !! i = Some t →
     handlers.at_ t = handlers.Leaving r →
     ∃ s', handlers.step E config s s' ∧
           handlers.tasks s' !! i = Some (handlers.move t handlers.Exited) ∧
           S (handlers.holders s') = handlers.holders s).

End outcomes.

End spec.

(** ** Scenarios: concrete worlds for running the model *)
Module scenario.
Import models llminterface.

Definition salesDB : DatabaseConfig :=
  {| Name := "sales_db"; DBType := "postgresql"; Host := "localhost";
     Port := "5432"; DBName := "sales"; Username := "reader";
     Password := "secret" |}.

Definition gpt : LLMConfig :=
  {| LLMName := "default"; LLMType := "openai"; APIKey := "sk-test";
     models.Model := "gpt-4"; LLMOptions := None |}.

Definition ask : AssistantRequest :=
  {| DBConfigurationName := "sales_db";
     RequestQuestion := "Show me the top 5 products by sales volume";
     Options := {| LLMProvider := "openai"; LLMConfig_ := "default" |} |}.

(** The same question, naming an LLM configuration that is not stored. *)
Definition askUnknown : AssistantRequest :=
  {| DBConfigurationName := "sales_db";
     RequestQuestion := "Show me the top 5 products by sales volume";
     Options := {| LLMProvider := "openai"; LLMConfig_ := "missing" |} |}.

(** A process that has stored one database configuration and one LLM
    configuration, and nothing else. *)
Definition start : World :=
  {| assistantResponses := ∅;
     configs := {[ "sales_db" := salesDB ]};
     llmConfigs := {[ "openai" := {[ "default" := LLMConfig_pointer gpt ]} ]};
     pools := ∅; dbs := ∅; nextDB := 0; orchestratorPool := 0;
     clock := 0; saved := []; queries := []; completions := [] |}.

Definition schemaRows : Rows :=
  {| Columns := ok ["table_name"; "columns"; "table_comment"];
     records := [ {| scanSchema := ok ("products", "[]", None);
                     scanValues := ok [] |} ];
     Err := None |}.

Definition dataRows : Rows :=
  {| Columns := ok ["name"; "sum"];
     records := [ {| scanSchema := err (errorString "sql: expected 2 destination arguments in Scan, not 3");
                     scanValues := ok [dv_bytes "widget"; dv_int64 7] |} ];
     Err := None |}.

Definition reply (content : string)
  : go (option CompletionResponse * option error) :=
  Return (Some {| ResponseContent := content |}, None).

(** An outside world with a reachable database and an LLM that answers the
    SQL request with [first] and the report request with [second]. *)
Definition env (first second : go (option CompletionResponse * option error))
  : Env :=
  {| sql_Open := λ _, None;
     Ping := λ _, None;
     QueryContext := λ _ query,
       if decide (query = source.getSchemaQuery)
       then Return (ok schemaRows) else Return (ok dataRows);
     json_Unmarshal := λ _, ok ["name text"; "qty integer"];
     json_Marshal := λ _, ok "[{}]";
     GetProvider := λ _, None;
     Complete := λ _ req,
       match Messages req with
       | m :: _ =>
           if decide (Content m = "You are a data analyst who explains query results in a clear, concise way.")
           then second else first
       | [] => first
       end |}.

Definition goodSQL : string :=
  "<sql>select name, sum(qty) from products group by name order by 2 desc limit 5</sql>".

Definition goodReport : string := "<markdown># Top Products</markdown>".

(** Accept [ask] under the identifier [u1] and run its background task to
    the end. *)
Definition accepted : World :=
  (@handlers.CreateAssistantRequest memory.MemoryStorage ask "u1" start).2.

Definition runTask (E : Env) : go unit * World :=
  @handlers.backgroundTask asciiOnly E memory.MemoryStorage ask "u1" accepted.

(** The response that [accepted] holds for [u1]. *)
Definition initial : AssistantResponse :=
  {| UUID := "u1";
     Question := "Show me the top 5 products by sales volume";
     Success := true; Status := "in_progress";
     Response := [ {| Text := "Processing your request..."; Timestamp := 0;
                      Type_ := "step_output" |} ] |}.

(** The orchestrator that the background task of [ask] creates. *)
Definition orc : orchestrator.Orchestrator :=
  {| orchestrator.provider :=
       openai.NewConfig "default" "sk-test" "gpt-4" 3000;
     orchestrator.askID := "u1";
     orchestrator.dbConfigName := "sales_db" |}.

(** Four outside worlds: the LLM answers well; it answers the SQL request
    without tags; with its tags in reverse order; with a statement that
    drops a table. *)
Definition fine : Env := env (reply goodSQL) (reply goodReport).
Definition untagged : Env := env (reply "no tags here") (reply goodReport).
Definition reversed : Env := env (reply "</sql> x <sql>") (reply goodReport).
Definition dropping : Env :=
  env (reply "<sql>drop table users</sql>") (reply goodReport).

(** A gate of one slot, two accepted requests, and the process after the
    task of the first one passed its send. *)
Definition oneSlot : handlers.AssistantManagerConfig :=
  {| handlers.MaxConcurrentOrchestrations := 1 |}.

Definition twoAsks : list (AssistantRequest * string) :=
  [(ask, "u1"); (ask, "u2")].

Definition firstAdmitted : handlers.System :=
  {| handlers.world := set_orchestratorPool 1 start;
     handlers.tasks :=
       [ {| handlers.request := ask; handlers.uuid := "u1";
            handlers.at_ := handlers.Running |};
         {| handlers.request := ask; handlers.uuid := "u2";
            handlers.at_ := handlers.Waiting |} ];
     handlers.crashed := false |}.

End scenario.

(** * The configuration storage, the LLM provider and the HTTP routes

    The rest of the in-memory storage ([internal/storage/memory]), the
    closing of the source registry, the provider factory and registry
    ([internal/llm/factory], [internal/llmregistry]), the OpenAI provider
    ([internal/llm/openai]) and the routing and path handling of the HTTP
    handlers ([internal/api/handlers]). *)

(** ** Iteration over a Go map

    [for k, v := range m] visits every entry of [m] once, in an order that
    the language leaves open; [range m] is the order of one such loop. *)
Class MapOrder : Type := {
  range : ∀ {A : Type}, gmap string A → list (string * A);
  range_visits : ∀ (A : Type) (m : gmap string A), range m ≡ₚ map_to_list m
}.

(** An order for evaluating the model: by key. *)
Definition keyOrder : MapOrder :=
  {| range := λ A m, map_to_list m;
     range_visits := λ A m, reflexivity (map_to_list m) |}.

Definition set_configs (c : gmap string models.DatabaseConfig) (w : World)
  : World :=
  {| assistantResponses := assistantResponses w; configs := c;
     llmConfigs := llmConfigs w; pools := pools w; dbs := dbs w;
     nextDB := nextDB w; orchestratorPool := orchestratorPool w;
     clock := clock w; saved := saved w; queries := queries w;
     completions := completions w |}.

Definition set_llmConfigs (c : gmap string (gmap string any)) (w : World)
  : World :=
  {| assistantResponses := assistantResponses w; configs := configs w;
     llmConfigs := c; pools := pools w; dbs := dbs w;
     nextDB := nextDB w; orchestratorPool := orchestratorPool w;
     clock := clock w; saved := saved w; queries := queries w;
     completions := completions w |}.

(** ** Package [memory]: the configurations and the histories *)
Module memory_configs.
Import models.

(** [storage.ErrConfigExists] *)
Definition ErrConfigExists : error :=
  errorString "database configuration already exists".

Definition SaveDatabaseConfig (config : DatabaseConfig) : M (option error) :=
  λ w, match configs w !! Name config with
       | Some _ => (Return (Some ErrConfigExists), w)
       | None =>
           (Return None,
            set_configs (<[Name config := config]> (configs w)) w)
       end.

Definition DeleteDatabaseConfig (configName : string) : M (option error) :=
  λ w, match configs w !! configName with
       | None => (Return (Some storage.ErrConfigNotFound), w)
       | Some _ =>
           (Return None, set_configs (delete configName (configs w)) w)
       end.

Definition SaveLLMConfig (provider : string) (config : any)
  : M (option error) :=
  λ w,
    let w :=
      match llmConfigs w !! provider with
      | None => set_llmConfigs (<[provider := ∅]> (llmConfigs w)) w
      | Some _ => w
      end in
    match config with
    | LLMConfig_value c =>
        let configName := LLMName c in
        let providerConfigs := default ∅ (llmConfigs w !! provider) in
        match providerConfigs !! configName with
        | Some _ => (Return (Some ErrConfigExists), w)
        | None =>
            (Return None,
             set_llmConfigs
               (<[provider := <[configName := config]> providerConfigs]>
                  (llmConfigs w)) w)
        end
    | _ => (Return (Some (errorString "unsupported config type")), w)
    end.

Definition DeleteLLMConfig (provider configName : string)
  : M (option error) :=
  λ w,
    (* Check if provider exists *)
    match llmConfigs w !! provider with
    | None => (Return (Some storage.ErrConfigNotFound), w)
    | Some providerConfigs =>
        (* Check if config exists *)
        match providerConfigs !! configName with
        | None => (Return (Some storage.ErrConfigNotFound), w)
        | Some _ =>
            (* Delete the config *)
            let providerConfigs := delete configName providerConfigs in
            (* If this was the last config for this provider, clean up the
               provider map *)
            if decide (size providerConfigs = 0)
            then (Return None,
                  set_llmConfigs (delete provider (llmConfigs w)) w)
            else (Return None,
                  set_llmConfigs
                    (<[provider := providerConfigs]> (llmConfigs w)) w)
        end
    end.

Section range.
Context `{MapOrder}.

Definition GetDatabaseConfigs : M (result (list DatabaseConfig)) :=
  λ w, (Return (ok ((range (configs w)).*2)), w).

Definition GetLLMConfigs (provider : string) : M (result (list any)) :=
  λ w, match llmConfigs w !! provider with
       | None => (Return (ok []), w)
       | Some providerConfigs =>
           (Return (ok ((range providerConfigs).*2)), w)
       end.

Definition GetAssistantHistories : M (result (list AssistantResponse)) :=
  λ w, (Return (ok ((range (assistantResponses w)).*2)), w).

End range.

End memory_configs.

(** ** Package [source]: closing the registry *)
Module registry.
Import GoStrings.

Section registry.
(** The error that [pool.Close()] returns for the pool with this handle;
    the pool is closed either way. *)
Context (Close_error : nat → option error) `{MapOrder}.

Definition pool_Close (pool : nat) : M (option error) :=
  source.db_Close pool;; mret (Close_error pool).

(** The [for name, pool := range r.pools] loop of [Close]. *)
Fixpoint closePools (visit : list (string * nat)) (errors : list string)
  : M (list string) :=
  match visit with
  | [] => mret errors
  | (name, pool) :: visit' =>
      e ← pool_Close pool;
      match e with
      | Some e =>
          closePools visit'
            (errors ++
               ["failed to close pool " +:+ name +:+ ": " +:+ Error e])
      | None => closePools visit' errors
      end
  end.

(** [Close] closes all connection pools. *)
Definition Close : M (option error) :=
  λ w,
    (errors ← closePools (range (pools w)) [];
     if decide (0 < length errors)
     then mret (Some (errorString
                        ("errors closing pools: " +:+ Join errors "; ")))
     else mret None) w.

End registry.

End registry.

(** ** Package [openai]: the provider *)
Module provider.
Import llminterface.

(** The message constructors of the OpenAI client library. *)
Inductive ChatCompletionMessageParamUnion : Type :=
| UserMessage (content : string)
| AssistantMessage (content : string)
| SystemMessage (content : string).

Record ChatCompletionNewParams : Type := {
  ParamMessages : list ChatCompletionMessageParamUnion;
  ParamModel : string;
  ParamMaxTokens : Z;
  ParamTemperature : Q
}.

(** A [ChatCompletion] of the client library, by the [Message.Content] of
    its choices. *)
Record ChatCompletion : Type := {
  Choices : list string
}.

(** [llminterface.Error] *)
Record LLMError : Type := {
  ErrProvider : string;
  ErrCode : string;
  ErrMessage : string;
  ErrRetryable : bool
}.

(** The errors that [Complete] returns: one made by [fmt.Errorf], or an
    [*llminterface.Error]. *)
Inductive CompleteError : Type :=
| plainError (e : error)
| llmError (e : LLMError).

(** [Provider] implements [llminterface.Provider] for OpenAI; its [client]
    is the API key the client was made with. *)
Record Provider : Type := {
  config : option openai.Config;
  client : option string
}.

Definition NewProvider : Provider := {| config := None; client := None |}.

(** [Initialize], on the one implementation of [llminterface.Config] that
    the code base has. *)
Definition Initialize (p : Provider) (cfg : openai.Config)
  : option error * Provider :=
  match openai.Validate cfg with
  | Some e => (Some (wrapError "invalid config: " e), p)
  | None =>
      (None, {| config := Some cfg; client := Some (openai.APIKey cfg) |})
  end.

(** Helper function to identify retryable errors *)
Definition isRetryableError (e : error) : bool := false.

(** The [switch msg.Role] of [Complete]. *)
Definition convertMessage (msg : Message)
  : result ChatCompletionMessageParamUnion :=
  if decide (Role msg = "user") then ok (UserMessage (Content msg))
  else if decide (Role msg = "assistant")
  then ok (AssistantMessage (Content msg))
  else if decide (Role msg = "system") then ok (SystemMessage (Content msg))
  else err (errorString ("unsupported message role: " +:+ Role msg)).

(** The loop of [Complete] that converts the messages to OpenAI's format;
    it returns at the first message it cannot convert. *)
Fixpoint convertMessages (msgs : list Message)
  : result (list ChatCompletionMessageParamUnion) :=
  match msgs with
  | [] => ok []
  | msg :: msgs' =>
      match convertMessage msg with
      | err e => err e
      | ok m =>
          match convertMessages msgs' with
          | err e => err e
          | ok ms => ok (m :: ms)
          end
      end
  end.

(** A read of a field of [p.config]. *)
Definition config_field {A : Type} (p : Provider) (f : openai.Config → A)
  : go A :=
  match config p with
  | Some c => Return (f c)
  | None =>
      Panic "runtime error: invalid memory address or nil pointer dereference"
  end.

Section provider.
(** [p.client.Chat.Completions.New(ctx, params)] *)
Context (New : ChatCompletionNewParams → result ChatCompletion).

Definition Complete (p : Provider) (req : CompletionRequest)
  : go (option CompletionResponse * option CompleteError) :=
  match client p with
  | None =>
      Return (None, Some (plainError (errorString "provider not initialized")))
  | Some _ =>
      (* Convert our messages to OpenAI's format *)
      match convertMessages (Messages req) with
      | err e => Return (None, Some (plainError e))
      | ok messages =>
          (* Set up completion parameters *)
          match (if decide (MaxTokens req = 0%Z)
                 then config_field p openai.MaxTokens
                 else Return (MaxTokens req)) with
          | Panic v => Panic v
          | Return maxTokens =>
              match (if decide (llminterface.Model req = EmptyString)
                     then config_field p openai.Model
                     else Return (llminterface.Model req)) with
              | Panic v => Panic v
              | Return model =>
                  let params :=
                    {| ParamMessages := messages; ParamModel := model;
                       ParamMaxTokens := maxTokens;
                       ParamTemperature := Temperature req |} in
                  (* Make the API call *)
                  match New params with
                  | err e =>
                      Return (None,
                              Some (llmError
                                      {| ErrProvider := "openai";
                                         ErrCode := "api_error";
                                         ErrMessage := Error e;
                                         ErrRetryable := isRetryableError e |}))
                  | ok completion =>
                      match Choices completion with
                      | [] =>
                          Return (None,
                                  Some (llmError
                                          {| ErrProvider := "openai";
                                             ErrCode := "no_completion";
                                             ErrMessage := "no completion choices returned";
                                             ErrRetryable := false |}))
                      | content :: _ =>
                          (* Convert the response to our format *)
                          Return (Some {| ResponseContent := content |}, None)
                      end
                  end
              end
          end
      end
  end.

End provider.

End provider.

(** ** Package [factory] *)
Module factory.
Import models.

(** [CreateProvider] creates a new LLM provider instance based on the
    provider type. *)
Definition CreateProvider (providerType : string) : result provider.Provider :=
  if decide (providerType = "openai") then ok provider.NewProvider
  else err (errorString ("unsupported provider type: " +:+ providerType)).

(** Helper function to extract max tokens from options *)
Definition getMaxTokens (options : option (gmap string optionValue)) : Z :=
  match options with
  | None => 3000
  | Some options =>
      match options !! "max_tokens" with
      | Some (float64 maxTokens) => orchestrator.int_of_float64 maxTokens
      | _ => 3000
      end
  end.

(** [CreateConfig] creates a new configuration instance based on the
    provider type. *)
Definition CreateConfig (providerType name apiKey model : string)
  (options : option (gmap string optionValue)) : result openai.Config :=
  if decide (providerType = "openai")
  then ok {| openai.Name := name; openai.APIKey := apiKey;
             openai.Model := model;
             openai.MaxTokens := getMaxTokens options |}
  else err (errorString ("unsupported provider type: " +:+ providerType)).

End factory.

(** ** Package [llmregistry] *)
Module llmregistry.
Import models.

(** The registry; its [storage] is [nil] until [SetStorage], and is held
    here by the one method of it that the registry calls,
    [GetLLMConfigs]. *)
Record Registry : Type := {
  storage : option (string → M (result (list any)))
}.

Definition NewRegistry (storage : option (string → M (result (list any))))
  : Registry :=
  {| storage := storage |}.

Definition GetProvider (r : Registry) (name : string)
  : M (result provider.Provider) :=
  match storage r with
  | None => mret (err (errorString "storage not initialized"))
  | Some GetLLMConfigs =>
      (* Load configuration from storage *)
      configs ← GetLLMConfigs name;
      match configs with
      | err e => mret (err (wrapError "failed to load LLM configs: " e))
      | ok configs =>
          if decide (length configs = 0)
          then mret (err (errorString
                            ("no configuration found for provider " +:+ name)))
          else
            (* Create new provider instance *)
            match factory.CreateProvider name with
            | err e => mret (err (wrapError "failed to create provider: " e))
            | ok provider =>
                (* Convert the config *)
                match configs with
                | [] =>
                    lift (Panic "runtime error: index out of range [0] with length 0")
                | LLMConfig_value config :: _ =>
                    match factory.CreateConfig name (LLMName config)
                            (APIKey config) (Model config)
                            (LLMOptions config) with
                    | err e =>
                        mret (err (wrapError "failed to create config: " e))
                    | ok llmConfig =>
                        (* Initialize provider with the converted config *)
                        match provider.Initialize provider llmConfig with
                        | (Some e, _) =>
                            mret (err (wrapError
                                         "failed to initialize provider: " e))
                        | (None, provider) => mret (ok provider)
                        end
                    end
                | _ :: _ =>
                    mret (err (errorString
                                 ("invalid config type for provider " +:+
                                  name)))
                end
            end
      end
  end.

Definition ListProviders (r : Registry) : list string := ["openai"].

End llmregistry.

(** ** Package [handlers]: routes and paths *)
Module routes.
Import models GoStrings.

(** [strings.TrimPrefix(s, prefix)] *)
Definition TrimPrefix (s prefix : string) : string :=
  if HasPrefix s prefix
  then String.substring (String.length prefix)
         (String.length s - String.length prefix) s
  else s.

(** The loop of [strings.Split(s, sep)] for a separator that is not empty:
    cut at each instance of [sep] in turn.  [n] bounds the number of cuts,
    as the count of the instances does in the library. *)
Fixpoint genSplit (n : nat) (s sep : string) : list string :=
  match n with
  | 0 => [s]
  | S n' =>
      let m := Index s sep in
      if (m <? 0)%Z then [s]
      else
        String.substring 0 (Z.to_nat m) s
        :: genSplit n'
             (String.substring (Z.to_nat m + String.length sep)
                (String.length s - (Z.to_nat m + String.length sep)) s)
             sep
  end.

(** [strings.Split(s, sep)] for a separator that is not empty, as every
    call of this code base has it. *)
Definition Split (s sep : string) : list string :=
  genSplit (String.length s) s sep.

(** What a handler writes: the status code and the body, which is the text
    of an [http.Error] or the value handed to the JSON encoder. *)
Inductive Body : Type :=
| textBody (message : string)
| responseBody (response : AssistantResponse)
| historiesBody (histories : list AssistantResponse)
| configBody (config : DatabaseConfig)
| configsBody (configs : list DatabaseConfig)
| messageBody (message : string).

Record Reply : Type := {
  statusCode : Z;
  body : Body
}.

(** [http.Error(w, message, statusCode)] *)
Definition http_Error (message : string) (statusCode : Z) : Reply :=
  {| statusCode := statusCode; body := textBody message |}.

(** [handleError] of the three managers. *)
Definition handleError (statusCode : Z) (message : string)
  (e : option error) : Reply :=
  match e with
  | Some e => http_Error (message +:+ ": " +:+ Error e) statusCode
  | None => http_Error message statusCode
  end.

Definition extractUUID (path : string) : string :=
  let parts := Split path "/" in
  if decide (length parts ≠ 4) then EmptyString
  else default EmptyString (parts !! 3).

(** Where [HandleAssistant], [HandleDatabases] and [HandleLLM] send a
    request. *)
Inductive AssistantRoute : Type :=
| toCreateAssistantRequest
| toMissingUUID
| toGetAssistantResponse
| toGetAssistantHistories
| assistantNotFound.

(** [HandleAssistant] routes assistant-related requests to appropriate
    handlers. *)
Definition HandleAssistant (method path : string) : AssistantRoute :=
  if decide (method = "POST" ∧ path = "/assistant/ask")
  then toCreateAssistantRequest
  else if decide (method = "GET" ∧ path = "/assistant/ask")
  then toMissingUUID
  else if decide (method = "GET" ∧ HasPrefix path "/assistant/ask/" = true)
  then toGetAssistantResponse
  else if decide (method = "GET" ∧ path = "/assistant/histories")
  then toGetAssistantHistories
  else assistantNotFound.

Inductive ConfigRoute : Type :=
| toCreate
| toList
| toGet
| toDelete
| configNotFound.

(** The [switch] of [HandleDatabases] and of [HandleLLM], on the path
    without its prefix. *)
Definition configRoute (method path : string) : ConfigRoute :=
  if decide (method = "POST" ∧ path = EmptyString) then toCreate
  else if decide (method = "GET" ∧ path = EmptyString) then toList
  else if decide (method = "GET" ∧ path ≠ EmptyString) then toGet
  else if decide (method = "DELETE" ∧ path ≠ EmptyString) then toDelete
  else configNotFound.

(** [HandleDatabases] is the main handler that routes database-related
    requests. *)
Definition HandleDatabases (method path : string) : ConfigRoute :=
  configRoute method (TrimPrefix path "/databases").

Definition HandleLLM (method path : string) : ConfigRoute :=
  configRoute method (TrimPrefix path "/llm").

(** The two names that [GetLLMConfig] and [DeleteLLMConfig] read from the
    path, or [None] where they answer "Invalid path". *)
Definition llmPath (path : string) : option (string * string) :=
  let paths := Split (TrimPrefix path "/llm/") "/" in
  if decide (length paths ≠ 2) then None
  else
    Some (default EmptyString (paths !! 0), default EmptyString (paths !! 1)).

(** The name that [GetDatabaseConfig] and [DeleteDatabaseConfig] read from
    the path, or [None] where they answer "Invalid path". *)
Definition databasePath (path : string) : option string :=
  let pathParts := Split path "/" in
  if decide (length pathParts < 3) then None
  else Some (default EmptyString (pathParts !! (length pathParts - 1))).

Section routes.
(** [uuid.Parse] of the UUID library, by the error it returns. *)
Context (uuid_Parse : string → option error) `{storage.Storage}.

Definition isValidUUID (u : string) : bool :=
  if decide (u = EmptyString) then false
  else match uuid_Parse u with
       | None => true
       | Some _ => false
       end.

Definition GetAssistantResponse (path : string) : M Reply :=
  (* Extract UUID from path *)
  let uuid := extractUUID path in
  if negb (isValidUUID uuid)
  then mret (handleError 400 "Invalid UUID format" None)
  else
    r ← storage.LoadAssistantResponse uuid;
    match r with
    | err e =>
        if errors_Is e storage.ErrResponseNotFound
        then mret (handleError 404 "Response not found" (Some e))
        else mret (handleError 500 "Failed to load response" (Some e))
    | ok response =>
        mret {| statusCode := 200; body := responseBody response |}
    end.

(** The method check, the path and the storage call of
    [DatabaseManager.GetDatabaseConfig]. *)
Definition GetDatabaseConfig (method path : string) : M Reply :=
  if decide (method ≠ "GET") then mret (http_Error "Method not allowed" 405)
  else
    match databasePath path with
    | None => mret (http_Error "Invalid path" 400)
    | Some configName =>
        r ← storage.LoadDatabaseConfig configName;
        match r with
        | err e =>
            if decide (e = storage.ErrConfigNotFound)
            then mret (http_Error "Configuration not found" 404)
            else mret (http_Error "Internal server error" 500)
        | ok config => mret {| statusCode := 200; body := configBody config |}
        end
    end.

End routes.

(** [DatabaseManager.DeleteDatabaseConfig], over the in-memory storage. *)
Definition DeleteDatabaseConfig (method path : string) : M Reply :=
  if decide (method ≠ "DELETE")
  then mret (http_Error "Method not allowed" 405)
  else
    match databasePath path with
    | None => mret (http_Error "Invalid path" 400)
    | Some configName =>
        (* Delete the configuration *)
        e ← memory_configs.DeleteDatabaseConfig configName;
        match e with
        | Some e =>
            if decide (e = storage.ErrConfigNotFound)
            then mret (http_Error "Configuration not found" 404)
            else mret (http_Error "Internal server error" 500)
        | None =>
            mret {| statusCode := 200;
                    body := messageBody
                              "Database configuration deleted successfully" |}
        end
    end.

End routes.

(** ** Vocabulary of the properties of this part *)
Module props.
Import models.

(** Every database configuration is stored under its own name. *)
Definition configsNamed (w : World) : Prop :=
  ∀ k c, configs w !! k = Some c → Name c = k.

(** No provider is left with an empty map of LLM configurations. *)
Definition noEmptyProvider (w : World) : Prop :=
  ∀ p m, llmConfigs w !! p = Some m → m ≠ ∅.

(** The LLM configuration stored for a provider under a name. *)
Definition llmStored (w : World) (provider name : string) : option any :=
  llmConfigs w !! provider ≫= (.!! name).

(** Every stored LLM configuration is stored by value. *)
Definition storesValues (w : World) : Prop :=
  ∀ p n config, llmStored w p n = Some config →
    ∃ c, config = LLMConfig_value c.

(** The record that [handleOrchestrationError] saves. *)
Definition errorRecord (uuid text : string) (now : Z) : AssistantResponse :=
  {| UUID := uuid; Question := EmptyString; Success := false;
     Status := "failed";
     Response := [ {| Text := text; Timestamp := now; Type_ := "error" |} ] |}.

(** The configurations that the storage holds. *)
Definition storedConfigs (w : World)
  : gmap string DatabaseConfig * gmap string (gmap string any) :=
  (configs w, llmConfigs w).

(** The connection pools of the source registry, and the pool objects. *)
Definition connections (w : World) : gmap string nat * gmap nat DB * nat :=
  (pools w, dbs w, nextDB w).

(** A pool object after [Close]. *)
Definition closedPool (d : DB) : DB :=
  {| DSN := DSN d; MaxOpenConns := MaxOpenConns d;
     MaxIdleConns := MaxIdleConns d; ConnMaxLifetime := ConnMaxLifetime d;
     Closed := true |}.

(** Every pool that the registry has cached is a pool object that was
    opened and is not closed. *)
Definition poolsOpen (w : World) : Prop :=
  ∀ name h, pools w !! name = Some h →
    h < nextDB w ∧ ∃ d, dbs w !! h = Some d ∧ Closed d = false.

(** The traces of what was sent to the database and to the LLM. *)
Definition traces (w : World)
  : list string * list llminterface.CompletionRequest :=
  (queries w, completions w).

(** From [w0] to [w], the process sent the queries [qs] to the database and
    the requests [cs] to the LLM, and nothing else. *)
Definition said (w0 w : World) (qs : list string)
  (cs : list llminterface.CompletionRequest) : Prop :=
  queries w = queries w0 ++ qs ∧ completions w = completions w0 ++ cs.

(** The computation [m] returns, in every state: it does not panic. *)
Definition returns {A : Type} (m : M A) : Prop :=
  ∀ w, ∃ a w', m w = (Return a, w').

(** The computation [m] keeps the property [P] of the process state,
    whatever it returns. *)
Definition preserves {A : Type} (P : World → Prop) (m : M A) : Prop :=
  ∀ w, P w → P (m w).2.

(** The response store and the clock. *)
Definition journal (w : World) : gmap string AssistantResponse * Z :=
  (assistantResponses w, clock w).

(** The record of [uuid] and the clock, as [AppendResponse] and
    [UpdateStatus] read them. *)
Definition logged (w : World) (uuid : string) (r : AssistantResponse)
  (now : Z) : Prop :=
  assistantResponses w !! uuid = Some r ∧ UUID r = uuid ∧ clock w = now.

Definition update (kind text : string) (now : Z) : Update :=
  {| Text := text; Timestamp := now; Type_ := kind |}.

(** The request that [generateSQLQuery] sends to the LLM. *)
Definition sqlRequest (schema question : string)
  : llminterface.CompletionRequest :=
  {| llminterface.Messages :=
       [ {| llminterface.Role := "system";
            llminterface.Content := "You are a PostgreSQL expert who generates SQL queries based on natural language questions." |};
         {| llminterface.Role := "user";
            llminterface.Content :=
              prompt.InitialPrompt
                {| prompt.DBSchema := schema; prompt.Question := question;
                   prompt.InitialQuery := EmptyString;
                   prompt.QueryResultJSON := EmptyString |} |} ];
     llminterface.MaxTokens := 0; llminterface.Temperature := 0.3;
     llminterface.Model := EmptyString |}.

(** The request that [generateFinalResponse] sends to the LLM. *)
Definition reportRequest (question resultJSON : string)
  : llminterface.CompletionRequest :=
  {| llminterface.Messages :=
       [ {| llminterface.Role := "system";
            llminterface.Content := "You are a data analyst who explains query results in a clear, concise way." |};
         {| llminterface.Role := "user";
            llminterface.Content :=
              prompt.GenerateReportPrompt
                {| prompt.DBSchema := EmptyString;
                   prompt.Question := question;
                   prompt.InitialQuery := EmptyString;
                   prompt.QueryResultJSON := resultJSON |} |} ];
     llminterface.MaxTokens := 0; llminterface.Temperature := 0.7;
     llminterface.Model := EmptyString |}.

(** A table of the database, as one row of the schema query describes
    it. *)
Record Table : Type := {
  tableName : string;
  tableComment : option string;
  tableColumns : list string
}.

(** The lines of the schema text that describe one table. *)
Definition tableText (t : Table) : string :=
  "Table: " +:+ tableName t +:+ source.nl +:+
  match tableComment t with
  | Some comment => "Description: " +:+ comment +:+ source.nl
  | None => EmptyString
  end +:+
  "Columns:" +:+ source.nl +:+
  String.concat EmptyString
    (map (λ column, "  - " +:+ column +:+ source.nl) (tableColumns t)) +:+
  source.nl.

(** The row of the schema query scans and parses to the table [t]. *)
Definition describes (E : Env) (row : Row) (t : Table) : Prop :=
  ∃ columnsJSON,
    scanSchema row = ok (tableName t, columnsJSON, tableComment t) ∧
    json_Unmarshal E columnsJSON = ok (tableColumns t).

(** The value that the result map of a row holds for the [j]-th column. *)
Definition cell (values : list driverValue) (j : nat) : driverValue :=
  source.convertValue (default dv_nil (values !! j)).

(** The roles that the OpenAI provider converts. *)
Definition supportedRole (role : string) : Prop :=
  role = "user" ∨ role = "assistant" ∨ role = "system".

(** The options set [max_tokens] to a number that is zero. *)
Definition zeroMaxTokens (options : option (gmap string optionValue))
  : Prop :=
  ∃ m q, options = Some m ∧ m !! "max_tokens" = Some (float64 q) ∧
         Qnum q = 0%Z.

(** The parameters of the API call for [req] by a provider of [cfg], where
    the messages of [req] convert to [messages]: what the request leaves
    zero or empty is taken from the configuration. *)
Definition paramsFor (cfg : openai.Config)
  (req : llminterface.CompletionRequest)
  (messages : list provider.ChatCompletionMessageParamUnion)
  : provider.ChatCompletionNewParams :=
  {| provider.ParamMessages := messages;
     provider.ParamModel :=
       if decide (llminterface.Model req = EmptyString)
       then openai.Model cfg else llminterface.Model req;
     provider.ParamMaxTokens :=
       if decide (llminterface.MaxTokens req = 0%Z)
       then openai.MaxTokens cfg else llminterface.MaxTokens req;
     provider.ParamTemperature := llminterface.Temperature req |}.

(** The provider that [GetProvider] makes from the stored configuration
    [c]. *)
Definition providerOf (c : LLMConfig) : provider.Provider :=
  {| provider.config :=
       Some (openai.NewConfig (LLMName c) (APIKey c) (Model c)
               (factory.getMaxTokens (LLMOptions c)));
     provider.client := Some (APIKey c) |}.

Section tasks.
Context `{UnicodeTables} (E : Env).

(** The LLM answers [req] with a text between whose [tag] delimiters
    [ExtractResponse] finds [text], which is not empty. *)
Definition extracted (o : orchestrator.Orchestrator)
  (req : llminterface.CompletionRequest) (tag text : string) : Prop :=
  ∃ c,
    Complete E (orchestrator.provider o) req = Return (Some c, None) ∧
    prompt.ExtractResponse tag (llminterface.ResponseContent c)
    = Return text ∧
    text ≠ EmptyString.

(** What a run says to the database and to the LLM, in the four ways it can
    go: nothing; the schema query; then the SQL request; then the query
    that the LLM answered with, and after it the report request or not. *)
Definition conversation (o : orchestrator.Orchestrator) (w : World)
  (qs : list string) (cs : list llminterface.CompletionRequest) : Prop :=
  (qs = [] ∧ cs = []) ∨
  (qs = [source.getSchemaQuery] ∧ cs = []) ∨
  ∃ r schema,
    assistantResponses w !! orchestrator.askID o = Some r ∧
    ((qs = [source.getSchemaQuery] ∧
      cs = [sqlRequest schema (Question r)]) ∨
     ∃ query,
       extracted o (sqlRequest schema (Question r)) "sql" query ∧
       qs = [source.getSchemaQuery; query] ∧
       (cs = [sqlRequest schema (Question r)] ∨
        ∃ resultJSON,
          cs = [sqlRequest schema (Question r);
                reportRequest (Question r) resultJSON])).

(** The background task of [uuid] ends before it has an orchestrator: it
    returns with the record of [uuid] replaced by an error record with this
    text, and has touched neither the database nor the LLM. *)
Definition refusedWith (request : AssistantRequest) (uuid : string)
  (w : World) (text : string) : Prop :=
  ∃ w',
    handlers.backgroundTask E request uuid w = (Return tt, w') ∧
    assistantResponses w'
    = <[uuid := errorRecord uuid text (clock w)]> (assistantResponses w) ∧
    traces w' = traces w ∧ connections w' = connections w.

End tasks.

End props.

(** ** More scenarios *)
Module cases.
Import models scenario.

(** The process after its first resolution of the sales database. *)
Definition connected : World :=
  (source.LoadSource fine "sales_db" start).2.

(** An outside world in which the pool with handle 0 has died. *)
Definition stale : Env :=
  {| sql_Open := sql_Open fine;
     Ping := λ h, if decide (h = 0)
                  then Some (errorString "driver: bad connection")
                  else None;
     QueryContext := QueryContext fine;
     json_Unmarshal := json_Unmarshal fine;
     json_Marshal := json_Marshal fine;
     GetProvider := GetProvider fine;
     Complete := Complete fine |}.

End cases.

(** * The PostgreSQL storage

    The storage that the server wires ([internal/storage/postgres]).  Its
    tables are kept in the process state, each row under its primary key and
    by the values that its columns encode: [assistant_responses] by
    [assistantResponses], [database_configs] by [configs] and [llm_configs]
    by [llmConfigs].  The server and the JSON codec are known by the errors
    of the calls that the storage makes. *)
Module postgres.
Import models storage.

(** The errors of [context] and [database/sql] that the storage compares
    with. *)
Definition context_Canceled : error := errorString "context canceled".
Definition context_DeadlineExceeded : error :=
  errorString "context deadline exceeded".
Definition sql_ErrNoRows : error := errorString "sql: no rows in result set".

(** What the PostgreSQL server and the JSON codec answer; a call to the
    server is answered in the state of the process it is made in, with [nil]
    or with an error. *)
Record Server : Type := {
  (** [json.Marshal(response.Response)] *)
  marshalUpdates : list Update → option error;
  (** [p.db.ExecContext(queryCtx, query, ...)] with the upsert of a
      response *)
  execUpsert : AssistantResponse → World → option error;
  (** a failure of [p.db.QueryRowContext(ctx, query, uuid).Scan(...)] on
      [assistant_responses] *)
  scanResponse : string → World → option error;
  (** [json.Unmarshal(responseJSON, &updates)] *)
  unmarshalUpdates : list Update → option error;
  (** a failure of [QueryRowContext(...).Scan(&configJSON)] on
      [database_configs] *)
  scanConfig : string → World → option error;
  (** [json.Unmarshal(configJSON, &config)] into a [DatabaseConfig] *)
  unmarshalConfig : DatabaseConfig → option error;
  (** a failure of [QueryRowContext(...).Scan(&configJSON)] on
      [llm_configs] *)
  scanLLMConfig : string → string → World → option error
}.

(** [QueryRowContext(...).Scan(...)]: the failure of the call if there is
    one, the row if the query selects one, and [sql.ErrNoRows] if not. *)
Definition QueryRow_Scan {A : Type} (failure : option error)
  (row : option A) : result A :=
  match failure with
  | Some e => err e
  | None =>
      match row with
      | Some a => ok a
      | None => err sql_ErrNoRows
      end
  end.

(** [json.Unmarshal(configJSON, &config)] into a [models.LLMConfig], on the
    JSON text of a row of [llm_configs]: the text of a configuration
    encodes that configuration. *)
Definition unmarshalLLMConfig (row : any) : result LLMConfig :=
  match row with
  | LLMConfig_value c | LLMConfig_pointer c => ok c
  | other_value =>
      err (errorString
             "json: cannot unmarshal into Go value of type models.LLMConfig")
  end.

Section postgres.
Context (S : Server).

(** [INSERT ... ON CONFLICT (uuid) DO UPDATE SET ...]: the row of the
    response replaces the row with its [uuid]. *)
Definition SaveAssistantResponse (response : AssistantResponse)
  : M (option error) :=
  λ w,
    match marshalUpdates S (Response response) with
    | Some e =>
        (Return (Some (wrapError "failed to marshal response: " e)), w)
    | None =>
        match execUpsert S response w with
        | Some e =>
            if decide (e = context_Canceled)
            then (Return (Some (wrapError "operation cancelled: " e)), w)
            else if decide (e = context_DeadlineExceeded)
            then (Return (Some (wrapError "operation timed out: " e)), w)
            else (Return (Some (wrapError
                                  "failed to save assistant response: " e)),
                  w)
        | None =>
            (Return None,
             set_assistantResponses
               (<[UUID response := response]> (assistantResponses w)) w)
        end
    end.

(** [LoadAssistantResponse] retrieves a specific assistant response by
    UUID. *)
Definition LoadAssistantResponse (uuid : string)
  : M (result AssistantResponse) :=
  λ w,
    match QueryRow_Scan (scanResponse S uuid w)
            (assistantResponses w !! uuid) with
    | err e =>
        if decide (e = sql_ErrNoRows)
        then (Return (err ErrResponseNotFound), w)
        else (Return (err (wrapError
                             "failed to query assistant response: " e)), w)
    | ok response =>
        (* Unmarshal the response array *)
        match unmarshalUpdates S (Response response) with
        | Some e =>
            (Return (err (wrapError
                            "failed to unmarshal response updates: " e)), w)
        | None => (Return (ok response), w)
        end
    end.

Definition LoadDatabaseConfig (configName : string)
  : M (result DatabaseConfig) :=
  λ w,
    match QueryRow_Scan (scanConfig S configName w)
            (configs w !! configName) with
    | err e =>
        if decide (e = sql_ErrNoRows)
        then (Return (err ErrConfigNotFound), w)
        else (Return (err (wrapError "failed to query config: " e)), w)
    | ok config =>
        match unmarshalConfig S config with
        | Some e =>
            (Return (err (wrapError "failed to unmarshal config: " e)), w)
        | None => (Return (ok config), w)
        end
    end.

(** [LoadLLMConfig] retrieves a specific configuration by provider and
    name; for openai it returns a pointer to the configuration. *)
Definition LoadLLMConfig (provider configName : string) : M (result any) :=
  λ w,
    match QueryRow_Scan (scanLLMConfig S provider configName w)
            (llmConfigs w !! provider ≫= (.!! configName)) with
    | err e =>
        if decide (e = context_Canceled)
        then (Return (err (wrapError "operation cancelled: " e)), w)
        else if decide (e = context_DeadlineExceeded)
        then (Return (err (wrapError "operation timed out: " e)), w)
        else if decide (e = sql_ErrNoRows)
        then (Return (err ErrConfigNotFound), w)
        else (Return (err (wrapError "failed to query config: " e)), w)
    | ok row =>
        (* Unmarshal based on provider *)
        if decide (provider = "openai") then
          match unmarshalLLMConfig row with
          | err e =>
              (Return (err (wrapError
                              "failed to unmarshal OpenAI config: " e)), w)
          | ok config => (Return (ok (LLMConfig_pointer config)), w)
          end
        else
          (Return (err (errorString
                          ("unsupported provider: " +:+ provider))), w)
    end.

(** [PostgresStorage] implements the [Storage] interface with the
    PostgreSQL backend. *)
Definition PostgresStorage : Storage := {|
  storage.SaveAssistantResponse := SaveAssistantResponse;
  storage.LoadAssistantResponse := LoadAssistantResponse;
  storage.LoadDatabaseConfig := LoadDatabaseConfig;
  storage.LoadLLMConfig := LoadLLMConfig
|}.

(** The server and the codec answer every call of the storage without an
    error. *)
Definition reliable : Prop :=
  (∀ updates, marshalUpdates S updates = None) ∧
  (∀ response w, execUpsert S response w = None) ∧
  (∀ uuid w, scanResponse S uuid w = None) ∧
  (∀ updates, unmarshalUpdates S updates = None) ∧
  (∀ name w, scanConfig S name w = None) ∧
  (∀ config, unmarshalConfig S config = None) ∧
  (∀ provider name w, scanLLMConfig S provider name w = None).

End postgres.

(** A server that answers every query, and fails the upsert of the
    responses that [refused] selects. *)
Definition refusing (refused : AssistantResponse → bool) : Server :=
  {| marshalUpdates := λ _, None;
     execUpsert := λ response _,
       if refused response
       then Some (errorString "pq: the database system is shutting down")
       else None;
     scanResponse := λ _ _, None;
     unmarshalUpdates := λ _, None;
     scanConfig := λ _ _, None;
     unmarshalConfig := λ _, None;
     scanLLMConfig := λ _ _ _, None |}.

(** Three servers: one that answers every call, one that fails every write
    of a response, and one that fails the write of a completed response. *)
Definition steady : Server := refusing (λ _, false).
Definition readOnly : Server := refusing (λ _, true).
Definition losingCompletion : Server :=
  refusing (λ response, bool_decide (Status response = "completed")).

End postgres.

(** * The orchestration as the server wires it: over the PostgreSQL
    storage *)
Module wired.
Import models llminterface spec.

Section wired.
Context `{UnicodeTables} (E : Env) (S : postgres.Server).

Definition AppendResponse : string → string → string → M (option error) :=
  @source.AppendResponse (postgres.PostgresStorage S).

Definition UpdateStatus : string → string → bool → M (option error) :=
  @source.UpdateStatus (postgres.PostgresStorage S).

Definition LoadSource : string → M (result source.PostgresConnector) :=
  @source.LoadSource E (postgres.PostgresStorage S).

Definition GetSchema
  : source.PostgresConnector → string → M (result string) :=
  @source.GetSchema E (postgres.PostgresStorage S).

Definition steps : orchestrator.Orchestrator → M unit :=
  @orchestrator.steps _ E (postgres.PostgresStorage S).

Definition Run : orchestrator.Orchestrator → M unit :=
  @orchestrator.Run _ E (postgres.PostgresStorage S).

Definition CreateAssistantRequest
  : AssistantRequest → string → M (option error) :=
  @handlers.CreateAssistantRequest (postgres.PostgresStorage S).

Definition handleOrchestrationError : string → string → error → M unit :=
  @handlers.handleOrchestrationError (postgres.PostgresStorage S).

Definition backgroundTask : AssistantRequest → string → M unit :=
  @handlers.backgroundTask _ E (postgres.PostgresStorage S).


(** Every content the response store goes through while the run [o] goes
    from [w] holds a response for its request with at most one final
    response, one if completed; and the response it ends with holds one
    exactly when it is completed with success. *)
Definition keepsOneFinal (o : orchestrator.Orchestrator) (w : World)
  : Prop :=
  ∃ new r',
    saved (Run o w).2 = new ++ saved w ∧
    Forall (λ m, ∃ r, m !! orchestrator.askID o = Some r ∧
                      finalWhenCompleted r) new ∧
    assistantResponses (Run o w).2 !! orchestrator.askID o = Some r' ∧
    finalIffCompleted r'.

(** The run [o] from [w] returns and leaves its response failed, without
    success, with an error update and without a final response. *)
Definition failsWithError (o : orchestrator.Orchestrator) (w : World)
  : Prop :=
  ∃ w' r',
    Run o w = (Return tt, w') ∧
    assistantResponses w' !! orchestrator.askID o = Some r' ∧
    Status r' = "failed" ∧ Success r' = false ∧
    1 ≤ count_kind "error" r' ∧
    count_kind "final_response" r' = 0.

End wired.

(** A process whose storage holds one database configuration and one LLM
    configuration, and the process after it accepted [scenario.ask] under
    the identifier [u1]. *)
Definition start : World :=
  {| assistantResponses := ∅;
     configs := {[ "sales_db" := scenario.salesDB ]};
     llmConfigs :=
       {[ "openai" := {[ "default" := LLMConfig_value scenario.gpt ]} ]};
     pools := ∅; dbs := ∅; nextDB := 0; orchestratorPool := 0;
     clock := 0; saved := []; queries := []; completions := [] |}.

Definition accepted : World :=
  (CreateAssistantRequest postgres.steady scenario.ask "u1" start).2.

End wired.

(** * Properties *)

(** ** Byte strings *)
Section strings_facts.
Import GoStrings spec.

Lemma append_cons (c : ascii) (s t : string) :
  String c s +:+ t = String c (s +:+ t).
Proof. reflexivity. Qed.

Lemma append_nil_l (t : string) : EmptyString +:+ t = t.
Proof. reflexivity. Qed.

Lemma append_nil_r (s : string) : s +:+ EmptyString = s.
Proof.
  induction s as [|c s IH]; [done |]. by rewrite append_cons, IH.
Qed.

Lemma append_assoc (a b c : string) : (a +:+ b) +:+ c = a +:+ b +:+ c.
Proof.
  induction a as [|x a IH]; [done |]. by rewrite !append_cons, IH.
Qed.

Lemma append_length (a b : string) :
  String.length (a +:+ b) = String.length a + String.length b.
Proof.
  induction a as [|x a IH]; [done |]. rewrite append_cons. simpl. by rewrite IH.
Qed.

Lemma prefix_starts_with (p s : string) :
  String.prefix p s = true ↔ starts_with p s.
Proof.
  unfold starts_with. revert s.
  induction p as [|a p IH]; intros s.
  - destruct s; split; eauto.
  - destruct s as [|b s]; simpl.
    + split; [done | intros [r Hr]; discriminate].
    + destruct (ascii_dec a b) as [->|Hne].
      * rewrite IH. split; intros [r Hr]; exists r;
          rewrite append_cons in *; congruence.
      * split; [done | intros [r Hr]; rewrite append_cons in Hr; congruence].
Qed.

(** Two ways of cutting one string: the shorter head is a head of the
    longer one. *)
Lemma append_split (a b c d : string) :
  a +:+ b = c +:+ d → String.length a ≤ String.length c →
  ∃ m, c = a +:+ m ∧ b = m +:+ d.
Proof.
  revert c. induction a as [|x a IH]; intros c Heq Hlen.
  - exists c. by rewrite append_nil_l in *.
  - destruct c as [|y c]; simpl in Hlen; [lia |].
    rewrite !append_cons in Heq. injection Heq as -> Heq.
    destruct (IH c Heq) as (m & -> & ->); [lia |].
    by exists m.
Qed.

Lemma substring_head (b c : string) :
  String.substring 0 (String.length b) (b +:+ c) = b.
Proof.
  induction b as [|y b IHb].
  - by destruct c.
  - rewrite append_cons. simpl. by rewrite IHb.
Qed.

Lemma substring_middle (a b c : string) :
  String.substring (String.length a) (String.length b) (a +:+ b +:+ c) = b.
Proof.
  induction a as [|x a IH]; [| by rewrite append_cons].
  rewrite append_nil_l. apply substring_head.
Qed.

Lemma drop_bytes_append (a b : string) :
  drop_bytes (String.length a) (a +:+ b) = b.
Proof.
  unfold drop_bytes. rewrite append_length.
  replace (String.length a + String.length b - String.length a)
    with (String.length b) by lia.
  rewrite <- (append_nil_r b) at 2.
  rewrite substring_middle. done.
Qed.

(** [index_from] finds the first place where [substr] occurs, counted from
    [i], and answers [-1] exactly when there is none. *)
Lemma index_from_first (substr s : string) (i : nat) :
  (index_from i s substr = (-1)%Z ∧ ¬ occurs substr s) ∨
  (∃ pre post, s = pre +:+ substr +:+ post ∧
     index_from i s substr = Z.of_nat (i + String.length pre) ∧
     ∀ pre' post', s = pre' +:+ substr +:+ post' →
       String.length pre ≤ String.length pre').
Proof.
  revert i. induction s as [|c s IH]; intros i.
  - unfold index_from. destruct (String.prefix substr EmptyString) eqn:Hp.
    + apply prefix_starts_with in Hp as [rest Hrest].
      right. exists EmptyString, rest. simpl. split_and!; [done | f_equal; lia |].
      intros; lia.
    + left. split; [done |]. intros (pre & post & Heq).
      destruct pre; [| discriminate]. rewrite append_nil_l in Heq.
      assert (String.prefix substr EmptyString = true) as Hp'
        by (apply prefix_starts_with; by exists post).
      congruence.
  - cbn [index_from]. destruct (String.prefix substr (String c s)) eqn:Hp.
    + apply prefix_starts_with in Hp as [rest Hrest].
      right. exists EmptyString, rest. simpl. split_and!; [done | f_equal; lia |].
      intros; lia.
    + assert (∀ pre post, String c s = pre +:+ substr +:+ post →
                ∃ pre', pre = String c pre' ∧ s = pre' +:+ substr +:+ post)
        as Hcut.
      { intros pre post Heq. destruct pre as [|x pre];
          [rewrite append_nil_l in Heq | rewrite append_cons in Heq].
        - assert (String.prefix substr (String c s) = true) as Hp'
            by (apply prefix_starts_with; by exists post).
          congruence.
        - injection Heq as -> Heq. by exists pre. }
      destruct (IH (S i)) as [[Hnone Hno] | (pre & post & Heq & Hidx & Hfirst)].
      * left. split; [done |]. intros (pre & post & Heq).
        destruct (Hcut _ _ Heq) as (pre' & -> & Heq').
        apply Hno. by exists pre', post.
      * right. exists (String c pre), post. simpl. split_and!.
        -- by rewrite append_cons, Heq.
        -- rewrite Hidx. f_equal. lia.
        -- intros pre' post' Heq'.
           destruct (Hcut _ _ Heq') as (pre'' & -> & Heq'').
           simpl. apply Hfirst in Heq''. lia.
Qed.

Lemma Index_first (substr s : string) :
  (Index s substr = (-1)%Z ∧ ¬ occurs substr s) ∨
  (∃ pre post, s = pre +:+ substr +:+ post ∧
     Index s substr = len pre ∧
     ∀ pre' post', s = pre' +:+ substr +:+ post' →
       String.length pre ≤ String.length pre').
Proof. apply (index_from_first substr s 0). Qed.

Lemma Index_ge (substr s : string) : (-1 ≤ Index s substr)%Z.
Proof.
  destruct (Index_first substr s) as [[-> _] | (pre & _ & _ & -> & _)];
    unfold len; lia.
Qed.

Lemma Index_absent (substr s : string) :
  Index s substr = (-1)%Z ↔ ¬ occurs substr s.
Proof.
  destruct (Index_first substr s) as [[Hi Hno] | (pre & post & Heq & Hi & _)].
  - done.
  - split.
    + unfold len in Hi. lia.
    + intros Hno. exfalso. apply Hno. by exists pre, post.
Qed.

Lemma Contains_occurs (s substr : string) :
  Contains s substr = true ↔ occurs substr s.
Proof.
  unfold Contains. rewrite Z.leb_le.
  destruct (Index_first substr s) as [[Hi Hno] | (pre & post & Heq & Hi & _)].
  - split; [lia | done].
  - split; [| unfold len in Hi; lia]. intros _. by exists pre, post.
Qed.

Lemma HasPrefix_starts_with (s prefix : string) :
  HasPrefix s prefix = true ↔ starts_with prefix s.
Proof. apply prefix_starts_with. Qed.

Lemma slice_in_range (a b c : string) :
  slice (a +:+ b +:+ c) (len a) (len a + len b) = Return b.
Proof.
  unfold slice, len. rewrite !append_length.
  destruct (_ && _) eqn:Hb.
  - replace (Z.of_nat (String.length a) + Z.of_nat (String.length b)
             - Z.of_nat (String.length a))%Z
      with (Z.of_nat (String.length b)) by lia.
    by rewrite !Nat2Z.id, substring_middle.
  - rewrite !andb_false_iff, !Z.leb_gt in Hb. lia.
Qed.

Lemma slice_out_of_range (s : string) (lo hi : Z) :
  (hi < lo)%Z → slice s lo hi = Panic "runtime error: slice bounds out of range".
Proof.
  intros Hlt. unfold slice.
  destruct (_ && _) eqn:Hb; [| done].
  rewrite !andb_true_iff, !Z.leb_le in Hb. lia.
Qed.

End strings_facts.

(** ** The prompt builder *)
Section prompt_facts.
Import GoStrings spec prompt.
Context `{UnicodeTables}.

Lemma checkKeywords_spec (query : string) (keywords : list string) :
  is_Some (checkKeywords query keywords) ↔
  ∃ keyword, keyword ∈ keywords ∧ occurs keyword query.
Proof.
  induction keywords as [|k ks IH]; simpl.
  - split; [by intros [? ?] | intros (k & Hk & _); by apply elem_of_nil in Hk].
  - destruct (Contains query k) eqn:Hc.
    + split; [| eauto]. intros _. exists k. split; [left |].
      by apply Contains_occurs.
    + rewrite IH. split.
      * intros (k' & Hin & Hocc). exists k'. split; [by right | done].
      * intros (k' & Hin & Hocc). apply elem_of_cons in Hin as [-> | Hin].
        -- apply Contains_occurs in Hocc. congruence.
        -- eauto.
Qed.

(** When either delimiter is absent the extraction is empty. *)
Lemma ExtractResponse_absent (tag response : string) :
  ¬ occurs ("<" +:+ tag +:+ ">") response ∨
  ¬ occurs ("</" +:+ tag +:+ ">") response →
  ExtractResponse tag response = Return EmptyString.
Proof.
  intros Habs. unfold ExtractResponse.
  destruct Habs as [Ha | Ha]; apply Index_absent in Ha.
  - simpl in Ha. simpl. rewrite Ha. done.
  - simpl in Ha. simpl. rewrite Ha. by rewrite orb_true_r.
Qed.

(** When both delimiters occur and the first closing one starts before the
    first opening one ends, the slice expression panics. *)
Lemma ExtractResponse_panics (tag response : string) :
  let startTag := "<" +:+ tag +:+ ">" in
  let endTag := "</" +:+ tag +:+ ">" in
  (0 ≤ Index response startTag)%Z →
  (0 ≤ Index response endTag)%Z →
  (Index response endTag < Index response startTag + len startTag)%Z →
  ExtractResponse tag response
  = Panic "runtime error: slice bounds out of range".
Proof.
  intros startTag endTag Hs He Hlt. unfold ExtractResponse.
  fold startTag endTag.
  destruct (_ || _) eqn:Hb.
  - rewrite orb_true_iff, !Z.eqb_eq in Hb. lia.
  - by rewrite slice_out_of_range.
Qed.

(** When the first closing delimiter starts at or after the end of the first
    opening one, the result is the trimmed text between the two. *)
Lemma ExtractResponse_between (tag response pre interior post : string) :
  let startTag := "<" +:+ tag +:+ ">" in
  let endTag := "</" +:+ tag +:+ ">" in
  response = pre +:+ startTag +:+ interior +:+ endTag +:+ post →
  Index response startTag = len pre →
  Index response endTag = (len pre + len startTag + len interior)%Z →
  ExtractResponse tag response = Return (TrimSpace interior).
Proof.
  intros startTag endTag Heq Hs He. unfold ExtractResponse.
  fold startTag endTag. rewrite Hs, He.
  destruct (_ || _) eqn:Hb.
  { rewrite orb_true_iff, !Z.eqb_eq in Hb. unfold len in Hb. lia. }
  rewrite Heq, <- (append_assoc pre startTag).
  assert (len pre + len startTag = len (pre +:+ startTag))%Z as ->
    by (unfold len; rewrite append_length; lia).
  by rewrite slice_in_range.
Qed.

End prompt_facts.

Section prompt_claims.
Import GoStrings spec prompt.
Context `{UnicodeTables}.

Lemma ExtractTagged_between (tag response pre interior post : string) :
  let startTag := "<" +:+ tag +:+ ">" in
  let endTag := "</" +:+ tag +:+ ">" in
  response = pre +:+ startTag +:+ interior +:+ endTag +:+ post →
  Index response startTag = len pre →
  Index response endTag = (len pre + len startTag + len interior)%Z →
  ExtractTagged tag response = TrimSpace interior.
Proof.
  intros startTag endTag Heq Hs He. unfold ExtractTagged.
  fold startTag endTag. rewrite Hs.
  destruct (len pre =? -1)%Z eqn:Hb;
    [apply Z.eqb_eq in Hb; unfold len in Hb; lia |]. clear Hb.
  assert (drop_bytes (Z.to_nat (len pre + len startTag)) response
          = interior +:+ endTag +:+ post) as ->.
  { rewrite Heq, <- (append_assoc pre startTag).
    replace (Z.to_nat (len pre + len startTag))
      with (String.length (pre +:+ startTag))
      by (unfold len; rewrite append_length; lia).
    apply drop_bytes_append. }
  destruct (Index_first endTag (interior +:+ endTag +:+ post))
    as [[_ Hno] | (pre2 & post2 & Heq2 & Hi2 & Hfirst2)].
  { exfalso. apply Hno. by exists interior, post. }
  assert (String.length pre2 = String.length interior) as Hlen.
  { apply Nat.le_antisymm; [by eapply Hfirst2 |].
    destruct (Index_first endTag response)
      as [[Habs _] | (pre_e & post_e & _ & Hie & Hfirst)].
    { unfold len in *. lia. }
    specialize (Hfirst (pre +:+ startTag +:+ pre2) post2).
    rewrite !append_length in Hfirst. unfold len in *.
    enough (String.length pre_e
            ≤ String.length pre + (String.length startTag + String.length pre2))
      by lia.
    apply Hfirst. rewrite Heq, Heq2. by rewrite !append_assoc. }
  rewrite Hi2.
  destruct (len pre2 =? -1)%Z eqn:Hb;
    [apply Z.eqb_eq in Hb; unfold len in Hb; lia |]. clear Hb.
  unfold len. rewrite Nat2Z.id, Hlen. by rewrite substring_head.
Qed.

(** The part of C6 that holds: ExtractResponse locates the first opening
    and the first closing delimiter; whenever one of them is absent, or the
    closing one does not start before the end of the opening one, it
    returns what the specification's ExtractTagged returns, the trimmed
    interior of the first pair; it returns the empty string whenever either
    delimiter is absent, and in particular for the tag sql on the text
    "no tags here". *)
Theorem ExtractResponse_first_pair (tag response : string) :
  let startTag := "<" +:+ tag +:+ ">" in
  let endTag := "</" +:+ tag +:+ ">" in
  Index response startTag = (-1)%Z ∨ Index response endTag = (-1)%Z ∨
  (Index response startTag + len startTag ≤ Index response endTag)%Z →
  ExtractResponse tag response = Return (ExtractTagged tag response) ∧
  (¬ occurs startTag response ∨ ¬ occurs endTag response →
   ExtractResponse tag response = Return EmptyString) ∧
  ExtractResponse "sql" "no tags here" = Return EmptyString.
Proof.
  intros startTag endTag Hord.
  split; [| split; [apply ExtractResponse_absent | reflexivity]].
  destruct (Index_first startTag response)
    as [[Hs Hnos] | (pre & post_s & Heq_s & Hs & _)].
  { rewrite ExtractResponse_absent by (left; done).
    unfold ExtractTagged. fold startTag. by rewrite Hs. }
  destruct (Index_first endTag response)
    as [[He Hnoe] | (pre_e & post_e & Heq_e & He & _)].
  { rewrite ExtractResponse_absent by (right; done).
    unfold ExtractTagged. fold startTag endTag. rewrite Hs.
    destruct (len pre =? -1)%Z; [done |].
    destruct (Index_first endTag
                (drop_bytes (Z.to_nat (len pre + len startTag)) response))
      as [[-> _] | (pre2 & post2 & Heq2 & _)]; [done |].
    exfalso. apply Hnoe.
    replace (Z.to_nat (len pre + len startTag))
      with (String.length (pre +:+ startTag)) in Heq2
      by (unfold len; rewrite append_length; lia).
    rewrite Heq_s, <- (append_assoc pre startTag), drop_bytes_append in Heq2.
    exists (pre +:+ startTag +:+ pre2), post2.
    rewrite Heq_s, Heq2. by rewrite !append_assoc. }
  destruct Hord as [Hord | [Hord | Hord]];
    [unfold len in *; lia | unfold len in *; lia |].
  rewrite Hs, He in Hord.
  destruct (append_split (pre +:+ startTag) post_s pre_e (endTag +:+ post_e))
    as (interior & Hpre_e & Hpost_s).
  { rewrite append_assoc, <- Heq_s. done. }
  { rewrite append_length. unfold len in Hord. lia. }
  assert (response = pre +:+ startTag +:+ interior +:+ endTag +:+ post_e)
    as Heq by (rewrite Heq_s, Hpost_s; done).
  assert (Index response endTag = (len pre + len startTag + len interior)%Z)
    as He'.
  { rewrite He, Hpre_e. unfold len. rewrite !append_length. lia. }
  rewrite (ExtractResponse_between tag response pre interior post_e) by done.
  by rewrite (ExtractTagged_between tag response pre interior post_e).
Qed.

(** C7: ValidateQuery returns an error exactly when the lowercased, trimmed
    text contains one of the seven keywords as a substring or does not start
    with select; so "select * from updates_log" is rejected, for the keyword
    update. *)
Theorem ValidateQuery_rejects_iff :
  (∀ query : string,
     let text := ToLower (TrimSpace query) in
     is_Some (ValidateQuery query) ↔
     (∃ keyword,
        keyword ∈ ["drop"; "truncate"; "delete"; "update"; "insert";
                   "alter"; "create"] ∧ occurs keyword text) ∨
     ¬ starts_with "select" text) ∧
  ValidateQuery "select * from updates_log"
  = Some (errorString "query contains forbidden keyword: update") ∧
  occurs "update" (ToLower (TrimSpace "select * from updates_log")).
Proof.
  split; [| split; [reflexivity | by exists "select * from ", "s_log"]].
  intros query text. unfold ValidateQuery. fold text.
  pose proof (checkKeywords_spec text dangerousKeywords) as Hk.
  destruct (checkKeywords text dangerousKeywords) as [e|].
  - split; [| eauto]. intros _. left. apply Hk. eauto.
  - destruct (HasPrefix text "select") eqn:Hp; simpl.
    + apply HasPrefix_starts_with in Hp. split.
      * by intros [? ?].
      * intros [Hkw | Hno]; [| done]. apply Hk in Hkw. by destruct Hkw.
    + split; [| eauto]. intros _. right.
      intros Hsw%HasPrefix_starts_with. congruence.
Qed.

(** C10, at its own example: on "</sql> x <sql>" the closing delimiter is
    found at index 0 and the opening one at index 9, so the slice
    [response[14:0]] panics and ExtractResponse returns no string. *)
Theorem ExtractResponse_panics_on_reversed_tags :
  Index "</sql> x <sql>" "<sql>" = 9%Z ∧
  Index "</sql> x <sql>" "</sql>" = 0%Z ∧
  ExtractResponse "sql" "</sql> x <sql>"
  = Panic "runtime error: slice bounds out of range".
Proof. split_and!; reflexivity. Qed.

End prompt_claims.

(** The witness of [ExtractResponse_first_pair]: a reply that wraps a query
    in one pair of tags. *)
Lemma ExtractResponse_first_pair_witness :
  @prompt.ExtractResponse asciiOnly "sql" "x <sql> select 1 </sql> y"
  = Return (@spec.ExtractTagged asciiOnly "sql" "x <sql> select 1 </sql> y") ∧
  @spec.ExtractTagged asciiOnly "sql" "x <sql> select 1 </sql> y" = "select 1".
Proof.
  split; [| reflexivity].
  apply (@ExtractResponse_first_pair asciiOnly "sql"
           "x <sql> select 1 </sql> y").
  right. right. vm_compute. discriminate.
Defined.

(** C6, at a failing input: a closing delimiter precedes the first pair.
    The interior of the first pair of "</sql><sql>a</sql>" is "a"; the
    search for the closing delimiter starts at the beginning of the text
    and finds it at index 0, before the end of the opening delimiter at
    index 11, and the slice expression of ExtractResponse panics. *)
Theorem ExtractResponse_misses_first_pair :
  @spec.ExtractTagged asciiOnly "sql" "</sql><sql>a</sql>" = "a" ∧
  @GoStrings.Index "</sql><sql>a</sql>" "<sql>" = 6%Z ∧
  @GoStrings.Index "</sql><sql>a</sql>" "</sql>" = 0%Z ∧
  @prompt.ExtractResponse asciiOnly "sql" "</sql><sql>a</sql>"
  = Panic "runtime error: slice bounds out of range".
Proof. split_and!; reflexivity. Qed.

(** ** Running Go code in the process state *)
Section monad_facts.
Import spec.

Lemma bind_run {A B : Type} (m : M A) (k : A → M B) (w : World) :
  (m ≫= k) w
  = match m w with
    | (Return a, w') => k a w'
    | (Panic v, w') => (Panic v, w')
    end.
Proof. reflexivity. Qed.

Lemma keeps_ret {A B : Type} (f : World → B) (a : A) : keeps f (mret a).
Proof. by intros w. Qed.

Lemma keeps_lift {A B : Type} (f : World → B) (g : go A) : keeps f (lift g).
Proof. by intros w. Qed.

Lemma keeps_bind {A B C : Type} (f : World → C) (m : M A) (k : A → M B) :
  keeps f m → (∀ a, keeps f (k a)) → keeps f (m ≫= k).
Proof.
  intros Hm Hk w. rewrite bind_run. specialize (Hm w).
  destruct (m w) as [[a|v] w']; simpl in *; [| done].
  by rewrite Hk.
Qed.

Lemma keeps_recover {B : Type} (f : World → B) (body : M unit)
  (handler : string → M unit) :
  keeps f body → (∀ v, keeps f (handler v)) → keeps f (recover body handler).
Proof.
  intros Hb Hh w. unfold recover. specialize (Hb w).
  destruct (body w) as [[a|v] w']; simpl in *; [done |].
  by rewrite Hh.
Qed.

End monad_facts.

Create HintDb keeps.

#[global] Hint Resolve keeps_ret keeps_lift keeps_bind keeps_recover : keeps.

#[global] Hint Extern 2 (spec.keeps _ (match ?x with _ => _ end)) =>
  destruct x : keeps.

#[global] Hint Extern 2 (spec.keeps _ (let _ := _ in _)) => cbv zeta : keeps.

#[global] Hint Extern 9 (spec.keeps _ _) => (by intros ?) : keeps.

(** The admission channel is touched by none of the code that runs inside an
    orchestration slot. *)
Section pool_frame.
Import spec models storage.
Context `{UnicodeTables} (E : Env).

Lemma Load_keeps_pool (uuid : string) :
  keeps orchestratorPool (LoadAssistantResponse uuid).
Proof.
  intros w. simpl. unfold memory.LoadAssistantResponse. by case_match.
Qed.

Lemma LoadDatabaseConfig_keeps_pool (name : string) :
  keeps orchestratorPool (LoadDatabaseConfig name).
Proof.
  intros w. simpl. unfold memory.LoadDatabaseConfig. by case_match.
Qed.

Lemma LoadLLMConfig_keeps_pool (provider name : string) :
  keeps orchestratorPool (LoadLLMConfig provider name).
Proof.
  intros w. simpl. unfold memory.LoadLLMConfig. by repeat case_match.
Qed.

Lemma sql_DB_Open_keeps_pool (dsn : string) :
  keeps orchestratorPool (source.sql_DB_Open E dsn).
Proof. intros w. unfold source.sql_DB_Open. by case_match. Qed.

#[local] Hint Resolve Load_keeps_pool LoadDatabaseConfig_keeps_pool
  LoadLLMConfig_keeps_pool sql_DB_Open_keeps_pool : keeps.

Lemma AppendResponse_keeps_pool (uuid kind text : string) :
  keeps orchestratorPool (source.AppendResponse uuid kind text).
Proof. unfold source.AppendResponse. eauto 20 with keeps. Qed.

Lemma UpdateStatus_keeps_pool (uuid status : string) (success : bool) :
  keeps orchestratorPool (source.UpdateStatus uuid status success).
Proof. unfold source.UpdateStatus. eauto 20 with keeps. Qed.

#[local] Hint Resolve AppendResponse_keeps_pool UpdateStatus_keeps_pool
  : keeps.

Lemma createConnectionPool_keeps_pool (config : DatabaseConfig) :
  keeps orchestratorPool (source.createConnectionPool E config).
Proof. unfold source.createConnectionPool. eauto 20 with keeps. Qed.

#[local] Hint Resolve createConnectionPool_keeps_pool : keeps.

Lemma LoadSource_keeps_pool (name : string) :
  keeps orchestratorPool (source.LoadSource E name).
Proof.
  unfold source.LoadSource, source.loadAndConnect. eauto 20 with keeps.
Qed.

Lemma GetSchema_keeps_pool (p : source.PostgresConnector) (uuid : string) :
  keeps orchestratorPool (source.GetSchema E p uuid).
Proof.
  unfold source.GetSchema, source.processSchemaRows. eauto 20 with keeps.
Qed.

Lemma ExecuteQuery_keeps_pool (p : source.PostgresConnector) (q : string) :
  keeps orchestratorPool (source.ExecuteQuery E p q).
Proof. unfold source.ExecuteQuery. eauto 20 with keeps. Qed.

Lemma handleError_keeps_pool (o : orchestrator.Orchestrator)
  (message : string) (e : error) :
  keeps orchestratorPool (orchestrator.handleError o message e).
Proof. unfold orchestrator.handleError. eauto 20 with keeps. Qed.

#[local] Hint Resolve LoadSource_keeps_pool GetSchema_keeps_pool
  ExecuteQuery_keeps_pool handleError_keeps_pool : keeps.

Lemma Run_keeps_pool (o : orchestrator.Orchestrator) :
  keeps orchestratorPool (orchestrator.Run E o).
Proof.
  unfold orchestrator.Run, orchestrator.steps,
    orchestrator.loadAssistantResponse, orchestrator.connectToDatabase,
    orchestrator.fetchDatabaseSchema, orchestrator.generateSQLQuery,
    orchestrator.executeQuery, orchestrator.generateFinalResponse.
  eauto 60 with keeps.
Qed.

Lemma handleOrchestrationError_keeps_pool (uuid message : string) (e : error) :
  keeps orchestratorPool (handlers.handleOrchestrationError uuid message e).
Proof. unfold handlers.handleOrchestrationError. eauto 20 with keeps. Qed.

#[local] Hint Resolve Run_keeps_pool handleOrchestrationError_keeps_pool
  : keeps.

Lemma backgroundTask_keeps_pool (request : AssistantRequest) (uuid : string) :
  keeps orchestratorPool (handlers.backgroundTask E request uuid).
Proof. unfold handlers.backgroundTask. eauto 20 with keeps. Qed.

Lemma CreateAssistantRequest_keeps_pool (request : AssistantRequest)
  (uuid : string) :
  keeps orchestratorPool (handlers.CreateAssistantRequest request uuid).
Proof. unfold handlers.CreateAssistantRequest. eauto 20 with keeps. Qed.

End pool_frame.

(** ** The response log *)
Section store_facts.
Import spec models storage.

Lemma Load_found (w : World) (uuid : string) (r : AssistantResponse) :
  assistantResponses w !! uuid = Some r →
  LoadAssistantResponse uuid w = (Return (ok r), w).
Proof.
  intros Hr. simpl. unfold memory.LoadAssistantResponse. by rewrite Hr.
Qed.

Lemma Load_missing (w : World) (uuid : string) :
  assistantResponses w !! uuid = None →
  LoadAssistantResponse uuid w = (Return (err ErrResponseNotFound), w).
Proof.
  intros Hr. simpl. unfold memory.LoadAssistantResponse. by rewrite Hr.
Qed.

(** On a stored response, [AppendResponse] saves the response with one more
    update at its end, stamped with the clock. *)
Lemma AppendResponse_found (w : World) (uuid kind text : string)
  (r : AssistantResponse) :
  assistantResponses w !! uuid = Some r →
  source.AppendResponse uuid kind text w
  = (Return None,
     set_assistantResponses
       (<[UUID r := appendUpdate r {| Text := text; Timestamp := clock w;
                                      Type_ := kind |}]>
          (assistantResponses w))
       (set_clock (clock w + 1) w)).
Proof.
  intros Hr. unfold source.AppendResponse.
  rewrite bind_run, (Load_found _ _ _ Hr). reflexivity.
Qed.

Lemma AppendResponse_missing (w : World) (uuid kind text : string) :
  assistantResponses w !! uuid = None →
  source.AppendResponse uuid kind text w
  = (Return (Some (wrapError "failed to load response: "
                     ErrResponseNotFound)), w).
Proof.
  intros Hr. unfold source.AppendResponse.
  rewrite bind_run, (Load_missing _ _ Hr). reflexivity.
Qed.

Lemma UpdateStatus_found (w : World) (uuid status : string) (success : bool)
  (r : AssistantResponse) :
  assistantResponses w !! uuid = Some r →
  source.UpdateStatus uuid status success w
  = (Return None,
     set_assistantResponses
       (<[UUID r := setStatus r status success]> (assistantResponses w)) w).
Proof.
  intros Hr. unfold source.UpdateStatus.
  rewrite bind_run, (Load_found _ _ _ Hr). reflexivity.
Qed.

Lemma UpdateStatus_missing (w : World) (uuid status : string)
  (success : bool) :
  assistantResponses w !! uuid = None →
  source.UpdateStatus uuid status success w
  = (Return (Some (wrapError "failed to load response: "
                     ErrResponseNotFound)), w).
Proof.
  intros Hr. unfold source.UpdateStatus.
  rewrite bind_run, (Load_missing _ _ Hr). reflexivity.
Qed.

End store_facts.

(** ** Stages of a response *)
Section stage_facts.
Import spec models.
Context (u : string) (r0 : AssistantResponse).

Lemma endsInError_snoc (extra : list Update) (x : Update)
  (message : string) (cause : error) :
  stepError message cause →
  Type_ x = "error" → Text x = message +:+ ": " +:+ Error cause →
  endsInError (extra ++ [x]).
Proof.
  intros Hm Hk Ht. exists x, message, cause. by rewrite last_snoc.
Qed.

Lemma stage_append_working (r : AssistantResponse) (x : Update) :
  in_stage u r0 Working r → notFinal x →
  in_stage u r0 Working (appendUpdate r x).
Proof.
  intros (Hu & extra & Hall & Hresp & Hst & Hsu) Hx. split; [done |].
  exists (extra ++ [x]). simpl. rewrite Hresp, <- app_assoc.
  split_and!; try done. apply Forall_app. split; [done | by constructor].
Qed.

Lemma stage_append_error (st : stage) (r : AssistantResponse) (x : Update)
  (message : string) (cause : error) :
  st = Working ∨ st = Errored →
  in_stage u r0 st r →
  stepError message cause →
  Type_ x = "error" → Text x = message +:+ ": " +:+ Error cause →
  in_stage u r0 Errored (appendUpdate r x).
Proof.
  intros Hst Hr Hm Hk Ht.
  assert (in_stage u r0 Working r) as (Hu & extra & Hall & Hresp & Hs & Hsu).
  { destruct Hst as [-> | ->]; [done |].
    destruct Hr as (Hu & extra & Ha & Hb & Hc & Hd & _).
    split; [done |]. by exists extra. }
  split; [done |]. exists (extra ++ [x]). simpl. rewrite Hresp, <- app_assoc.
  split_and!; try done.
  - apply Forall_app. split; [done |]. constructor; [| done].
    unfold notFinal. by rewrite Hk.
  - by eapply endsInError_snoc.
Qed.

Lemma stage_append_final (r : AssistantResponse) (x : Update) :
  in_stage u r0 Working r → Type_ x = "final_response" →
  in_stage u r0 Reported (appendUpdate r x).
Proof.
  intros (Hu & extra & Hall & Hresp & Hst & Hsu) Hx. split; [done |].
  exists extra, x. simpl. rewrite Hresp, <- app_assoc. done.
Qed.

Lemma stage_fail_working (r : AssistantResponse) :
  in_stage u r0 Working r →
  in_stage u r0 (Failed false) (setStatus r "failed" false).
Proof.
  intros (Hu & extra & Hall & Hresp & Hst & Hsu). split; [done |].
  exists extra. simpl. done.
Qed.

Lemma stage_fail_errored (r : AssistantResponse) :
  in_stage u r0 Errored r →
  in_stage u r0 (Failed true) (setStatus r "failed" false).
Proof.
  intros (Hu & extra & Hall & Hresp & Hst & Hsu & Herr). split; [done |].
  exists extra. simpl. done.
Qed.

Lemma stage_complete (r : AssistantResponse) :
  in_stage u r0 Reported r →
  in_stage u r0 Completed (setStatus r "completed" true).
Proof.
  intros (Hu & extra & x & Hall & Hx & Hresp & Hst & Hsu). split; [done |].
  exists extra, x. simpl. done.
Qed.

Lemma stage_start : UUID r0 = u → in_stage u r0 Working r0.
Proof.
  intros Hu. split; [done |]. exists []. by rewrite app_nil_r.
Qed.

(** What a stage says about the record, when the run started from a
    response without a final response. *)
Lemma count_kind_app (kind : string) (r : AssistantResponse)
  (l1 l2 : list Update) :
  Response r = l1 ++ l2 →
  count_kind kind r
  = length (filter (λ x, Type_ x = kind) l1)
    + length (filter (λ x, Type_ x = kind) l2).
Proof.
  intros Hr. unfold count_kind. by rewrite Hr, filter_app, length_app.
Qed.

Lemma no_final_filter (extra : list Update) :
  Forall notFinal extra →
  filter (λ x, Type_ x = "final_response") extra = [].
Proof.
  induction 1 as [|x l Hx _ IH]; [done |].
  rewrite filter_cons. destruct (decide _) as [Heq | _]; [| done].
  by destruct Hx.
Qed.

Lemma stage_finals (st : stage) (r : AssistantResponse) :
  count_kind "final_response" r0 = 0 →
  in_stage u r0 st r →
  count_kind "final_response" r
  = match st with
    | Reported | Completed => 1
    | _ => 0
    end.
Proof.
  unfold count_kind at 1. intros H0 [Hu Hst].
  assert (filter (λ x, Type_ x = "final_response") (Response r0) = []) as Hf0
    by (by apply length_zero_iff_nil).
  destruct st; simpl in Hst.
  - destruct Hst as (extra & Hall & Hresp & _).
    rewrite (count_kind_app _ _ _ _ Hresp), Hf0, no_final_filter; done.
  - destruct Hst as (extra & Hall & Hresp & _).
    rewrite (count_kind_app _ _ _ _ Hresp), Hf0, no_final_filter; done.
  - destruct Hst as (extra & Hall & Hresp & _).
    rewrite (count_kind_app _ _ _ _ Hresp), Hf0, no_final_filter; done.
  - destruct Hst as (extra & x & Hall & Hx & Hresp & _).
    rewrite (count_kind_app _ _ _ _ Hresp), Hf0, filter_app, length_app,
      no_final_filter by done.
    rewrite filter_cons. destruct (decide _); done.
  - destruct Hst as (extra & x & Hall & Hx & Hresp & _).
    rewrite (count_kind_app _ _ _ _ Hresp), Hf0, filter_app, length_app,
      no_final_filter by done.
    rewrite filter_cons. destruct (decide _); done.
Qed.

End stage_facts.

(** ** The orchestration, stage by stage *)
Section at_facts.
Import spec models storage llminterface.
Context (u : string) (r0 : AssistantResponse) (w0 : World).

Lemma At_weaken (st : stage) (C C' : list CompletionRequest → Prop)
  (w : World) :
  (∀ cs, C cs → C' cs) → At u r0 w0 st C w → At u r0 w0 st C' w.
Proof. intros HC (Hr & Hs & Hc). split_and!; auto. Qed.

Lemma At_keeps {A : Type} (st : stage) (C : list CompletionRequest → Prop)
  (m : M A) (w : World) :
  keeps responseView m → At u r0 w0 st C w → At u r0 w0 st C (m w).2.
Proof.
  intros Hk. specialize (Hk w). unfold responseView in Hk.
  injection Hk as Ha Hs Hc. unfold At. by rewrite Ha, Hs, Hc.
Qed.

Lemma At_start (w : World) (C : list CompletionRequest → Prop) :
  assistantResponses w0 !! u = Some r0 → UUID r0 = u →
  C (completions w0) → At u r0 w0 Working C w0.
Proof.
  intros Hr Hu HC. split_and!; [| by exists [] | done].
  exists r0. split; [done |]. by apply stage_start.
Qed.

Lemma At_save (st st' : stage) (C : list CompletionRequest → Prop)
  (w w1 : World) (m : gmap string AssistantResponse) (k : string)
  (r' : AssistantResponse) :
  At u r0 w0 st C w →
  k = u → in_stage u r0 st' r' →
  saved w1 = saved w → completions w1 = completions w →
  At u r0 w0 st' C (set_assistantResponses (<[k := r']> m) w1).
Proof.
  intros (_ & (new & Hs & Hall) & Hc) -> Hst Hs1 Hc1.
  split_and!; simpl.
  - exists r'. by rewrite lookup_insert_eq.
  - exists (<[u := r']> m :: new).
    rewrite Hs1, Hs. split; [done |]. constructor; [| done].
    exists r', st'. by rewrite lookup_insert_eq.
  - by rewrite Hc1.
Qed.

(** An append that a stage allows moves the response to the next stage. *)
Lemma At_append (st st' : stage) (C : list CompletionRequest → Prop)
  (kind text : string) (w : World) :
  At u r0 w0 st C w →
  (∀ r now, in_stage u r0 st r →
     in_stage u r0 st'
       (appendUpdate r {| Text := text; Timestamp := now; Type_ := kind |})) →
  ∃ w', source.AppendResponse u kind text w = (Return None, w') ∧
        At u r0 w0 st' C w'.
Proof.
  intros HAt Hnext. pose proof HAt as ((r & Hr & Hst) & _).
  eexists. split; [by apply AppendResponse_found |].
  eapply At_save; eauto. apply Hst.
Qed.

Lemma At_status (st st' : stage) (C : list CompletionRequest → Prop)
  (status : string) (success : bool) (w : World) :
  At u r0 w0 st C w →
  (∀ r, in_stage u r0 st r → in_stage u r0 st' (setStatus r status success)) →
  ∃ w', source.UpdateStatus u status success w = (Return None, w') ∧
        At u r0 w0 st' C w'.
Proof.
  intros HAt Hnext. pose proof HAt as ((r & Hr & Hst) & _).
  eexists. split; [by apply UpdateStatus_found |].
  eapply At_save; eauto. apply Hst.
Qed.

(** A progress update leaves a response that is being worked on at that
    stage. *)
Lemma At_progress (C : list CompletionRequest → Prop) (kind text : string)
  (w : World) :
  kind ≠ "final_response" →
  At u r0 w0 Working C w →
  ∃ w', source.AppendResponse u kind text w = (Return None, w') ∧
        At u r0 w0 Working C w'.
Proof.
  intros Hk HAt. eapply At_append; [done |].
  intros r now Hr. by apply stage_append_working.
Qed.

Lemma At_call (st : stage) (C C' : list CompletionRequest → Prop)
  (req : CompletionRequest) (w : World) :
  (C (completions w) → C' (completions w ++ [req])) →
  At u r0 w0 st C w →
  At u r0 w0 st C' (set_completions (completions w ++ [req]) w).
Proof. intros HC (Hr & Hs & Hc). split_and!; auto. Qed.

End at_facts.

(** The response view is left alone by the registry and the database. *)
Section view_frame.
Import spec models storage.
Context (E : Env).

Lemma LoadDatabaseConfig_keeps_view (name : string) :
  keeps responseView (LoadDatabaseConfig name).
Proof.
  intros w. simpl. unfold memory.LoadDatabaseConfig. by case_match.
Qed.

Lemma sql_DB_Open_keeps_view (dsn : string) :
  keeps responseView (source.sql_DB_Open E dsn).
Proof. intros w. unfold source.sql_DB_Open. by case_match. Qed.

#[local] Hint Resolve LoadDatabaseConfig_keeps_view sql_DB_Open_keeps_view
  : keeps.

Lemma createConnectionPool_keeps_view (config : DatabaseConfig) :
  keeps responseView (source.createConnectionPool E config).
Proof. unfold source.createConnectionPool. eauto 20 with keeps. Qed.

#[local] Hint Resolve createConnectionPool_keeps_view : keeps.

Lemma LoadSource_keeps_view (name : string) :
  keeps responseView (source.LoadSource E name).
Proof.
  unfold source.LoadSource, source.loadAndConnect. eauto 20 with keeps.
Qed.

Lemma ExecuteQuery_keeps_view (p : source.PostgresConnector) (q : string) :
  keeps responseView (source.ExecuteQuery E p q).
Proof. unfold source.ExecuteQuery. eauto 20 with keeps. Qed.

Lemma db_QueryContext_keeps_view (h : nat) (q : string) :
  keeps responseView (source.db_QueryContext E h q).
Proof. by intros w. Qed.

End view_frame.

Section run_facts.
Import spec models storage llminterface orchestrator.
Context `{UnicodeTables} (E : Env) (o : Orchestrator).
Context (r0 : AssistantResponse) (w0 : World).

Lemma handleError_spec (st : stage) (C : list CompletionRequest → Prop)
  (message : string) (e : error) (w : World) :
  stepError message e →
  st = Working ∨ st = Errored →
  At (askID o) r0 w0 st C w →
  ∃ w', handleError o message e w = (Return tt, w') ∧
        At (askID o) r0 w0 (Failed true) C w'.
Proof.
  intros Hm Hst HAt. unfold handleError.
  destruct (At_append _ _ _ st Errored C "error"
              (message +:+ ": " +:+ Error e) w HAt) as (w1 & Heq1 & H1).
  { intros r now Hr. by eapply stage_append_error. }
  destruct (At_status _ _ _ Errored (Failed true) C "failed" false w1 H1)
    as (w2 & Heq2 & H2).
  { intros r. apply stage_fail_errored. }
  exists w2. split; [| done].
  rewrite bind_run, Heq1. cbv beta iota. by rewrite bind_run, Heq2.
Qed.

(** Fetching the schema only appends progress updates, whether it returns
    or panics. *)
Lemma GetSchema_stays (C : list CompletionRequest → Prop)
  (p : source.PostgresConnector) (w : World) :
  At (askID o) r0 w0 Working C w →
  At (askID o) r0 w0 Working C (source.GetSchema E p (askID o) w).2.
Proof.
  intros HAt. unfold source.GetSchema.
  destruct (At_progress _ _ _ C "step_output" "Fetching database schema..."
              w ltac:(done) HAt) as (w1 & Heq1 & H1).
  rewrite bind_run, Heq1. cbv beta iota. rewrite bind_run.
  pose proof (At_keeps _ _ _ _ _ _ w1
                (db_QueryContext_keeps_view E (source.db p)
                   source.getSchemaQuery) H1) as H2.
  destruct (source.db_QueryContext E (source.db p) source.getSchemaQuery w1)
    as [[[rows|e]|v] w2]; simpl in H2; cbv beta iota; [| done | done].
  unfold source.processSchemaRows.
  destruct (source.scanSchemaRows E (records rows) _ [])
    as [[schema tables]|e]; [| done].
  destruct (At_progress _ _ _ C "debug_log"
              ("Processed tables: " +:+ GoStrings.Join tables ", ")
              w2 ltac:(done) H2) as (w3 & Heq3 & H3).
  rewrite bind_run, Heq3. cbv beta iota.
  destruct (Err rows) as [e|]; [done |].
  destruct (At_progress _ _ _ C "step_output" "Schema retrieval completed"
              w3 ltac:(done) H3) as (w4 & Heq4 & H4).
  by rewrite bind_run, Heq4.
Qed.

Lemma fetchDatabaseSchema_stays (C : list CompletionRequest → Prop)
  (p : source.PostgresConnector) (w : World) :
  At (askID o) r0 w0 Working C w →
  At (askID o) r0 w0 Working C (fetchDatabaseSchema E o p w).2.
Proof.
  intros HAt. unfold fetchDatabaseSchema. rewrite bind_run.
  pose proof (GetSchema_stays C p w HAt) as H1.
  destruct (source.GetSchema E p (askID o) w) as [[[s|e]|v] w1]; done.
Qed.

Lemma connectToDatabase_stays (st : stage)
  (C : list CompletionRequest → Prop) (w : World) :
  At (askID o) r0 w0 st C w →
  At (askID o) r0 w0 st C (connectToDatabase E o w).2.
Proof.
  intros HAt. unfold connectToDatabase. rewrite bind_run.
  pose proof (At_keeps _ _ _ _ _ _ w
                (LoadSource_keeps_view E (dbConfigName o)) HAt) as H1.
  destruct (source.LoadSource E (dbConfigName o) w) as [[[c|e]|v] w1]; done.
Qed.

Lemma executeQuery_stays (C : list CompletionRequest → Prop)
  (p : source.PostgresConnector) (query : string) (w : World) :
  At (askID o) r0 w0 Working C w →
  At (askID o) r0 w0 Working C (executeQuery E o p query w).2.
Proof.
  intros HAt. unfold executeQuery. rewrite bind_run.
  pose proof (At_keeps _ _ _ _ _ _ w
                (ExecuteQuery_keeps_view E p query) HAt) as H1.
  destruct (source.ExecuteQuery E p query w) as [[[d|e]|v] w1];
    simpl in H1; cbv beta iota; [| done | done].
  destruct (At_progress _ _ _ C "step_output" "Query executed successfully"
              w1 ltac:(done) H1) as (w2 & Heq2 & H2).
  by rewrite bind_run, Heq2.
Qed.

(** The errors of the steps: each one carries the prefix of its step, or
    is made by the step. *)
Lemma AppendResponse_error (uuid kind text : string) (w : World)
  (e : error) :
  (source.AppendResponse uuid kind text w).1 = Return (Some e) →
  (∃ e', e = wrapError "failed to load response: " e') ∨
  (∃ e', e = wrapError "failed to save updated response: " e').
Proof.
  unfold source.AppendResponse. rewrite bind_run.
  destruct (LoadAssistantResponse uuid w) as [[[r|e0]|v] w1];
    cbv beta iota; [| intros [= <-]; eauto | done].
  rewrite bind_run. unfold time_Now. cbv beta iota zeta. rewrite bind_run.
  destruct (SaveAssistantResponse _ _) as [[[e0|]|v] w2]; cbv beta iota;
    [intros [= <-]; eauto | done | done].
Qed.

Lemma connectToDatabase_error (w : World) (e : error) :
  (connectToDatabase E o w).1 = Return (err e) →
  stepError "Failed to connect to database" e.
Proof.
  unfold connectToDatabase. rewrite bind_run.
  destruct (source.LoadSource E (dbConfigName o) w) as [[[c|e0]|v] w1];
    cbv beta iota; [done | | done].
  intros [= <-]. right. left. eauto.
Qed.

Lemma fetchDatabaseSchema_error (p : source.PostgresConnector) (w : World)
  (e : error) :
  (fetchDatabaseSchema E o p w).1 = Return (err e) →
  stepError "Failed to fetch database schema" e.
Proof.
  unfold fetchDatabaseSchema. rewrite bind_run.
  destruct (source.GetSchema E p (askID o) w) as [[[s|e0]|v] w1];
    cbv beta iota; [done | | done].
  intros [= <-]. do 2 right. left. eauto.
Qed.

Lemma generateSQLQuery_error (schema question : string) (w : World)
  (e : error) :
  (generateSQLQuery E o schema question w).1 = Return (err e) →
  stepError "Failed to generate SQL query" e.
Proof.
  unfold generateSQLQuery. rewrite bind_run.
  destruct (source.AppendResponse (askID o) "step_output" _ w)
    as [[a|v] w1]; cbv beta iota zeta; [| done].
  rewrite bind_run. unfold provider_Complete at 1.
  destruct (Complete E (provider o) _) as [c|v]; cbv beta iota; [| done].
  rewrite bind_run. unfold lift at 1.
  destruct (completionContent c) as [[content|e0]|v]; cbv beta iota;
    [| intros [= <-]; do 3 right; left; split; [done |]; eauto | done].
  rewrite bind_run. unfold lift at 1.
  destruct (prompt.ExtractResponse "sql" content) as [query|v];
    cbv beta iota; [| done].
  destruct (decide (query = EmptyString));
    [intros [= <-]; do 3 right; left; split; [done |]; auto |].
  rewrite bind_run.
  match goal with
  | |- context [source.AppendResponse (askID o) "step_output" query ?w'] =>
      pose proof (AppendResponse_error (askID o) "step_output" query w')
        as Happ
  end.
  destruct (source.AppendResponse (askID o) "step_output" query _)
    as [[[e0|]|v] w2]; cbv beta iota; [| done | done].
  intros [= <-]. do 3 right. left. split; [done |].
  destruct (Happ e0 eq_refl) as [He | He]; auto.
Qed.

Lemma executeQuery_error (p : source.PostgresConnector) (query : string)
  (w : World) (e : error) :
  (executeQuery E o p query w).1 = Return (err e) →
  stepError "Failed to execute query" e.
Proof.
  unfold executeQuery. rewrite bind_run.
  destruct (source.ExecuteQuery E p query w) as [[[d|e0]|v] w1];
    cbv beta iota; [| intros [= <-]; do 4 right; left; eauto | done].
  rewrite bind_run.
  by destruct (source.AppendResponse (askID o) "step_output" _ w1)
    as [[a|v] w2].
Qed.

Lemma generateFinalResponse_error (question : string)
  (queryResult : QueryResult) (w : World) (e : error) :
  (generateFinalResponse E o question queryResult w).1 = Return (Some e) →
  stepError "Failed to generate final response" e.
Proof.
  unfold generateFinalResponse.
  destruct (json_Marshal E (Data queryResult)) as [resultJSON|e0];
    [| intros [= <-]; do 5 right; split; [done |]; eauto].
  cbv zeta. rewrite bind_run.
  destruct (source.AppendResponse (askID o) "step_output" _ w)
    as [[a|v] w1]; cbv beta iota; [| done].
  rewrite bind_run. unfold provider_Complete at 1.
  destruct (Complete E (provider o) _) as [c|v]; cbv beta iota; [| done].
  rewrite bind_run. unfold lift at 1.
  destruct (completionContent c) as [[content|e0]|v]; cbv beta iota;
    [| intros [= <-]; do 5 right; split; [done |]; eauto | done].
  rewrite bind_run. unfold lift at 1.
  destruct (prompt.ExtractResponse "markdown" content) as [markdown|v];
    cbv beta iota; [| done].
  destruct (decide (markdown = EmptyString));
    [intros [= <-]; do 5 right; split; [done |]; auto |].
  rewrite bind_run.
  destruct (source.AppendResponse (askID o) "final_response" markdown _)
    as [[[e0|]|v] w2]; cbv beta iota; [| done | done].
  intros [= <-]. do 5 right. split; [done |]. eauto 10.
Qed.

End run_facts.

Section llm_facts.
Import spec models storage llminterface orchestrator.
Context `{UnicodeTables} (E : Env) (o : Orchestrator).
Context (r0 : AssistantResponse) (w0 : World).

Lemma firstCallFull_one (req : CompletionRequest)
  (cs : list CompletionRequest) :
  ¬ emptyExtraction E o req →
  cs = completions w0 ++ [req] → firstCallFull E o w0 cs.
Proof. intros Hne ->. by exists req, []. Qed.

Lemma firstCallFull_more (req : CompletionRequest)
  (cs : list CompletionRequest) :
  firstCallFull E o w0 cs → firstCallFull E o w0 (cs ++ [req]).
Proof.
  intros (req1 & rest & -> & Hne). exists req1, (rest ++ [req]).
  split; [| done]. by rewrite <- app_assoc.
Qed.

(** The SQL generation step makes the first request of the run.  It returns
    a query only if the answer held a non-empty [sql] extraction, and it
    panics only on an answer that is no text of empty extraction. *)
Lemma generateSQLQuery_spec (schema question : string) (w : World) :
  At (askID o) r0 w0 Working (noCall w0) w →
  match generateSQLQuery E o schema question w with
  | (Return (err _), w') => At (askID o) r0 w0 Working anyCalls w'
  | (Return (ok _), w') =>
      At (askID o) r0 w0 Working (firstCallFull E o w0) w'
  | (Panic _, w') => At (askID o) r0 w0 Working (firstCallFull E o w0) w'
  end.
Proof.
  intros HAt. unfold generateSQLQuery.
  destruct (At_progress _ _ _ (noCall w0) "step_output"
              "Generating SQL query... please wait" w ltac:(done) HAt)
    as (w1 & Heq1 & H1).
  rewrite bind_run, Heq1. cbv beta iota zeta. rewrite bind_run.
  match goal with
  | |- context [provider_Complete E o ?r] => set (req := r)
  end.
  unfold provider_Complete.
  assert (At (askID o) r0 w0 Working (λ cs, cs = completions w0 ++ [req])
            (set_completions (completions w1 ++ [req]) w1)) as H2.
  { eapply At_call; [| exact H1]. unfold noCall. by intros ->. }
  set (w2 := set_completions (completions w1 ++ [req]) w1) in *.
  assert (∀ w', At (askID o) r0 w0 Working
                  (λ cs, cs = completions w0 ++ [req]) w' →
                ¬ emptyExtraction E o req →
                At (askID o) r0 w0 Working (firstCallFull E o w0) w')
    as Hfull.
  { intros w' HAt' Hne. eapply At_weaken; [| exact HAt'].
    intros cs. by apply firstCallFull_one. }
  destruct (Complete E (provider o) req) as [[c e]|v] eqn:HC;
    cbv beta iota.
  2:{ apply Hfull; [done |]. intros (c & Hc & _). congruence. }
  rewrite bind_run. unfold lift at 1. cbv beta iota.
  destruct e as [e|]; [destruct c |]; simpl.
  1,2: by (eapply At_weaken; [| exact H2]).
  destruct c as [c|]; simpl.
  2:{ apply Hfull; [done |]. intros (c & Hc & _). congruence. }
  rewrite bind_run. unfold lift at 1. cbv beta iota.
  destruct (prompt.ExtractResponse "sql" (ResponseContent c))
    as [query|v] eqn:HX; cbv beta iota.
  2:{ apply Hfull; [done |]. intros (c' & Hc & Hx). congruence. }
  destruct (decide (query = EmptyString)) as [-> | Hq].
  { by (eapply At_weaken; [| exact H2]). }
  destruct (At_progress _ _ _ (λ cs, cs = completions w0 ++ [req])
              "step_output" query w2 ltac:(done) H2) as (w3 & Heq3 & H3).
  rewrite bind_run, Heq3. cbv beta iota. simpl.
  apply Hfull; [done |]. intros (c' & Hc & Hx).
  assert (c' = c) as -> by congruence. congruence.
Qed.

(** The report step appends the final response as its last act, and only
    when it returns no error. *)
Lemma generateFinalResponse_spec (question : string)
  (queryResult : QueryResult) (w : World) :
  At (askID o) r0 w0 Working (firstCallFull E o w0) w →
  match generateFinalResponse E o question queryResult w with
  | (Return None, w') => At (askID o) r0 w0 Reported (firstCallFull E o w0) w'
  | (_, w') => At (askID o) r0 w0 Working (firstCallFull E o w0) w'
  end.
Proof.
  intros HAt. unfold generateFinalResponse.
  destruct (json_Marshal E (Data queryResult)) as [resultJSON|e]; [| done].
  cbv beta iota zeta.
  destruct (At_progress _ _ _ (firstCallFull E o w0) "step_output"
              "Generating report..." w ltac:(done) HAt)
    as (w1 & Heq1 & H1).
  rewrite bind_run, Heq1. cbv beta iota. rewrite bind_run.
  match goal with
  | |- context [provider_Complete E o ?r] => set (req := r)
  end.
  unfold provider_Complete.
  assert (At (askID o) r0 w0 Working (firstCallFull E o w0)
            (set_completions (completions w1 ++ [req]) w1)) as H2.
  { eapply At_call; [| exact H1]. apply firstCallFull_more. }
  set (w2 := set_completions (completions w1 ++ [req]) w1) in *.
  destruct (Complete E (provider o) req) as [[c e]|v] eqn:HC;
    cbv beta iota; [| done].
  rewrite bind_run. unfold lift at 1. cbv beta iota.
  destruct e as [e|]; [by destruct c |].
  destruct c as [c|]; simpl; [| done].
  rewrite bind_run. unfold lift at 1. cbv beta iota.
  destruct (prompt.ExtractResponse "markdown" (ResponseContent c))
    as [markdown|v] eqn:HX; cbv beta iota; [| done].
  destruct (decide (markdown = EmptyString)) as [-> | Hq]; [done |].
  destruct (At_append _ _ _ Working Reported (firstCallFull E o w0)
              "final_response" markdown w2 H2) as (w3 & Heq3 & H3).
  { intros r now Hr. by apply stage_append_final. }
  by rewrite bind_run, Heq3.
Qed.

End llm_facts.

Section steps_facts.
Import spec models storage llminterface orchestrator.
Context `{UnicodeTables} (E : Env) (o : Orchestrator).
Context (r0 : AssistantResponse) (w0 : World).

(** A step that failed with an error is answered by [handleError], which
    leaves the response failed behind an error update. *)
Lemma failed_branch (st : stage) (C : list CompletionRequest → Prop)
  (message : string) (e : error) (w : World) :
  stepError message e →
  st = Working ∨ st = Errored →
  At (askID o) r0 w0 st C w →
  match handleError o message e w with
  | (Return _, w') =>
      At (askID o) r0 w0 (Failed true) anyCalls w' ∨
      At (askID o) r0 w0 Completed (firstCallFull E o w0) w'
  | (Panic _, w') => At (askID o) r0 w0 Working (noEmptyFirst E o w0) w'
  end.
Proof.
  intros Hm Hst HAt.
  destruct (handleError_spec o r0 w0 st C message e w Hm Hst HAt)
    as (w' & -> & H').
  left. by eapply At_weaken; [| exact H'].
Qed.

(** The steps of a run, from a stored response on which no request was made
    yet: they end with the response failed behind an error update, or
    completed after a first answer of non-empty extraction; a panic leaves
    the response as it was being worked on. *)
Lemma steps_spec (w : World) :
  At (askID o) r0 w0 Working (noCall w0) w →
  match steps E o w with
  | (Return _, w') =>
      At (askID o) r0 w0 (Failed true) anyCalls w' ∨
      At (askID o) r0 w0 Completed (firstCallFull E o w0) w'
  | (Panic _, w') => At (askID o) r0 w0 Working (noEmptyFirst E o w0) w'
  end.
Proof.
  intros HAt. pose proof HAt as ((r & Hr & Hst) & _).
  assert (∀ w', At (askID o) r0 w0 Working (noCall w0) w' →
                At (askID o) r0 w0 Working (noEmptyFirst E o w0) w')
    as Hnone.
  { intros w'. apply At_weaken. intros cs Hcs. by left. }
  assert (∀ w', At (askID o) r0 w0 Working (firstCallFull E o w0) w' →
                At (askID o) r0 w0 Working (noEmptyFirst E o w0) w')
    as Hfull.
  { intros w'. apply At_weaken. intros cs Hcs. by right. }
  unfold steps. rewrite bind_run.
  unfold loadAssistantResponse. rewrite bind_run, (Load_found _ _ _ Hr).
  cbv beta iota.
  change ((mret (ok r) : M _) w) with (Return (ok r), w). cbv beta iota.
  (* Step 2 *)
  rewrite bind_run.
  pose proof (connectToDatabase_stays E o r0 w0 Working (noCall w0) w HAt)
    as H1.
  pose proof (connectToDatabase_error E o w) as Hcause1.
  destruct (connectToDatabase E o w) as [[[db|e]|v] w1]; simpl in H1;
    cbv beta iota; [| | by apply Hnone].
  2:{ destruct (At_append _ _ _ Working Errored (noCall w0) "error"
                  ("Failed to connect to database: " +:+ Error e) w1 H1)
        as (w2 & Heq2 & H2).
      { intros r' now Hr'.
        eapply (stage_append_error _ _ Working _ _
                  "Failed to connect to database" e);
          [auto | done | by apply Hcause1 | done | done]. }
      rewrite bind_run, Heq2. cbv beta iota.
      apply (failed_branch Errored (noCall w0));
        [by apply Hcause1 | auto | done]. }
  (* Step 3 *)
  rewrite bind_run.
  pose proof (fetchDatabaseSchema_stays E o r0 w0 (noCall w0) db w1 H1)
    as H2.
  pose proof (fetchDatabaseSchema_error E o db w1) as Hcause2.
  destruct (fetchDatabaseSchema E o db w1) as [[[schema|e]|v] w2];
    simpl in H2; cbv beta iota; [| | by apply Hnone].
  2:{ apply (failed_branch Working (noCall w0));
        [by apply Hcause2 | auto | done]. }
  (* Step 4 *)
  rewrite bind_run.
  pose proof (generateSQLQuery_spec E o r0 w0 schema (Question r) w2 H2)
    as H3.
  pose proof (generateSQLQuery_error E o schema (Question r) w2) as Hcause3.
  destruct (generateSQLQuery E o schema (Question r) w2)
    as [[[query|e]|v] w3]; cbv beta iota; [| | by apply Hfull].
  2:{ apply (failed_branch Working anyCalls);
        [by apply Hcause3 | auto | done]. }
  (* Step 5 *)
  rewrite bind_run.
  pose proof (executeQuery_stays E o r0 w0 (firstCallFull E o w0) db query
                w3 H3) as H4.
  pose proof (executeQuery_error E o db query w3) as Hcause4.
  destruct (executeQuery E o db query w3) as [[[queryResult|e]|v] w4];
    simpl in H4; cbv beta iota; [| | by apply Hfull].
  2:{ apply (failed_branch Working (firstCallFull E o w0));
        [by apply Hcause4 | auto | done]. }
  (* Step 6 *)
  rewrite bind_run.
  pose proof (generateFinalResponse_spec E o r0 w0 (Question r) queryResult
                w4 H4) as H5.
  pose proof (generateFinalResponse_error E o (Question r) queryResult w4)
    as Hcause5.
  destruct (generateFinalResponse E o (Question r) queryResult w4)
    as [[[e|]|v] w5]; cbv beta iota; [| | by apply Hfull].
  { apply (failed_branch Working (firstCallFull E o w0));
      [by apply Hcause5 | auto | done]. }
  destruct (At_status _ _ _ Reported Completed (firstCallFull E o w0)
              "completed" true w5 H5) as (w6 & Heq6 & H6).
  { intros r'. apply stage_complete. }
  rewrite bind_run, Heq6. cbv beta iota. by right.
Qed.

(** [Run] always returns: a panic of the steps is recovered, and answered by
    setting the status alone. *)
Lemma Run_spec (w : World) :
  At (askID o) r0 w0 Working (noCall w0) w →
  ∃ w', Run E o w = (Return tt, w') ∧
    match (steps E o w).1 with
    | Return _ =>
        At (askID o) r0 w0 (Failed true) anyCalls w' ∨
        At (askID o) r0 w0 Completed (firstCallFull E o w0) w'
    | Panic _ => At (askID o) r0 w0 (Failed false) (noEmptyFirst E o w0) w'
    end.
Proof.
  intros HAt. pose proof (steps_spec w HAt) as Hs.
  unfold Run, recover.
  destruct (steps E o w) as [[[]|v] w1]; simpl.
  - by exists w1.
  - destruct (At_status _ _ _ Working (Failed false) (noEmptyFirst E o w0)
                "failed" false w1 Hs) as (w2 & Heq2 & H2).
    { intros r'. apply stage_fail_working. }
    exists w2. split; [| done]. by rewrite bind_run, Heq2.
Qed.

End steps_facts.

(** ** The background task *)
Section task_facts.
Import spec models storage llminterface orchestrator handlers.
Context `{UnicodeTables} (E : Env).

Lemma NewOrchestrator_askID (provider : string) (llmConfig : LLMConfig)
  (dbConfigName askID : string) (orc : Orchestrator) :
  NewOrchestrator E provider llmConfig dbConfigName askID = ok orc →
  orchestrator.askID orc = askID.
Proof.
  unfold NewOrchestrator. intros Hnew.
  repeat case_match; try discriminate. by injection Hnew as <-.
Qed.

(** [handleOrchestrationError] saves a new record under the identifier: the
    status, one error update, and no question. *)
Lemma handleOrchestrationError_run (uuid message : string) (e : error)
  (w : World) :
  handleOrchestrationError uuid message e w
  = (Return tt,
     set_assistantResponses
       (<[uuid := {| UUID := uuid; Question := EmptyString;
                     Success := false; Status := "failed";
                     Response := [ {| Text := message +:+ ": " +:+ Error e;
                                      Timestamp := clock w;
                                      Type_ := "error" |} ] |}]>
          (assistantResponses w))
       (set_clock (clock w + 1) w)).
Proof. reflexivity. Qed.

End task_facts.

(** ** What a stage tells of status and updates *)
Section stage_readings.
Import spec models.
Context (u : string) (r0 : AssistantResponse).

Lemma stage_completed_iff (st : stage) (r : AssistantResponse) :
  Status r0 = "in_progress" → in_stage u r0 st r →
  (Status r = "completed" ∧ Success r = true) ↔ st = Completed.
Proof.
  intros H0 [_ Hst]. destruct st; simpl in Hst.
  - destruct Hst as (? & _ & _ & Hs & _). rewrite Hs, H0.
    split; [by intros [? _] | done].
  - destruct Hst as (? & _ & _ & Hs & _). rewrite Hs, H0.
    split; [by intros [? _] | done].
  - destruct Hst as (? & _ & _ & Hs & _). rewrite Hs.
    split; [by intros [? _] | done].
  - destruct Hst as (? & ? & _ & _ & _ & Hs & _). rewrite Hs, H0.
    split; [by intros [? _] | done].
  - destruct Hst as (? & ? & _ & _ & _ & Hs & Hsu). by rewrite Hs, Hsu.
Qed.

Lemma stage_finalWhenCompleted (st : stage) (r : AssistantResponse) :
  Status r0 = "in_progress" → count_kind "final_response" r0 = 0 →
  in_stage u r0 st r → finalWhenCompleted r.
Proof.
  intros H0 Hc Hst. unfold finalWhenCompleted.
  rewrite (stage_finals u r0 st r Hc Hst).
  rewrite (stage_completed_iff st r H0 Hst).
  destruct st; split; try lia; try done.
Qed.

Lemma stage_finalIffCompleted (st : stage) (r : AssistantResponse) :
  Status r0 = "in_progress" → count_kind "final_response" r0 = 0 →
  st ≠ Working → st ≠ Errored → st ≠ Reported →
  in_stage u r0 st r → finalIffCompleted r.
Proof.
  intros H0 Hc H1 H2 H3 Hst. unfold finalIffCompleted.
  rewrite (stage_finals u r0 st r Hc Hst).
  rewrite (stage_completed_iff st r H0 Hst).
  destruct st; try done.
Qed.

Lemma endsInError_counts (r : AssistantResponse) (l extra : list Update) :
  Response r = l ++ extra → endsInError extra → 1 ≤ count_kind "error" r.
Proof.
  intros Hr (x & _ & _ & Hlast & _ & Hk & _).
  unfold count_kind. rewrite Hr, filter_app, length_app.
  apply last_Some in Hlast as [l' ->].
  rewrite filter_app, length_app, filter_cons.
  destruct (decide _) as [_ | Hne]; [simpl; lia | done].
Qed.

End stage_readings.

(** ** The PostgreSQL storage with a server that answers *)
Section reliable_storage.
Import spec models storage llminterface orchestrator.
Context `{UnicodeTables} (E : Env) (S : postgres.Server).
Hypothesis answers : postgres.reliable S.

Lemma SaveAssistantResponse_reliable (response : AssistantResponse)
  (w : World) :
  postgres.SaveAssistantResponse S response w
  = memory.SaveAssistantResponse response w.
Proof.
  destruct answers as (Hm & Hx & _).
  unfold postgres.SaveAssistantResponse. by rewrite Hm, Hx.
Qed.

Lemma LoadAssistantResponse_reliable (uuid : string) (w : World) :
  postgres.LoadAssistantResponse S uuid w
  = memory.LoadAssistantResponse uuid w.
Proof.
  destruct answers as (_ & _ & Hs & Hu & _).
  unfold postgres.LoadAssistantResponse, memory.LoadAssistantResponse.
  rewrite Hs. simpl.
  destruct (assistantResponses w !! uuid) as [response|]; simpl.
  - by rewrite Hu.
  - done.
Qed.

Lemma LoadDatabaseConfig_reliable (name : string) (w : World) :
  postgres.LoadDatabaseConfig S name w = memory.LoadDatabaseConfig name w.
Proof.
  destruct answers as (_ & _ & _ & _ & Hs & Hu & _).
  unfold postgres.LoadDatabaseConfig, memory.LoadDatabaseConfig.
  rewrite Hs. simpl.
  destruct (configs w !! name) as [config|]; simpl.
  - by rewrite Hu.
  - done.
Qed.

(** With such a server the storage reads and writes the responses and the
    database configurations as the in-memory storage does. *)
Lemma PostgresStorage_reliable :
  postgres.PostgresStorage S
  = {| SaveAssistantResponse := memory.SaveAssistantResponse;
       LoadAssistantResponse := memory.LoadAssistantResponse;
       LoadDatabaseConfig := memory.LoadDatabaseConfig;
       LoadLLMConfig := postgres.LoadLLMConfig S |}.
Proof.
  unfold postgres.PostgresStorage. f_equal.
  - extensionality response. extensionality w.
    apply SaveAssistantResponse_reliable.
  - extensionality uuid. extensionality w.
    apply LoadAssistantResponse_reliable.
  - extensionality name. extensionality w.
    apply LoadDatabaseConfig_reliable.
Qed.


Lemma Run_reliable (o : Orchestrator) : wired.Run E S o = Run E o.
Proof. unfold wired.Run. by rewrite PostgresStorage_reliable. Qed.

Lemma LoadSource_reliable (name : string) :
  wired.LoadSource E S name = source.LoadSource E name.
Proof. unfold wired.LoadSource. by rewrite PostgresStorage_reliable. Qed.

End reliable_storage.

(** ** Claims on the orchestration *)
Section orchestration_claims.
Import spec models storage llminterface orchestrator.
Context `{UnicodeTables} (E : Env) (S : postgres.Server).


(** C4, as amended: over a storage whose server answers every call
    without an error, every content the response store goes through during
    a run holds, for the request, at most one final response, and exactly
    one when the status is completed and the success flag is set; when the
    run has ended, the response holds exactly one final response if and
    only if it is completed with success. *)
Theorem one_final_response_when_completed (o : Orchestrator) (w : World)
  (r0 : AssistantResponse) :
  postgres.reliable S →
  assistantResponses w !! askID o = Some r0 → UUID r0 = askID o →
  Status r0 = "in_progress" → count_kind "final_response" r0 = 0 →
  wired.keepsOneFinal E S o w.
Proof.
  intros Hrel Hr Hu Hs Hc. unfold wired.keepsOneFinal.
  rewrite (Run_reliable E S Hrel).
  assert (At (askID o) r0 w Working (noCall w) w) as HAt
    by by apply At_start.
  destruct (Run_spec E o r0 w w HAt) as (w' & -> & Hpost). simpl.
  assert (∃ st C, At (askID o) r0 w st C w' ∧
                  st ≠ Working ∧ st ≠ Errored ∧ st ≠ Reported)
    as (st & C & ((r' & Hr' & Hst) & (new & Hsaved & Hall) & _) & Hne).
  { destruct (steps E o w).1 as [[]|v];
      [destruct Hpost as [Hpost | Hpost] |]; eauto 10. }
  exists new, r'. split_and!; try done.
  - eapply Forall_impl; [exact Hall |].
    intros m (r & st' & Hm & Hst'). exists r. split; [done |].
    by eapply stage_finalWhenCompleted.
  - destruct Hne as (H1 & H2 & H3).
    by eapply (stage_finalIffCompleted (askID o) r0 st).
Qed.

(** C5, as amended: over a storage whose server answers every call
    without an error, a run whose first request to the LLM is answered with
    a text from which the extraction of the sql tag returns empty, returns
    and leaves its response failed, without success, with at least one
    error update and without a final response. *)
Theorem empty_extraction_fails_run (o : Orchestrator) (w : World)
  (r0 : AssistantResponse) (req : CompletionRequest)
  (rest : list CompletionRequest) (c : CompletionResponse) :
  postgres.reliable S →
  assistantResponses w !! askID o = Some r0 → UUID r0 = askID o →
  count_kind "final_response" r0 = 0 →
  completions (wired.Run E S o w).2 = completions w ++ req :: rest →
  Complete E (provider o) req = Return (Some c, None) →
  prompt.ExtractResponse "sql" (ResponseContent c) = Return EmptyString →
  wired.failsWithError E S o w.
Proof.
  intros Hrel Hr Hu Hc Hcalls Hanswer Hempty. unfold wired.failsWithError.
  rewrite (Run_reliable E S Hrel) in *.
  assert (emptyExtraction E o req) as Hreq by by exists c.
  assert (At (askID o) r0 w Working (noCall w) w) as HAt
    by by apply At_start.
  destruct (Run_spec E o r0 w w HAt) as (w' & Heq & Hpost).
  rewrite Heq in Hcalls. simpl in Hcalls.
  assert (∀ st, At (askID o) r0 w st (firstCallFull E o w) w' → False)
    as Hfull.
  { intros st (_ & _ & (req' & rest' & Hcs & Hne)).
    rewrite Hcalls in Hcs. apply app_inv_head in Hcs.
    injection Hcs as -> _. done. }
  assert (∀ st, At (askID o) r0 w st (noEmptyFirst E o w) w' → False)
    as Hnone.
  { intros st (Ha & Hb & [Hno | Hf]).
    - unfold noCall in Hno. rewrite Hcalls in Hno.
      apply (f_equal length) in Hno. rewrite length_app in Hno.
      simpl in Hno. lia.
    - by apply (Hfull st). }
  destruct (steps E o w).1 as [[]|v];
    [destruct Hpost as [Hpost | Hpost] |];
    [| by destruct (Hfull _ Hpost) | by destruct (Hnone _ Hpost)].
  destruct Hpost as ((r' & Hr' & Hst) & _).
  exists w', r'. split_and!; try done.
  - by destruct Hst as (_ & extra & _ & _ & Hs & _).
  - by destruct Hst as (_ & extra & _ & _ & _ & Hsu & _).
  - destruct Hst as (_ & extra & _ & Hresp & _ & _ & Herr).
    eapply endsInError_counts; eauto.
  - by rewrite (stage_finals _ _ _ _ Hc Hst).
Qed.

End orchestration_claims.

(** ** The scenarios, run *)
Section scenarios.
Import spec models storage llminterface scenario.
#[local] Existing Instance asciiOnly.

Lemma accepted_holds_initial :
  assistantResponses accepted !! "u1" = Some initial.
Proof. vm_compute. reflexivity. Qed.

Lemma wired_accepted_holds_initial :
  assistantResponses wired.accepted !! "u1" = Some initial.
Proof. vm_compute. reflexivity. Qed.

Lemma steady_reliable : postgres.reliable postgres.steady.
Proof. by repeat split. Qed.

(** Over the PostgreSQL storage the background task of the accepted
    request loads a pointer to the stored LLM configuration, creates the
    orchestrator [orc] and runs it. *)
Lemma wired_task_runs_orc :
  wired.backgroundTask fine postgres.steady ask "u1" wired.accepted
  = wired.Run fine postgres.steady orc wired.accepted ∧
  wired.backgroundTask untagged postgres.steady ask "u1" wired.accepted
  = wired.Run untagged postgres.steady orc wired.accepted ∧
  wired.backgroundTask reversed postgres.steady ask "u1" wired.accepted
  = wired.Run reversed postgres.steady orc wired.accepted.
Proof. split_and!; vm_compute; reflexivity. Qed.



(** The witness of [one_final_response_when_completed]: the accepted
    request, with an LLM that answers well. *)
Lemma one_final_response_when_completed_witness :
  postgres.reliable postgres.steady ∧
  assistantResponses wired.accepted !! "u1" = Some initial ∧
  UUID initial = "u1" ∧ Status initial = "in_progress" ∧
  count_kind "final_response" initial = 0 ∧
  wired.keepsOneFinal fine postgres.steady orc wired.accepted.
Proof.
  split_and!;
    [apply steady_reliable | apply wired_accepted_holds_initial
    | reflexivity.. |].
  apply (one_final_response_when_completed fine postgres.steady orc
           wired.accepted initial);
    [apply steady_reliable | apply wired_accepted_holds_initial
    | reflexivity..].
Defined.

(** C4, as stated, fails between the append of the final response and the
    update of the status: the content of the store before the last one of a
    successful run holds one final response in a response that is still in
    progress.  Where the server of the storage fails the write of the
    completed status, the response stays so when the run has ended: [Run]
    drops the error of its last status update. *)
Lemma final_response_while_in_progress :
  (λ r, (Status r, Success r, count_kind "final_response" r))
    <$> (saved (wired.Run fine postgres.steady orc wired.accepted).2 !! 1
         ≫= (.!! "u1"))
  = Some ("in_progress", true, 1) ∧
  (λ r, (Status r, Success r, count_kind "final_response" r))
    <$> assistantResponses
          (wired.Run fine postgres.steady orc wired.accepted).2 !! "u1"
  = Some ("completed", true, 1) ∧
  (λ r, (Status r, Success r, count_kind "final_response" r))
    <$> assistantResponses
          (wired.Run fine postgres.losingCompletion orc
             wired.accepted).2 !! "u1"
  = Some ("in_progress", true, 1).
Proof. vm_compute. done. Qed.

(** The witness of [empty_extraction_fails_run]: the LLM answers the first
    request with "no tags here". *)
Lemma empty_extraction_fails_run_witness :
  postgres.reliable postgres.steady ∧
  prompt.ExtractResponse "sql" "no tags here" = Return EmptyString ∧
  length (completions
            (wired.Run untagged postgres.steady orc wired.accepted).2) = 1 ∧
  wired.failsWithError untagged postgres.steady orc wired.accepted.
Proof.
  split_and!;
    [apply steady_reliable | reflexivity | vm_compute; reflexivity |].
  eapply (empty_extraction_fails_run untagged postgres.steady orc
            wired.accepted initial _ []
            {| ResponseContent := "no tags here" |});
    [apply steady_reliable | apply wired_accepted_holds_initial
    | reflexivity | reflexivity
    | vm_compute; reflexivity | reflexivity | reflexivity].
Defined.

(** C5, as stated, fails on a storage that fails: the LLM answers the
    first request of the run with "no tags here", from which the extraction
    of the sql tag returns empty, and the server of the storage refuses
    every write; the run returns with the response still in progress and no
    error update in it. *)
Lemma empty_extraction_left_in_progress :
  (λ req, Complete untagged (orchestrator.provider orc) req)
    <$> head (completions
                (wired.Run untagged postgres.readOnly orc wired.accepted).2)
  = Some (reply "no tags here") ∧
  prompt.ExtractResponse "sql" "no tags here" = Return EmptyString ∧
  (wired.Run untagged postgres.readOnly orc wired.accepted).1 = Return tt ∧
  (λ r, (Status r, Success r, count_kind "error" r))
    <$> assistantResponses
          (wired.Run untagged postgres.readOnly orc wired.accepted).2 !! "u1"
  = Some ("in_progress", true, 0).
Proof. vm_compute. done. Qed.

(** C1, at a failing input: the request names an LLM configuration that is
    not stored.  The background task answers through
    [handleOrchestrationError], which saves a new record: the update that
    the response held is gone, and so is its question. *)
Theorem error_record_drops_updates :
  Response <$> assistantResponses accepted !! "u1"
  = Some [ {| Text := "Processing your request..."; Timestamp := 0;
              Type_ := "step_output" |} ] ∧
  assistantResponses
    (handlers.backgroundTask fine askUnknown "u1" accepted).2 !! "u1"
  = Some {| UUID := "u1"; Question := EmptyString; Success := false;
            Status := "failed";
            Response :=
              [ {| Text := "LLM configuration 'missing' not found for provider 'openai': database configuration not found";
                   Timestamp := 1; Type_ := "error" |} ] |}.
Proof. vm_compute. done. Qed.

(** C2, at a failing input: the LLM answers the SQL request with a
    statement that drops a table.  [ValidateQuery] rejects that statement,
    and the run hands it to the database all the same, and completes. *)
Theorem rejected_query_is_executed :
  prompt.ValidateQuery "drop table users"
  = Some (errorString "query contains forbidden keyword: drop") ∧
  queries (runTask dropping).2
  = [source.getSchemaQuery; "drop table users"] ∧
  Status <$> assistantResponses (runTask dropping).2 !! "u1"
  = Some "completed".
Proof. vm_compute. done. Qed.

End scenarios.

(** ** The source registry *)
Section registry_claims.
Import spec models storage source.
Context (E : Env).

Lemma LoadDatabaseConfig_found (w : World) (name : string)
  (config : DatabaseConfig) :
  configs w !! name = Some config →
  LoadDatabaseConfig name w = (Return (ok config), w).
Proof.
  intros Hc. simpl. unfold memory.LoadDatabaseConfig. by rewrite Hc.
Qed.

Lemma LoadDatabaseConfig_missing (w : World) (name : string) :
  configs w !! name = None →
  LoadDatabaseConfig name w = (Return (err ErrConfigNotFound), w).
Proof.
  intros Hc. simpl. unfold memory.LoadDatabaseConfig. by rewrite Hc.
Qed.

(** Without a cached pool, [LoadSource] is the load-and-connect path. *)
Lemma LoadSource_not_cached (name : string) (w : World) :
  pools w !! name = None →
  LoadSource E name w = loadAndConnect E name w.
Proof.
  intros Hp. unfold LoadSource. rewrite bind_run.
  unfold lookup_pool. by rewrite Hp.
Qed.

(** The pool that [createConnectionPool] opens, before its first ping. *)
Lemma createConnectionPool_opened (config : DatabaseConfig) (w : World) :
  sql_Open E (dataSourceName config) = None →
  createConnectionPool E config w
  = match Ping E (nextDB w) with
    | Some e =>
        (Return (err (wrapError "failed to ping database: " e)),
         set_dbs
           (<[nextDB w := {| DSN := dataSourceName config;
                             MaxOpenConns := 25; MaxIdleConns := 5;
                             ConnMaxLifetime := time_Hour;
                             Closed := true |}]> (dbs w))
           (S (nextDB w)) w)
    | None =>
        (Return (ok (nextDB w)),
         set_dbs
           (<[nextDB w := {| DSN := dataSourceName config;
                             MaxOpenConns := 25; MaxIdleConns := 5;
                             ConnMaxLifetime := time_Hour;
                             Closed := false |}]> (dbs w))
           (S (nextDB w)) w)
    end.
Proof.
  intros Hopen. unfold createConnectionPool. cbv zeta.
  rewrite bind_run. unfold sql_DB_Open at 1. rewrite Hopen. cbv beta iota.
  unfold SetMaxOpenConns, SetMaxIdleConns, SetConnMaxLifetime, db_Close,
    alter_db, db_Ping, lift.
  rewrite !bind_run. cbv beta iota. simpl.
  destruct (Ping E (nextDB w)) as [e|]; rewrite ?bind_run; cbv beta iota;
    simpl; unfold set_dbs, mret, M_ret; simpl;
    by rewrite !alter_insert_eq.
Qed.

(** C8: how the source registry resolves a configuration name.  A cached
    pool is pinged: it is reused, and the registry left as it is, when the
    ping succeeds; it is removed from the cache, and the name resolved as if
    nothing were cached, when the ping fails.  Without a cached pool the
    configuration is loaded, and its absence is a config-not-found error; a
    pool is opened with at most 25 open and 5 idle connections that live at
    most one hour; a failure of the first ping closes the pool and fails
    the resolution, with nothing cached; after a successful ping the pool
    is cached under the name and handed out. *)
Theorem LoadSource_resolves (name : string) (w : World) :
  (∀ pool, pools w !! name = Some pool → Ping E pool = None →
     LoadSource E name w = (Return (ok (NewPostgresConnector pool)), w)) ∧
  (∀ pool e, pools w !! name = Some pool → Ping E pool = Some e →
     pools (set_pools (delete name (pools w)) w) !! name = None ∧
     LoadSource E name w
     = LoadSource E name (set_pools (delete name (pools w)) w)) ∧
  (pools w !! name = None → configs w !! name = None →
     ∃ e, LoadSource E name w = (Return (err e), w) ∧
          errors_Is e ErrConfigNotFound = true) ∧
  (∀ config e,
     pools w !! name = None → configs w !! name = Some config →
     sql_Open E (dataSourceName config) = Some e →
     ∃ e', LoadSource E name w = (Return (err e'), w)) ∧
  (∀ config e,
     pools w !! name = None → configs w !! name = Some config →
     sql_Open E (dataSourceName config) = None →
     Ping E (nextDB w) = Some e →
     ∃ e' w', LoadSource E name w = (Return (err e'), w') ∧
              pools w' = pools w ∧
              Closed <$> dbs w' !! nextDB w = Some true) ∧
  (∀ config,
     pools w !! name = None → configs w !! name = Some config →
     sql_Open E (dataSourceName config) = None →
     Ping E (nextDB w) = None →
     ∃ w', LoadSource E name w
           = (Return (ok (NewPostgresConnector (nextDB w))), w') ∧
           pools w' = <[name := nextDB w]> (pools w) ∧
           dbs w' !! nextDB w
           = Some {| DSN := dataSourceName config; MaxOpenConns := 25;
                     MaxIdleConns := 5; ConnMaxLifetime := time_Hour;
                     Closed := false |}).
Proof.
  split_and!.
  - intros pool Hp Hping. unfold LoadSource. rewrite bind_run.
    unfold lookup_pool. rewrite Hp. cbv beta iota.
    rewrite bind_run. unfold db_Ping, lift. by rewrite Hping.
  - intros pool e Hp Hping. split; [apply lookup_delete_eq |].
    rewrite (LoadSource_not_cached name (set_pools _ w))
      by apply lookup_delete_eq.
    unfold LoadSource. rewrite bind_run.
    unfold lookup_pool. rewrite Hp. cbv beta iota.
    rewrite bind_run. unfold db_Ping, lift. rewrite Hping. cbv beta iota.
    by rewrite bind_run.
  - intros Hp Hc. rewrite LoadSource_not_cached by done.
    unfold loadAndConnect.
    rewrite bind_run, (LoadDatabaseConfig_missing _ _ Hc).
    eexists. split; [reflexivity | done].
  - intros config e Hp Hc Hopen. rewrite LoadSource_not_cached by done.
    unfold loadAndConnect.
    rewrite bind_run, (LoadDatabaseConfig_found _ _ _ Hc). cbv beta iota.
    rewrite bind_run. unfold createConnectionPool. cbv zeta.
    rewrite bind_run. unfold sql_DB_Open. rewrite Hopen. by eexists.
  - intros config e Hp Hc Hopen Hping. rewrite LoadSource_not_cached by done.
    unfold loadAndConnect.
    rewrite bind_run, (LoadDatabaseConfig_found _ _ _ Hc). cbv beta iota.
    rewrite bind_run, createConnectionPool_opened, Hping by done.
    eexists _, _. split_and!; [reflexivity | done |].
    simpl. by rewrite lookup_insert_eq.
  - intros config Hp Hc Hopen Hping. rewrite LoadSource_not_cached by done.
    unfold loadAndConnect.
    rewrite bind_run, (LoadDatabaseConfig_found _ _ _ Hc). cbv beta iota.
    rewrite bind_run, createConnectionPool_opened, Hping by done.
    eexists. split_and!; [reflexivity | done |].
    simpl. by rewrite lookup_insert_eq.
Qed.

End registry_claims.

(** The witness of [LoadSource_resolves]: the first resolution of the stored
    configuration, with a reachable database, opens pool 0 and caches it. *)
Lemma LoadSource_resolves_witness :
  pools scenario.start !! "sales_db" = None ∧
  configs scenario.start !! "sales_db" = Some scenario.salesDB ∧
  ∃ w', source.LoadSource scenario.fine "sales_db" scenario.start
        = (Return (ok (source.NewPostgresConnector 0)), w') ∧
        pools w' = <["sales_db" := 0]> (pools scenario.start) ∧
        dbs w' !! 0
        = Some {| DSN := source.dataSourceName scenario.salesDB;
                  MaxOpenConns := 25; MaxIdleConns := 5;
                  ConnMaxLifetime := source.time_Hour; Closed := false |}.
Proof.
  split_and!; [reflexivity | reflexivity |].
  apply (proj2 (proj2 (proj2 (proj2 (proj2
           (LoadSource_resolves scenario.fine "sales_db" scenario.start)))))
           scenario.salesDB); reflexivity.
Defined.

(** ** The admission gate *)
Section admission_claims.
Import spec models handlers.
Context `{UnicodeTables} (E : Env) (config : AssistantManagerConfig).

Lemma holding_insert (l : list Task) (i : nat) (t t' : Task) :
  l !! i = Some t →
  length (filter (λ t, holds t = true) (<[i := t']> l))
  + (if holds t then 1 else 0)
  = length (filter (λ t, holds t = true) l) + (if holds t' then 1 else 0).
Proof.
  revert i. induction l as [|x l IH]; intros [|i] Hi; simplify_eq/=.
  - rewrite !filter_cons.
    destruct (holds t), (holds t'); repeat case_decide; simpl; try done; lia.
  - rewrite !filter_cons. specialize (IH i Hi).
    case_decide; simpl; lia.
Qed.

Lemma holding_positive (l : list Task) (i : nat) (t : Task) :
  l !! i = Some t → holds t = true →
  1 ≤ length (filter (λ t, holds t = true) l).
Proof.
  intros Hi Ht.
  assert (t ∈ filter (λ t, holds t = true) l) as Hin.
  { apply list_elem_of_filter. split; [done |].
    by eapply list_elem_of_lookup_2. }
  destruct (filter _ l); [by apply elem_of_nil in Hin | simpl; lia].
Qed.

Lemma move_holds (t : Task) (p : pc) :
  holds (move t p)
  = match p with
    | Running | Leaving _ => true
    | Waiting | Exited => false
    end.
Proof. reflexivity. Qed.

(** Each step keeps the channel at the number of tasks that hold a slot,
    and that number within the capacity. *)
Lemma step_keeps_balance (s s' : System) :
  step E config s s' →
  orchestratorPool (world s) = holders s →
  holders s ≤ MaxConcurrentOrchestrations config →
  orchestratorPool (world s') = holders s' ∧
  holders s' ≤ MaxConcurrentOrchestrations config.
Proof.
  unfold holders.
  intros Hstep Hbal Hcap. destruct Hstep
    as [s request uuid w' Hc Hsave
       | s i t Hc Hi Ht Hroom
       | s i t r w' Hc Hi Ht Hrun
       | s i t r n Hc Hi Ht Hlen
       | s i j t u r Hc Hij Hi Ht Hj Hu Hlen]; simpl.
  - pose proof (CreateAssistantRequest_keeps_pool request uuid (world s))
      as Hk.
    rewrite Hsave in Hk. simpl in Hk.
    rewrite filter_app, length_app, filter_cons. simpl. lia.
  - pose proof (holding_insert _ _ _ (move t Running) Hi) as Hins.
    rewrite move_holds in Hins.
    assert (holds t = false) as Hh by (unfold holds; by rewrite Ht).
    rewrite Hh in Hins. lia.
  - pose proof (backgroundTask_keeps_pool E (request t) (uuid t) (world s))
      as Hk.
    rewrite Hrun in Hk. simpl in Hk.
    pose proof (holding_insert _ _ _ (move t (Leaving r)) Hi) as Hins.
    rewrite move_holds in Hins.
    assert (holds t = true) as Hh by (unfold holds; by rewrite Ht).
    rewrite Hh in Hins. lia.
  - pose proof (holding_insert _ _ _ (move t Exited) Hi) as Hins.
    rewrite move_holds in Hins.
    assert (holds t = true) as Hh by (unfold holds; by rewrite Ht).
    rewrite Hh in Hins. lia.
  - pose proof (holding_insert _ _ _ (move t Running) Hi) as Hins.
    rewrite move_holds in Hins.
    assert (holds t = false) as Hh by (unfold holds; by rewrite Ht).
    rewrite Hh in Hins.
    assert (<[i := move t Running]> (tasks s) !! j = Some u) as Hj'
      by by rewrite list_lookup_insert_ne.
    pose proof (holding_insert _ _ _ (move u Exited) Hj') as Hins'.
    rewrite move_holds in Hins'.
    assert (holds u = true) as Hh' by (unfold holds; by rewrite Hu).
    rewrite Hh' in Hins'. lia.
Qed.

Lemma reachable_balance (s0 s : System) :
  reachable E config s0 s →
  orchestratorPool (world s0) = holders s0 →
  holders s0 ≤ MaxConcurrentOrchestrations config →
  orchestratorPool (world s) = holders s ∧
  holders s ≤ MaxConcurrentOrchestrations config.
Proof.
  induction 1 as [|s1 s2 Hreach IH Hstep]; intros Hbal Hcap; [done |].
  destruct (IH Hbal Hcap) as [Hbal1 Hcap1].
  by eapply step_keeps_balance.
Qed.

Lemma launched_holders (w : World) (asks : list (AssistantRequest * string)) :
  holders (launched w asks) = 0.
Proof.
  unfold holders, launched. simpl.
  induction asks as [|a asks IH]; [done |].
  rewrite fmap_cons, filter_cons. by case_decide.
Qed.

(** A balanced state grants what the gate promises. *)
Lemma balance_admits (s : System) :
  orchestratorPool (world s) = holders s →
  holders s ≤ MaxConcurrentOrchestrations config →
  admits E config s.
Proof.
  intros Hbal Hcap. unfold admits. cbv zeta. split_and!; try done.
  - intros Hfull s' i t Hstep Hi Ht.
    destruct Hstep
      as [s request uuid w' Hc Hsave
         | s j u Hc Hj Hu Hroom
         | s j u r w' Hc Hj Hu Hrun
         | s j u r n Hc Hj Hu Hlen
         | s j k u v r Hc Hjk Hj Hu Hk Hv Hlen]; simpl.
    + exists t. split; [| done]. by apply lookup_app_l_Some.
    + lia.
    + exists t. split; [| done]. rewrite list_lookup_insert_ne; [done |].
      intros ->. congruence.
    + exists t. split; [| done]. rewrite list_lookup_insert_ne; [done |].
      intros ->. congruence.
    + assert (holds v = true) as Hh by (unfold holds; by rewrite Hv).
      pose proof (holding_positive _ _ _ Hk Hh) as Hpos.
      unfold holders in Hbal. lia.
  - intros Hc Hroom i t Hi Ht.
    eexists. split; [by eapply (step_send E config s i t); [..| lia] |].
    simpl. apply list_lookup_insert_eq. by eapply lookup_lt_Some.
  - intros Hc i t Hi Ht.
    destruct (backgroundTask E (request t) (uuid t) (world s))
      as [r w'] eqn:Hrun.
    eexists _, r. split; [by eapply (step_run E config s i t r w') |].
    simpl. apply list_lookup_insert_eq. by eapply lookup_lt_Some.
  - intros Hc i t r Hi Ht.
    assert (holds t = true) as Hh by (unfold holds; by rewrite Ht).
    pose proof (holding_positive _ _ _ Hi Hh) as Hpos.
    destruct (orchestratorPool (world s)) as [|n] eqn:Hlen;
      [unfold holders in Hbal; lia |].
    eexists. split; [by eapply (step_receive E config s i t r n) |].
    simpl. split; [apply list_lookup_insert_eq; by eapply lookup_lt_Some |].
    pose proof (holding_insert _ _ _ (move t Exited) Hi) as Hins.
    rewrite move_holds, Hh in Hins. unfold holders. simpl. lia.
Qed.

(** C9: with any number of accepted requests and any admission limit, in
    every state that any interleaving of the background tasks reaches, no
    more tasks than the limit hold an admission slot; at the limit a task
    stays before its send whatever step is taken, and below it the send can
    proceed; and a task that entered its guarded section gets to its
    deferred receive on every outcome, return or panic, and can take it,
    which frees its slot. *)
Theorem admission_limit_holds (w : World)
  (asks : list (AssistantRequest * string)) (s : System) :
  orchestratorPool w = 0 →
  reachable E config (launched w asks) s →
  admits E config s.
Proof.
  intros Hw Hreach.
  destruct (reachable_balance _ _ Hreach) as [Hbal Hcap].
  - by rewrite launched_holders.
  - rewrite launched_holders. lia.
  - by apply balance_admits.
Qed.

End admission_claims.

Section admission_scenario.
Import scenario handlers.
#[local] Existing Instance asciiOnly.

(** The witness of [admission_limit_holds]: two accepted requests and one
    slot, after the task of the first request passed its send. *)
Lemma admission_limit_holds_witness :
  orchestratorPool start = 0 ∧
  reachable fine oneSlot (launched start twoAsks) firstAdmitted ∧
  spec.admits fine oneSlot firstAdmitted.
Proof.
  assert (reachable fine oneSlot (launched start twoAsks) firstAdmitted)
    as Hreach.
  { eapply reachable_step; [apply reachable_refl |].
    apply (step_send fine oneSlot (launched start twoAsks) 0
             {| request := ask; uuid := "u1"; at_ := Waiting |});
      [reflexivity | reflexivity | reflexivity | simpl; lia]. }
  split_and!; [reflexivity | exact Hreach |].
  apply (admission_limit_holds fine oneSlot start twoAsks firstAdmitted);
    [reflexivity | exact Hreach].
Defined.

End admission_scenario.

(** * Properties that a run keeps, over any storage *)
Section invariant.
Import spec props models storage orchestrator.
Context `{UnicodeTables} (E : Env) `{Storage}.
Context (P : World → Prop) (o : Orchestrator).

Lemma preserves_ret {A : Type} (a : A) : preserves P (mret a : M A).
Proof. by intros w. Qed.

Lemma preserves_lift {A : Type} (g : go A) : preserves P (lift g).
Proof. by intros w. Qed.

Lemma preserves_bind {A B : Type} (m : M A) (k : A → M B) :
  preserves P m → (∀ a, preserves P (k a)) → preserves P (m ≫= k).
Proof.
  intros Hm Hk w Hw. rewrite bind_run. specialize (Hm w Hw).
  destruct (m w) as [[a|v] w']; simpl in *; [| done].
  by apply Hk.
Qed.

Lemma preserves_recover (body : M unit) (handler : string → M unit) :
  preserves P body → (∀ v, preserves P (handler v)) →
  preserves P (recover body handler).
Proof.
  intros Hb Hh w Hw. unfold recover. specialize (Hb w Hw).
  destruct (body w) as [[a|v] w']; simpl in *; [done |].
  by apply Hh.
Qed.

Lemma keeps_preserves {A B : Type} (f : World → B) (m : M A) :
  (∀ w w', f w' = f w → P w → P w') → keeps f m → preserves P m.
Proof. intros Hf Hm w Hw. apply (Hf w); [apply Hm | done]. Qed.

Hypothesis load_inv : ∀ uuid, preserves P (LoadAssistantResponse uuid).
Hypothesis append_inv :
  ∀ kind text, preserves P (source.AppendResponse (askID o) kind text).
Hypothesis status_inv :
  ∀ status success,
    preserves P (source.UpdateStatus (askID o) status success).
Hypothesis config_inv : ∀ name, preserves P (LoadDatabaseConfig name).
Hypothesis open_inv : ∀ dsn, preserves P (source.sql_DB_Open E dsn).
Hypothesis alter_inv : ∀ g h, preserves P (source.alter_db g h).
Hypothesis lookup_inv : ∀ name, preserves P (source.lookup_pool name).
Hypothesis delete_inv : ∀ name, preserves P (source.delete_pool name).
Hypothesis store_inv : ∀ name h, preserves P (source.store_pool name h).
Hypothesis query_inv : ∀ h q, preserves P (source.db_QueryContext E h q).
Hypothesis complete_inv : ∀ req, preserves P (provider_Complete E o req).

Create HintDb inv.

#[local] Hint Resolve preserves_ret preserves_lift preserves_bind
  preserves_recover load_inv append_inv status_inv config_inv open_inv
  alter_inv lookup_inv delete_inv store_inv query_inv complete_inv : inv.

#[local] Hint Extern 2 (preserves _ (match ?x with _ => _ end)) =>
  destruct x : inv.

#[local] Hint Extern 2 (preserves _ (let _ := _ in _)) => cbv zeta : inv.

Lemma handleError_inv (message : string) (e : error) :
  preserves P (handleError o message e).
Proof. unfold handleError. eauto 20 with inv. Qed.

Lemma createConnectionPool_inv (config : DatabaseConfig) :
  preserves P (source.createConnectionPool E config).
Proof.
  unfold source.createConnectionPool, source.SetMaxOpenConns,
    source.SetMaxIdleConns, source.SetConnMaxLifetime, source.db_Close,
    source.db_Ping.
  eauto 20 with inv.
Qed.

#[local] Hint Resolve handleError_inv createConnectionPool_inv : inv.

Lemma LoadSource_inv (name : string) : preserves P (source.LoadSource E name).
Proof.
  unfold source.LoadSource, source.loadAndConnect, source.db_Ping.
  eauto 20 with inv.
Qed.

Lemma GetSchema_inv (p : source.PostgresConnector) :
  preserves P (source.GetSchema E p (askID o)).
Proof.
  unfold source.GetSchema, source.processSchemaRows. eauto 20 with inv.
Qed.

Lemma ExecuteQuery_inv (p : source.PostgresConnector) (q : string) :
  preserves P (source.ExecuteQuery E p q).
Proof. unfold source.ExecuteQuery. eauto 20 with inv. Qed.

#[local] Hint Resolve LoadSource_inv GetSchema_inv ExecuteQuery_inv : inv.

Lemma connectToDatabase_inv : preserves P (connectToDatabase E o).
Proof. unfold connectToDatabase. eauto 20 with inv. Qed.

Lemma fetchDatabaseSchema_inv (db : source.PostgresConnector) :
  preserves P (fetchDatabaseSchema E o db).
Proof. unfold fetchDatabaseSchema. eauto 20 with inv. Qed.

Lemma generateSQLQuery_inv (schema question : string) :
  preserves P (generateSQLQuery E o schema question).
Proof. unfold generateSQLQuery. eauto 30 with inv. Qed.

Lemma executeQuery_inv (db : source.PostgresConnector) (query : string) :
  preserves P (executeQuery E o db query).
Proof. unfold executeQuery. eauto 20 with inv. Qed.

Lemma generateFinalResponse_inv (question : string)
  (queryResult : QueryResult) :
  preserves P (generateFinalResponse E o question queryResult).
Proof. unfold generateFinalResponse. eauto 30 with inv. Qed.

Lemma loadAssistantResponse_inv : preserves P (loadAssistantResponse o).
Proof. unfold loadAssistantResponse. eauto 20 with inv. Qed.

#[local] Hint Resolve connectToDatabase_inv fetchDatabaseSchema_inv
  generateSQLQuery_inv executeQuery_inv generateFinalResponse_inv
  loadAssistantResponse_inv : inv.


End invariant.

(** ** The updates of a response only grow under the orchestrator *)
Section growth.
Import spec props models storage orchestrator.
Context `{UnicodeTables} (E : Env) (S : postgres.Server).



(** A write of the storage stores the response or fails and leaves the
    tables as they are. *)
Lemma postgres_Save_cases (response : AssistantResponse) (w : World) :
  postgres.SaveAssistantResponse S response w
  = (Return None,
     set_assistantResponses
       (<[UUID response := response]> (assistantResponses w)) w) ∨
  ∃ e, postgres.SaveAssistantResponse S response w = (Return (Some e), w).
Proof.
  unfold postgres.SaveAssistantResponse.
  repeat case_match; eauto.
Qed.

(** A read of the storage returns the row of the identifier or fails. *)
Lemma postgres_Load_cases (uuid : string) (w : World) :
  (∃ response,
     assistantResponses w !! uuid = Some response ∧
     postgres.LoadAssistantResponse S uuid w = (Return (ok response), w)) ∨
  ∃ e, postgres.LoadAssistantResponse S uuid w = (Return (err e), w).
Proof.
  unfold postgres.LoadAssistantResponse, postgres.QueryRow_Scan.
  repeat case_match; simplify_eq; eauto.
Qed.

Lemma wired_AppendResponse_cases (uuid kind text : string) (w : World) :
  (∃ r,
     assistantResponses w !! uuid = Some r ∧
     wired.AppendResponse S uuid kind text w
     = (Return None,
        set_assistantResponses
          (<[UUID r := appendUpdate r (update kind text (clock w))]>
             (assistantResponses w))
          (set_clock (clock w + 1) w))) ∨
  ∃ e w',
    wired.AppendResponse S uuid kind text w = (Return (Some e), w') ∧
    assistantResponses w' = assistantResponses w.
Proof.
  assert (∀ g w',
            postgres.LoadAssistantResponse S uuid w = (Return g, w') →
            wired.AppendResponse S uuid kind text w
            = match g with
              | err e =>
                  (Return (Some (wrapError "failed to load response: " e)),
                   w')
              | ok r =>
                  match postgres.SaveAssistantResponse S
                          (appendUpdate r (update kind text (clock w')))
                          (set_clock (clock w' + 1) w') with
                  | (Return (Some e), w'') =>
                      (Return (Some (wrapError
                                       "failed to save updated response: "
                                       e)), w'')
                  | (Return None, w'') => (Return None, w'')
                  | (Panic v, w'') => (Panic v, w'')
                  end
              end) as Hrun.
  { intros g w' Hload. unfold wired.AppendResponse, source.AppendResponse.
    rewrite bind_run. cbn [LoadAssistantResponse postgres.PostgresStorage].
    rewrite Hload. destruct g as [r|e]; [| done].
    rewrite bind_run. unfold time_Now. cbv beta iota zeta.
    rewrite bind_run. cbn [SaveAssistantResponse postgres.PostgresStorage].
    unfold update.
    by destruct (postgres.SaveAssistantResponse S _ _) as [[[e|]|v] w'']. }
  destruct (postgres_Load_cases uuid w) as [(r & Hr & Hload) | (e & Hload)];
    rewrite (Hrun _ _ Hload).
  - destruct (postgres_Save_cases
                (appendUpdate r (update kind text (clock w)))
                (set_clock (clock w + 1) w)) as [-> | (e & ->)].
    + left. by exists r.
    + right. by eexists _, _.
  - right. by eexists _, _.
Qed.



End growth.

Section growth_scenario.
Import spec props models scenario.
#[local] Existing Instance asciiOnly.


End growth_scenario.

(** * The configuration storage *)
Section memory_configs_facts.
Import models storage memory_configs props.

Lemma LoadLLMConfig_stored (provider name : string) (w : World) :
  memory.LoadLLMConfig provider name w
  = (match llmStored w provider name with
     | Some config => Return (ok config)
     | None => Return (err ErrConfigNotFound)
     end, w).
Proof.
  unfold memory.LoadLLMConfig, llmStored.
  destruct (llmConfigs w !! provider) as [m|]; simpl; [| done].
  by destruct (m !! name).
Qed.

Lemma SaveDatabaseConfig_named (config : DatabaseConfig) (w : World) :
  configsNamed w → configsNamed (SaveDatabaseConfig config w).2.
Proof.
  intros Hn k c. unfold SaveDatabaseConfig.
  destruct (configs w !! Name config) eqn:Hc; simpl; [apply Hn |].
  destruct (decide (k = Name config)) as [-> | Hne].
  - rewrite lookup_insert_eq. by intros [= ->].
  - rewrite lookup_insert_ne by done. apply Hn.
Qed.

Lemma DeleteDatabaseConfig_named (name : string) (w : World) :
  configsNamed w → configsNamed (DeleteDatabaseConfig name w).2.
Proof.
  intros Hn k c. unfold DeleteDatabaseConfig.
  destruct (configs w !! name) eqn:Hc; simpl; [| apply Hn].
  intros Hk. apply lookup_delete_Some in Hk as [_ Hk]. by apply Hn.
Qed.

(** The database configurations round-trip through the in-memory storage: a
    configuration saved under a new name is what [LoadDatabaseConfig] then
    returns, a second save under that name is refused with
    [ErrConfigExists] and changes nothing, and [DeleteDatabaseConfig] then
    gives back the configurations the storage started with, after which the
    name is not found. *)
Theorem database_config_round_trip (config other : DatabaseConfig)
  (w : World) :
  configs w !! Name config = None → Name other = Name config →
  ∃ w1 w2,
    SaveDatabaseConfig config w = (Return None, w1) ∧
    memory.LoadDatabaseConfig (Name config) w1 = (Return (ok config), w1) ∧
    SaveDatabaseConfig other w1 = (Return (Some ErrConfigExists), w1) ∧
    DeleteDatabaseConfig (Name config) w1 = (Return None, w2) ∧
    configs w2 = configs w ∧
    memory.LoadDatabaseConfig (Name config) w2
    = (Return (err ErrConfigNotFound), w2) ∧
    DeleteDatabaseConfig (Name config) w2
    = (Return (Some ErrConfigNotFound), w2).
Proof.
  intros Hnew Hother.
  exists (set_configs (<[Name config := config]> (configs w)) w),
    (set_configs (configs w)
       (set_configs (<[Name config := config]> (configs w)) w)).
  unfold SaveDatabaseConfig, DeleteDatabaseConfig, memory.LoadDatabaseConfig.
  rewrite Hother, Hnew. simpl. rewrite !lookup_insert_eq, Hnew.
  rewrite delete_insert_id by done. by split_and!.
Qed.

(** Saving and deleting a database configuration leave what is stored under
    every other name as it is, and keep every configuration stored under
    its own name. *)
Theorem database_configs_isolated (config : DatabaseConfig)
  (name other : string) (w : World) :
  (other ≠ Name config →
   configs (SaveDatabaseConfig config w).2 !! other = configs w !! other) ∧
  (other ≠ name →
   configs (DeleteDatabaseConfig name w).2 !! other = configs w !! other) ∧
  (configsNamed w →
   configsNamed (SaveDatabaseConfig config w).2 ∧
   configsNamed (DeleteDatabaseConfig name w).2).
Proof.
  split_and!.
  - intros Hne. unfold SaveDatabaseConfig.
    destruct (configs w !! Name config); simpl; [done |].
    by rewrite lookup_insert_ne.
  - intros Hne. unfold DeleteDatabaseConfig.
    destruct (configs w !! name); simpl; [| done].
    by rewrite lookup_delete_ne.
  - intros Hn. split;
      [by apply SaveDatabaseConfig_named | by apply DeleteDatabaseConfig_named].
Qed.

Section listing.
Context `{MapOrder}.

Lemma range_elem {A : Type} (m : gmap string A) (k : string) (a : A) :
  (k, a) ∈ range m ↔ m !! k = Some a.
Proof. rewrite (range_visits A m). apply elem_of_map_to_list. Qed.

Lemma range_values {A : Type} (m : gmap string A) (a : A) :
  a ∈ (range m).*2 ↔ ∃ k, m !! k = Some a.
Proof.
  rewrite list_elem_of_fmap. split.
  - intros ([k a'] & -> & Hin). exists k. by apply range_elem.
  - intros (k & Hk). exists (k, a). split; [done |]. by apply range_elem.
Qed.

Lemma range_length {A : Type} (m : gmap string A) :
  length ((range m).*2) = size m.
Proof.
  rewrite length_fmap, (range_visits A m). apply length_map_to_list.
Qed.

Lemma range_keys {A : Type} (m : gmap string A) : NoDup (range m).*1.
Proof. rewrite (range_visits A m). apply NoDup_fst_map_to_list. Qed.

(** [GetDatabaseConfigs] never fails and changes nothing; it lists the
    stored configurations, each one once: as many as the storage holds;
    and, where every configuration is stored under its own name, exactly
    those that a load by name returns, under pairwise distinct names. *)
Theorem GetDatabaseConfigs_lists_store (w : World) :
  ∃ l,
    GetDatabaseConfigs w = (Return (ok l), w) ∧
    length l = size (configs w) ∧
    (∀ c, c ∈ l ↔ ∃ k, configs w !! k = Some c) ∧
    (configsNamed w →
     NoDup (Name <$> l) ∧
     ∀ c, c ∈ l ↔
          memory.LoadDatabaseConfig (Name c) w = (Return (ok c), w)).
Proof.
  eexists. split; [reflexivity |]. split_and!.
  - apply range_length.
  - apply range_values.
  - intros Hn. split.
    + assert (Name <$> (range (configs w)).*2 = (range (configs w)).*1)
        as ->; [| apply range_keys].
      rewrite <- list_fmap_compose. apply Forall_fmap_ext_1.
      apply Forall_forall. intros [k c] Hin. simpl.
      apply range_elem in Hin. by apply Hn.
    + intros c. rewrite range_values. unfold memory.LoadDatabaseConfig.
      split.
      * intros (k & Hk). rewrite (Hn _ _ Hk), Hk. done.
      * intros Hl. exists (Name c).
        destruct (configs w !! Name c) as [c'|]; [| done].
        by injection Hl as ->.
Qed.

End listing.

End memory_configs_facts.

Section memory_configs_scenario.
Import models memory_configs scenario.

(** The witness of [database_config_round_trip]: the sales database, in a
    storage that holds nothing. *)
Lemma database_config_round_trip_witness :
  ∃ w1 w2,
    SaveDatabaseConfig salesDB (set_configs ∅ start) = (Return None, w1) ∧
    memory.LoadDatabaseConfig "sales_db" w1 = (Return (ok salesDB), w1) ∧
    SaveDatabaseConfig salesDB w1 = (Return (Some ErrConfigExists), w1) ∧
    DeleteDatabaseConfig "sales_db" w1 = (Return None, w2) ∧
    configs w2 = ∅ ∧
    memory.LoadDatabaseConfig "sales_db" w2
    = (Return (err storage.ErrConfigNotFound), w2) ∧
    DeleteDatabaseConfig "sales_db" w2
    = (Return (Some storage.ErrConfigNotFound), w2).
Proof.
  apply (database_config_round_trip salesDB salesDB (set_configs ∅ start));
    reflexivity.
Defined.

End memory_configs_scenario.

(** ** The LLM configurations *)
Section llm_configs_facts.
Import models storage memory_configs props.

Lemma llmStored_insert (w : World) (m : gmap string (gmap string any))
  (pm : gmap string any) (provider p n : string) :
  llmStored (set_llmConfigs (<[provider := pm]> m) w) p n
  = if decide (p = provider) then pm !! n else m !! p ≫= (.!! n).
Proof.
  unfold llmStored. simpl. case_decide as Hp.
  - subst. by rewrite lookup_insert_eq.
  - by rewrite lookup_insert_ne.
Qed.

Lemma llmStored_delete (w : World) (m : gmap string (gmap string any))
  (provider p n : string) :
  llmStored (set_llmConfigs (delete provider m) w) p n
  = if decide (p = provider) then None else m !! p ≫= (.!! n).
Proof.
  unfold llmStored. simpl. case_decide as Hp.
  - subst. by rewrite lookup_delete_eq.
  - by rewrite lookup_delete_ne.
Qed.

Lemma SaveLLMConfig_value (provider : string) (c : LLMConfig) (w : World) :
  llmStored w provider (LLMName c) = None →
  SaveLLMConfig provider (LLMConfig_value c) w
  = (Return None,
     set_llmConfigs
       (<[provider := <[LLMName c := LLMConfig_value c]>
                        (default ∅ (llmConfigs w !! provider))]>
          (llmConfigs w)) w).
Proof.
  unfold llmStored, SaveLLMConfig. intros Hnew.
  destruct (llmConfigs w !! provider) as [pm|] eqn:Hp; simpl in *.
  - rewrite Hp. simpl. by rewrite Hnew.
  - rewrite lookup_insert_eq. simpl. rewrite lookup_empty.
    unfold set_llmConfigs. simpl. by rewrite insert_insert_eq.
Qed.

(** The LLM configurations round-trip through the in-memory storage: a
    configuration saved by value under a provider and a new name is what
    [LoadLLMConfig] then returns, a second save under that provider and
    name is refused with [ErrConfigExists] and changes nothing, and
    [DeleteLLMConfig] then leaves every provider and name with what the
    storage started with; where no provider had an empty map, the maps are
    those the storage started with. *)
Theorem llm_config_round_trip (provider : string) (c other : LLMConfig)
  (w : World) :
  llmStored w provider (LLMName c) = None → LLMName other = LLMName c →
  ∃ w1 w2,
    SaveLLMConfig provider (LLMConfig_value c) w = (Return None, w1) ∧
    memory.LoadLLMConfig provider (LLMName c) w1
    = (Return (ok (LLMConfig_value c)), w1) ∧
    SaveLLMConfig provider (LLMConfig_value other) w1
    = (Return (Some ErrConfigExists), w1) ∧
    DeleteLLMConfig provider (LLMName c) w1 = (Return None, w2) ∧
    memory.LoadLLMConfig provider (LLMName c) w2
    = (Return (err ErrConfigNotFound), w2) ∧
    (∀ p n, llmStored w2 p n = llmStored w p n) ∧
    (noEmptyProvider w → llmConfigs w2 = llmConfigs w).
Proof.
  intros Hnew Hother.
  set (pm := default ∅ (llmConfigs w !! provider)).
  set (w1 := set_llmConfigs
               (<[provider := <[LLMName c := LLMConfig_value c]> pm]>
                  (llmConfigs w)) w).
  assert (pm !! LLMName c = None) as Hpm.
  { unfold pm, llmStored in *.
    destruct (llmConfigs w !! provider); simpl in *; [done | apply lookup_empty]. }
  assert (DeleteLLMConfig provider (LLMName c) w1
          = (Return None,
             if decide (size pm = 0)
             then set_llmConfigs (delete provider (llmConfigs w)) w1
             else set_llmConfigs (<[provider := pm]> (llmConfigs w)) w1))
    as Hdel.
  { unfold DeleteLLMConfig, w1. simpl. rewrite lookup_insert_eq. simpl.
    rewrite lookup_insert_eq. rewrite delete_insert_id by done.
    case_decide.
    - by rewrite delete_insert_eq.
    - by rewrite insert_insert_eq. }
  assert (∀ p n, llmStored (DeleteLLMConfig provider (LLMName c) w1).2 p n
                 = llmStored w p n) as Hsame.
  { intros p n. rewrite Hdel. simpl. case_decide as Hsz.
    - rewrite llmStored_delete. unfold llmStored. case_decide as Hp; [| done].
      subst p. apply map_size_empty_iff in Hsz. unfold pm in Hsz.
      destruct (llmConfigs w !! provider); simpl in *; [| done].
      subst. by rewrite lookup_empty.
    - rewrite llmStored_insert. unfold llmStored. case_decide as Hp; [| done].
      subst p. unfold pm.
      destruct (llmConfigs w !! provider); simpl; [done |].
      apply lookup_empty. }
  exists w1, (DeleteLLMConfig provider (LLMName c) w1).2. split_and!.
  - by apply SaveLLMConfig_value.
  - rewrite LoadLLMConfig_stored. unfold w1. rewrite llmStored_insert.
    rewrite decide_True by done. by rewrite lookup_insert_eq.
  - unfold SaveLLMConfig, w1. simpl. rewrite lookup_insert_eq. simpl.
    rewrite lookup_insert_eq. simpl. by rewrite Hother, lookup_insert_eq.
  - by rewrite Hdel.
  - rewrite LoadLLMConfig_stored, Hsame, Hnew. done.
  - apply Hsame.
  - intros Hne. rewrite Hdel. simpl. unfold pm in *.
    destruct (llmConfigs w !! provider) as [pm'|] eqn:Hp; simpl in *.
    + rewrite decide_False.
      * simpl. by apply insert_id.
      * intros Hsz. apply map_size_empty_iff in Hsz. by apply (Hne _ _ Hp).
    + rewrite decide_True by apply map_size_empty. simpl.
      by apply delete_id.
Qed.

(** [SaveLLMConfig] accepts a configuration by value only: a pointer to a
    configuration, or any other value, is refused with "unsupported config
    type".  No stored configuration changes, but a provider that had no map
    is left with an empty one. *)
Theorem SaveLLMConfig_rejects_pointers (provider : string) (config : any)
  (w : World) :
  (∀ c, config ≠ LLMConfig_value c) →
  ∃ w',
    SaveLLMConfig provider config w
    = (Return (Some (errorString "unsupported config type")), w') ∧
    (∀ p n, llmStored w' p n = llmStored w p n) ∧
    (llmConfigs w !! provider = None →
     llmConfigs w' !! provider = Some ∅ ∧ ¬ noEmptyProvider w').
Proof.
  intros Hv. unfold SaveLLMConfig.
  set (w' := match llmConfigs w !! provider with
             | Some _ => w
             | None => set_llmConfigs (<[provider := ∅]> (llmConfigs w)) w
             end).
  exists w'. split_and!.
  - destruct config as [c| |]; [by destruct (Hv c) | done..].
  - intros p n. unfold w'.
    destruct (llmConfigs w !! provider) eqn:Hp; [done |].
    rewrite llmStored_insert. unfold llmStored. case_decide; [| done].
    subst. by rewrite Hp, lookup_empty.
  - intros Hp. unfold w'. rewrite Hp. simpl. rewrite lookup_insert_eq.
    split; [done |]. intros Hne.
    eapply (Hne provider ∅); [simpl; apply lookup_insert_eq | done].
Qed.

Lemma DeleteLLMConfig_run (provider name : string) (w : World) :
  DeleteLLMConfig provider name w
  = match llmConfigs w !! provider with
    | Some pm =>
        match pm !! name with
        | Some _ =>
            (Return None,
             if decide (size (delete name pm) = 0)
             then set_llmConfigs (delete provider (llmConfigs w)) w
             else set_llmConfigs
                    (<[provider := delete name pm]> (llmConfigs w)) w)
        | None => (Return (Some ErrConfigNotFound), w)
        end
    | None => (Return (Some ErrConfigNotFound), w)
    end.
Proof.
  unfold DeleteLLMConfig.
  destruct (llmConfigs w !! provider) as [pm|]; [| done].
  destruct (pm !! name); [| done]. cbv zeta. by case_decide.
Qed.

Lemma DeleteLLMConfig_effect (provider name : string) (w : World) :
  llmStored (DeleteLLMConfig provider name w).2 provider name = None ∧
  (∀ p n, (p, n) ≠ (provider, name) →
     llmStored (DeleteLLMConfig provider name w).2 p n = llmStored w p n).
Proof.
  assert (llmStored w provider name
          = llmConfigs w !! provider ≫= (.!! name)) as Hst by done.
  rewrite DeleteLLMConfig_run.
  destruct (llmConfigs w !! provider) as [pm|] eqn:Hp; simpl in *;
    [destruct (pm !! name) as [config|] eqn:Hn; simpl in * |];
    [| by split..].
  case_decide as Hsz; simpl; split.
  - rewrite llmStored_delete. by rewrite decide_True.
  - intros p n Hne. rewrite llmStored_delete. unfold llmStored.
    case_decide as Hpp; [| done]. subst p. rewrite Hp. simpl.
    apply map_size_empty_iff in Hsz.
    assert (n ≠ name) as Hnn by congruence.
    rewrite <- (lookup_delete_ne pm name n) by done.
    by rewrite Hsz, lookup_empty.
  - rewrite llmStored_insert, decide_True by done.
    apply lookup_delete_eq.
  - intros p n Hne. rewrite llmStored_insert. unfold llmStored.
    case_decide as Hpp; [| done]. subst p. rewrite Hp. simpl.
    assert (n ≠ name) as Hnn by congruence.
    by rewrite lookup_delete_ne.
Qed.

(** [DeleteLLMConfig] returns [nil] exactly when a configuration is stored
    for the provider under the name, and [ErrConfigNotFound] otherwise;
    afterwards none is stored there, every other provider and name has what
    it had, and no provider is left with an empty map if none had one. *)
Theorem DeleteLLMConfig_cleans_up (provider name : string) (w : World) :
  (DeleteLLMConfig provider name w).1
  = Return (match llmStored w provider name with
            | Some _ => None
            | None => Some ErrConfigNotFound
            end) ∧
  llmStored (DeleteLLMConfig provider name w).2 provider name = None ∧
  (∀ p n, (p, n) ≠ (provider, name) →
     llmStored (DeleteLLMConfig provider name w).2 p n = llmStored w p n) ∧
  (noEmptyProvider w → noEmptyProvider (DeleteLLMConfig provider name w).2).
Proof.
  destruct (DeleteLLMConfig_effect provider name w) as [Hgone Hsame].
  split_and!; [| done | done |].
  - rewrite DeleteLLMConfig_run. unfold llmStored.
    destruct (llmConfigs w !! provider) as [pm|]; [| done]. simpl.
    by destruct (pm !! name).
  - intros Hne. rewrite DeleteLLMConfig_run.
    destruct (llmConfigs w !! provider) as [pm|] eqn:Hp; [| done].
    destruct (pm !! name) eqn:Hn; [| done]. simpl.
    case_decide as Hsz; intros p m; simpl; intros Hm.
    + apply lookup_delete_Some in Hm as [_ Hm]. by apply (Hne p).
    + destruct (decide (p = provider)) as [-> | Hpp].
      * rewrite lookup_insert_eq in Hm. injection Hm as <-.
        intros He. apply Hsz. rewrite He. apply map_size_empty.
      * rewrite lookup_insert_ne in Hm by done. by apply (Hne p).
Qed.

Section listing.
Context `{MapOrder}.

(** [GetLLMConfigs] never fails and changes nothing; it lists the
    configurations stored for the provider, each one once, and nothing for
    a provider that has none. *)
Theorem GetLLMConfigs_lists_provider (provider : string) (w : World) :
  ∃ l,
    GetLLMConfigs provider w = (Return (ok l), w) ∧
    length l = size (default ∅ (llmConfigs w !! provider)) ∧
    (∀ config, config ∈ l ↔ ∃ n, llmStored w provider n = Some config) ∧
    (llmConfigs w !! provider = None → l = []).
Proof.
  unfold GetLLMConfigs, llmStored.
  destruct (llmConfigs w !! provider) as [pm|] eqn:Hp; simpl.
  - eexists. split; [reflexivity |]. split_and!.
    + apply range_length.
    + intros config. apply range_values.
    + done.
  - exists []. split_and!; [done | by rewrite map_size_empty | | done].
    intros config. split; [by intros ?%elem_of_nil | by intros [? ?]].
Qed.

(** [SaveAssistantResponse] stores a response under its UUID, in place of
    the one stored there before: after two saves under one UUID, a load
    returns the second response, every other UUID has the response it had,
    and the histories hold the second response among as many responses as
    there are UUIDs. *)
Theorem assistant_response_last_write_wins (r1 r2 : AssistantResponse)
  (w : World) :
  UUID r1 = UUID r2 →
  ∃ w' l,
    (memory.SaveAssistantResponse r1 ;; memory.SaveAssistantResponse r2) w
    = (Return None, w') ∧
    memory.LoadAssistantResponse (UUID r1) w' = (Return (ok r2), w') ∧
    (∀ u, u ≠ UUID r1 →
       assistantResponses w' !! u = assistantResponses w !! u) ∧
    GetAssistantHistories w' = (Return (ok l), w') ∧
    r2 ∈ l ∧
    length l = size (<[UUID r1 := r2]> (assistantResponses w)).
Proof.
  intros Hu. eexists _, _. split; [reflexivity |].
  unfold memory.LoadAssistantResponse, GetAssistantHistories. simpl.
  rewrite Hu, insert_insert_eq, lookup_insert_eq.
  split_and!; [done | | done | |].
  - intros u Hne. by rewrite lookup_insert_ne.
  - apply range_values. exists (UUID r2). apply lookup_insert_eq.
  - apply range_length.
Qed.

End listing.

End llm_configs_facts.

Section llm_configs_scenario.
Import models memory_configs props scenario.

(** The witness of [llm_config_round_trip]: the configuration [gpt] under a
    second name, beside the one that is stored. *)
Lemma llm_config_round_trip_witness :
  llmStored start "openai" "second" = None ∧
  ∃ w1 w2,
    SaveLLMConfig "openai"
      (LLMConfig_value {| LLMName := "second"; LLMType := "openai";
                          APIKey := "sk-test"; models.Model := "gpt-4";
                          LLMOptions := None |}) start
    = (Return None, w1) ∧
    DeleteLLMConfig "openai" "second" w1 = (Return None, w2) ∧
    llmConfigs w2 = llmConfigs start.
Proof.
  split; [reflexivity |].
  destruct (llm_config_round_trip "openai"
              {| LLMName := "second"; LLMType := "openai";
                 APIKey := "sk-test"; models.Model := "gpt-4";
                 LLMOptions := None |}
              {| LLMName := "second"; LLMType := "openai";
                 APIKey := "sk-test"; models.Model := "gpt-4";
                 LLMOptions := None |} start)
    as (w1 & w2 & Hs & _ & _ & Hd & _ & _ & Hsame); [reflexivity.. |].
  exists w1, w2. split_and!; [done | done |].
  apply Hsame. intros p m Hp Hm. subst m. revert Hp. unfold start. simpl.
  intros [_ Hp]%lookup_singleton_Some.
  apply (f_equal (λ m, m !! "default")) in Hp. done.
Defined.

(** The witness of [SaveLLMConfig_rejects_pointers]: the pointer that the
    PostgreSQL storage hands out, for a provider that has no map yet. *)
Lemma SaveLLMConfig_rejects_pointers_witness :
  ∃ w',
    SaveLLMConfig "anthropic" (LLMConfig_pointer gpt) start
    = (Return (Some (errorString "unsupported config type")), w') ∧
    llmConfigs w' !! "anthropic" = Some ∅.
Proof.
  destruct (SaveLLMConfig_rejects_pointers "anthropic"
              (LLMConfig_pointer gpt) start)
    as (w' & Hs & _ & Hp); [done |].
  exists w'. split; [done |]. by apply Hp.
Defined.

(** The witness of [assistant_response_last_write_wins]: the error record
    of a background task, saved over the response of the request. *)
Lemma assistant_response_last_write_wins_witness :
  ∃ w' l,
    (memory.SaveAssistantResponse initial ;;
     memory.SaveAssistantResponse (setStatus initial "failed" false)) start
    = (Return None, w') ∧
    memory.LoadAssistantResponse "u1" w'
    = (Return (ok (setStatus initial "failed" false)), w') ∧
    @GetAssistantHistories keyOrder w' = (Return (ok l), w') ∧
    length l = 1.
Proof.
  destruct (@assistant_response_last_write_wins keyOrder initial
              (setStatus initial "failed" false) start)
    as (w' & l & Hs & Hl & _ & Hh & _ & Hlen); [reflexivity |].
  exists w', l. split_and!; [done | done | done |].
  rewrite Hlen. reflexivity.
Defined.

End llm_configs_scenario.

(** * The background task without an orchestrator *)
Section refusals.
Import models storage memory_configs props handlers.
Context `{UnicodeTables} (E : Env).

Lemma refused (request : AssistantRequest) (uuid message : string)
  (e : error) (w : World) :
  backgroundTask E request uuid w
  = handleOrchestrationError uuid message e w →
  refusedWith E request uuid w (message +:+ ": " +:+ Error e).
Proof.
  intros Heq. unfold refusedWith. rewrite Heq. eexists.
  split; [apply handleOrchestrationError_run |]. done.
Qed.

Lemma storesValues_empty (w : World) : llmConfigs w = ∅ → storesValues w.
Proof. intros He p n c. unfold llmStored. by rewrite He, lookup_empty. Qed.

Lemma SaveLLMConfig_storesValues (provider : string) (config : any)
  (w : World) :
  storesValues w → storesValues (SaveLLMConfig provider config w).2.
Proof.
  intros Hv p n c'. unfold SaveLLMConfig.
  set (w0 := match llmConfigs w !! provider with
             | Some _ => w
             | None => set_llmConfigs (<[provider := ∅]> (llmConfigs w)) w
             end).
  assert (storesValues w0) as Hv0.
  { intros p' n' c0. unfold w0.
    destruct (llmConfigs w !! provider) eqn:Hp; [apply Hv |].
    rewrite llmStored_insert. case_decide; [by rewrite lookup_empty |].
    apply Hv. }
  destruct config as [c| |]; [| apply Hv0..].
  cbv zeta. destruct (default ∅ (llmConfigs w0 !! provider) !! LLMName c)
    eqn:Hn; [apply Hv0 |].
  simpl. rewrite llmStored_insert. case_decide as Hp; [| apply Hv0].
  subst p. destruct (decide (n = LLMName c)) as [-> | Hne].
  - rewrite lookup_insert_eq. intros [= <-]. by exists c.
  - rewrite lookup_insert_ne by done. intros Hc. apply (Hv0 provider n).
    unfold llmStored. by destruct (llmConfigs w0 !! provider).
Qed.

Lemma DeleteLLMConfig_storesValues (provider name : string) (w : World) :
  storesValues w → storesValues (DeleteLLMConfig provider name w).2.
Proof.
  intros Hv p n c.
  destruct (DeleteLLMConfig_effect provider name w) as [Hgone Hsame].
  destruct (decide ((p, n) = (provider, name))) as [[= -> ->] | Hne].
  - by rewrite Hgone.
  - rewrite Hsame by done. apply Hv.
Qed.

(** The in-memory storage holds LLM configurations by value only: that is
    so in a storage without LLM configurations, and [SaveLLMConfig] and
    [DeleteLLMConfig] keep it so, whatever they are called with. *)
Theorem memory_storage_stores_values (provider name : string) (config : any)
  (w : World) :
  (llmConfigs w = ∅ → storesValues w) ∧
  (storesValues w → storesValues (SaveLLMConfig provider config w).2) ∧
  (storesValues w → storesValues (DeleteLLMConfig provider name w).2).
Proof.
  split_and!;
    [apply storesValues_empty | apply SaveLLMConfig_storesValues
    | apply DeleteLLMConfig_storesValues].
Qed.

(** A background task never gets past an LLM configuration that is stored
    by value, as the in-memory storage stores them all: the task wants a
    pointer.  Whatever the request, the task ends with the record of the
    request replaced by an error record, "Invalid LLM configuration type"
    where the configuration is stored and "not found" where it is not, and
    reaches neither the database nor the LLM. *)
Theorem value_configs_never_reach_orchestrator (request : AssistantRequest)
  (uuid : string) (w : World) :
  storesValues w →
  refusedWith E request uuid w
    (match llmStored w (LLMProvider (Options request))
             (LLMConfig_ (Options request)) with
     | Some _ => "Invalid LLM configuration type: expected *models.LLMConfig"
     | None =>
         "LLM configuration '" +:+ LLMConfig_ (Options request) +:+
         "' not found for provider '" +:+ LLMProvider (Options request) +:+
         "': database configuration not found"
     end).
Proof.
  intros Hv.
  destruct (llmStored w _ _) as [config|] eqn:Hs.
  - destruct (Hv _ _ _ Hs) as [c ->].
    apply (refused request uuid "Invalid LLM configuration type"
             (errorString "expected *models.LLMConfig")).
    unfold backgroundTask. rewrite bind_run. simpl.
    by rewrite LoadLLMConfig_stored, Hs.
  - match goal with |- refusedWith _ _ _ _ ?text =>
      replace text with
        (("LLM configuration '" +:+ LLMConfig_ (Options request) +:+
          "' not found for provider '" +:+
          LLMProvider (Options request) +:+ "'") +:+ ": " +:+
         Error ErrConfigNotFound)
        by (rewrite !append_assoc; reflexivity)
    end.
    apply (refused request uuid _ ErrConfigNotFound).
    unfold backgroundTask. rewrite bind_run. simpl.
    rewrite LoadLLMConfig_stored, Hs. by rewrite decide_True.
Qed.


End refusals.

Section refusals_scenario.
Import models memory_configs props scenario.
#[local] Existing Instance asciiOnly.

(** The witness of [value_configs_never_reach_orchestrator]: the accepted
    request, with the LLM configuration saved through [SaveLLMConfig]. *)
Lemma value_configs_never_reach_orchestrator_witness :
  storesValues
    (SaveLLMConfig "openai" (LLMConfig_value gpt)
       (set_llmConfigs ∅ accepted)).2 ∧
  refusedWith fine ask "u1"
    (SaveLLMConfig "openai" (LLMConfig_value gpt)
       (set_llmConfigs ∅ accepted)).2
    "Invalid LLM configuration type: expected *models.LLMConfig".
Proof.
  assert (storesValues
            (SaveLLMConfig "openai" (LLMConfig_value gpt)
               (set_llmConfigs ∅ accepted)).2) as Hv
    by by apply SaveLLMConfig_storesValues, storesValues_empty.
  split; [done |].
  apply (value_configs_never_reach_orchestrator fine ask "u1" _ Hv).
Defined.


End refusals_scenario.

(** * What the orchestration leaves alone *)

(** A part [f] of the process state that the primitive operations of a
    piece of code leave alone is left alone by the code. *)
Section frame.
Import spec props models storage.
Context `{UnicodeTables} (E : Env) {B : Type} (f : World → B).

Hypothesis load_frame : ∀ uuid, keeps f (LoadAssistantResponse uuid).
Hypothesis save_frame : ∀ r, keeps f (SaveAssistantResponse r).
Hypothesis now_frame : keeps f time_Now.
Hypothesis config_frame : ∀ name, keeps f (LoadDatabaseConfig name).
Hypothesis llm_frame : ∀ p name, keeps f (LoadLLMConfig p name).
Hypothesis open_frame : ∀ dsn, keeps f (source.sql_DB_Open E dsn).
Hypothesis alter_frame : ∀ g h, keeps f (source.alter_db g h).
Hypothesis lookup_frame : ∀ name, keeps f (source.lookup_pool name).
Hypothesis delete_frame : ∀ name, keeps f (source.delete_pool name).
Hypothesis store_frame : ∀ name h, keeps f (source.store_pool name h).
Hypothesis query_frame : ∀ h q, keeps f (source.db_QueryContext E h q).
Hypothesis complete_frame :
  ∀ o req, keeps f (orchestrator.provider_Complete E o req).

#[local] Hint Resolve load_frame save_frame now_frame config_frame llm_frame
  open_frame alter_frame lookup_frame delete_frame store_frame query_frame
  complete_frame : keeps.

Lemma AppendResponse_frame (uuid kind text : string) :
  keeps f (source.AppendResponse uuid kind text).
Proof. unfold source.AppendResponse. eauto 20 with keeps. Qed.

Lemma UpdateStatus_frame (uuid status : string) (success : bool) :
  keeps f (source.UpdateStatus uuid status success).
Proof. unfold source.UpdateStatus. eauto 20 with keeps. Qed.

#[local] Hint Resolve AppendResponse_frame UpdateStatus_frame : keeps.

Lemma handleError_frame (o : orchestrator.Orchestrator) (message : string)
  (e : error) :
  keeps f (orchestrator.handleError o message e).
Proof. unfold orchestrator.handleError. eauto 20 with keeps. Qed.

Lemma createConnectionPool_frame (config : DatabaseConfig) :
  keeps f (source.createConnectionPool E config).
Proof.
  unfold source.createConnectionPool, source.SetMaxOpenConns,
    source.SetMaxIdleConns, source.SetConnMaxLifetime, source.db_Close,
    source.db_Ping.
  eauto 20 with keeps.
Qed.

#[local] Hint Resolve handleError_frame createConnectionPool_frame : keeps.

Lemma LoadSource_frame (name : string) : keeps f (source.LoadSource E name).
Proof.
  unfold source.LoadSource, source.loadAndConnect, source.db_Ping.
  eauto 20 with keeps.
Qed.

Lemma GetSchema_frame (p : source.PostgresConnector) (uuid : string) :
  keeps f (source.GetSchema E p uuid).
Proof.
  unfold source.GetSchema, source.processSchemaRows. eauto 20 with keeps.
Qed.

Lemma ExecuteQuery_frame (p : source.PostgresConnector) (q : string) :
  keeps f (source.ExecuteQuery E p q).
Proof. unfold source.ExecuteQuery. eauto 20 with keeps. Qed.

#[local] Hint Resolve LoadSource_frame GetSchema_frame ExecuteQuery_frame
  : keeps.

Lemma connectToDatabase_frame (o : orchestrator.Orchestrator) :
  keeps f (orchestrator.connectToDatabase E o).
Proof. unfold orchestrator.connectToDatabase. eauto 20 with keeps. Qed.

Lemma fetchDatabaseSchema_frame (o : orchestrator.Orchestrator)
  (db : source.PostgresConnector) :
  keeps f (orchestrator.fetchDatabaseSchema E o db).
Proof. unfold orchestrator.fetchDatabaseSchema. eauto 20 with keeps. Qed.

Lemma generateSQLQuery_frame (o : orchestrator.Orchestrator)
  (schema question : string) :
  keeps f (orchestrator.generateSQLQuery E o schema question).
Proof. unfold orchestrator.generateSQLQuery. eauto 30 with keeps. Qed.

Lemma executeQuery_frame (o : orchestrator.Orchestrator)
  (db : source.PostgresConnector) (query : string) :
  keeps f (orchestrator.executeQuery E o db query).
Proof. unfold orchestrator.executeQuery. eauto 20 with keeps. Qed.

Lemma generateFinalResponse_frame (o : orchestrator.Orchestrator)
  (question : string) (queryResult : orchestrator.QueryResult) :
  keeps f (orchestrator.generateFinalResponse E o question queryResult).
Proof. unfold orchestrator.generateFinalResponse. eauto 30 with keeps. Qed.

#[local] Hint Resolve connectToDatabase_frame fetchDatabaseSchema_frame
  generateSQLQuery_frame executeQuery_frame generateFinalResponse_frame
  : keeps.

Lemma loadAssistantResponse_frame (o : orchestrator.Orchestrator) :
  keeps f (orchestrator.loadAssistantResponse o).
Proof. unfold orchestrator.loadAssistantResponse. eauto 20 with keeps. Qed.

#[local] Hint Resolve loadAssistantResponse_frame : keeps.

Lemma Run_frame (o : orchestrator.Orchestrator) :
  keeps f (orchestrator.Run E o).
Proof. unfold orchestrator.Run, orchestrator.steps. eauto 60 with keeps. Qed.

Lemma handleOrchestrationError_frame (uuid message : string) (e : error) :
  keeps f (handlers.handleOrchestrationError uuid message e).
Proof. unfold handlers.handleOrchestrationError. eauto 20 with keeps. Qed.

#[local] Hint Resolve Run_frame handleOrchestrationError_frame : keeps.

Lemma backgroundTask_frame (request : AssistantRequest) (uuid : string) :
  keeps f (handlers.backgroundTask E request uuid).
Proof. unfold handlers.backgroundTask. eauto 20 with keeps. Qed.

Lemma CreateAssistantRequest_frame (request : AssistantRequest)
  (uuid : string) :
  keeps f (handlers.CreateAssistantRequest request uuid).
Proof. unfold handlers.CreateAssistantRequest. eauto 20 with keeps. Qed.

End frame.

(** * What a run says to the database and to the LLM *)
Section returning.
Import spec props models storage.

Lemma returns_ret {A : Type} (a : A) : returns (mret a : M A).
Proof. intros w. by eexists _, _. Qed.

Lemma returns_bind {A B : Type} (m : M A) (k : A → M B) :
  returns m → (∀ a, returns (k a)) → returns (m ≫= k).
Proof.
  intros Hm Hk w. rewrite bind_run.
  destruct (Hm w) as (a & w' & ->). apply Hk.
Qed.

Lemma returns_lift {A : Type} (a : A) : returns (lift (Return a)).
Proof. intros w. by eexists _, _. Qed.

Lemma returns_recover (body : M unit) (handler : string → M unit) :
  (∀ v, returns (handler v)) → returns (recover body handler).
Proof.
  intros Hh w. unfold recover.
  destruct (body w) as [[[]|v] w']; [by eexists _, _ | apply Hh].
Qed.

End returning.

Create HintDb returns.

#[global] Hint Resolve returns_ret returns_bind returns_lift : returns.

#[global] Hint Extern 2 (props.returns (match ?x with _ => _ end)) =>
  destruct x : returns.

#[global] Hint Extern 2 (props.returns (let _ := _ in _)) =>
  cbv zeta : returns.

#[global] Hint Extern 9 (props.returns _) =>
  (intros ?; by eexists _, _) : returns.

Section conversation_facts.
Import spec props models storage llminterface orchestrator.
Context `{UnicodeTables} (E : Env).

Lemma Load_returns (uuid : string) : returns (LoadAssistantResponse uuid).
Proof.
  intros w. simpl. unfold memory.LoadAssistantResponse.
  case_match; by eexists _, _.
Qed.

Lemma LoadDatabaseConfig_returns (name : string) :
  returns (LoadDatabaseConfig name).
Proof.
  intros w. simpl. unfold memory.LoadDatabaseConfig.
  case_match; by eexists _, _.
Qed.

Lemma sql_DB_Open_returns (dsn : string) : returns (source.sql_DB_Open E dsn).
Proof.
  intros w. unfold source.sql_DB_Open. case_match; by eexists _, _.
Qed.

#[local] Hint Resolve Load_returns LoadDatabaseConfig_returns
  sql_DB_Open_returns : returns.

Lemma AppendResponse_returns (uuid kind text : string) :
  returns (source.AppendResponse uuid kind text).
Proof. unfold source.AppendResponse. eauto 20 with returns. Qed.

Lemma UpdateStatus_returns (uuid status : string) (success : bool) :
  returns (source.UpdateStatus uuid status success).
Proof. unfold source.UpdateStatus. eauto 20 with returns. Qed.

#[local] Hint Resolve AppendResponse_returns UpdateStatus_returns : returns.

Lemma handleError_returns (o : Orchestrator) (message : string) (e : error) :
  returns (handleError o message e).
Proof. unfold handleError. eauto 20 with returns. Qed.

Lemma createConnectionPool_returns (config : DatabaseConfig) :
  returns (source.createConnectionPool E config).
Proof.
  unfold source.createConnectionPool, source.SetMaxOpenConns,
    source.SetMaxIdleConns, source.SetConnMaxLifetime, source.db_Close,
    source.db_Ping.
  eauto 20 with returns.
Qed.

#[local] Hint Resolve handleError_returns createConnectionPool_returns
  : returns.

Lemma LoadSource_returns (name : string) : returns (source.LoadSource E name).
Proof.
  unfold source.LoadSource, source.loadAndConnect, source.db_Ping.
  eauto 20 with returns.
Qed.

#[local] Hint Resolve LoadSource_returns : returns.

Lemma connectToDatabase_returns (o : Orchestrator) :
  returns (connectToDatabase E o).
Proof. unfold connectToDatabase. eauto 20 with returns. Qed.

Lemma loadAssistantResponse_returns (o : Orchestrator) :
  returns (loadAssistantResponse o).
Proof. unfold loadAssistantResponse. eauto 20 with returns. Qed.

Lemma processSchemaRows_returns (uuid : string) (rows : Rows) :
  returns (source.processSchemaRows E uuid rows).
Proof. unfold source.processSchemaRows. eauto 20 with returns. Qed.

(** *** The traces *)

Lemma said_refl (w : World) : said w w [] [].
Proof. split; by rewrite app_nil_r. Qed.

Lemma said_traces (w0 w1 : World) : traces w1 = traces w0 → said w0 w1 [] [].
Proof.
  unfold traces. intros [= Hq Hc]. split; by rewrite app_nil_r.
Qed.

Lemma said_trans (w0 w1 w2 : World) (q1 q2 : list string)
  (c1 c2 : list CompletionRequest) :
  said w0 w1 q1 c1 → said w1 w2 q2 c2 → said w0 w2 (q1 ++ q2) (c1 ++ c2).
Proof.
  intros [Hq1 Hc1] [Hq2 Hc2]. split.
  - by rewrite Hq2, Hq1, app_assoc.
  - by rewrite Hc2, Hc1, app_assoc.
Qed.

Lemma quiet {A : Type} (m : M A) (w : World) :
  returns m → keeps traces m →
  ∃ a w', m w = (Return a, w') ∧ said w w' [] [].
Proof.
  intros Hr Hk. destruct (Hr w) as (a & w' & Heq). exists a, w'.
  split; [done |]. apply said_traces. specialize (Hk w). by rewrite Heq in Hk.
Qed.

Lemma Load_quiet {B : Type} (f : World → B) (uuid : string) :
  keeps f (LoadAssistantResponse uuid).
Proof.
  intros w. simpl. unfold memory.LoadAssistantResponse. by case_match.
Qed.

Lemma LoadDatabaseConfig_quiet {B : Type} (f : World → B) (name : string) :
  keeps f (LoadDatabaseConfig name).
Proof.
  intros w. simpl. unfold memory.LoadDatabaseConfig. by case_match.
Qed.

Lemma LoadLLMConfig_quiet {B : Type} (f : World → B) (p name : string) :
  keeps f (LoadLLMConfig p name).
Proof.
  intros w. simpl. unfold memory.LoadLLMConfig. by repeat case_match.
Qed.

Lemma sql_DB_Open_traces (dsn : string) :
  keeps traces (source.sql_DB_Open E dsn).
Proof. intros w. unfold source.sql_DB_Open. by case_match. Qed.

Lemma AppendResponse_traces (uuid kind text : string) :
  keeps traces (source.AppendResponse uuid kind text).
Proof. apply AppendResponse_frame; [apply Load_quiet | done..]. Qed.

Lemma UpdateStatus_traces (uuid status : string) (success : bool) :
  keeps traces (source.UpdateStatus uuid status success).
Proof. apply UpdateStatus_frame; [apply Load_quiet | done]. Qed.

Lemma handleError_traces (o : Orchestrator) (message : string) (e : error) :
  keeps traces (handleError o message e).
Proof. apply handleError_frame; [apply Load_quiet | done..]. Qed.

Lemma LoadSource_traces (name : string) :
  keeps traces (source.LoadSource E name).
Proof.
  apply LoadSource_frame;
    [apply LoadDatabaseConfig_quiet | apply sql_DB_Open_traces | done..].
Qed.

Lemma connectToDatabase_traces (o : Orchestrator) :
  keeps traces (connectToDatabase E o).
Proof.
  apply connectToDatabase_frame;
    [apply LoadDatabaseConfig_quiet | apply sql_DB_Open_traces | done..].
Qed.


Lemma said_step (w0 w1 w2 : World) (q1 q2 q : list string)
  (c1 c2 c : list CompletionRequest) :
  said w0 w1 q1 c1 → said w1 w2 q2 c2 → q = q1 ++ q2 → c = c1 ++ c2 →
  said w0 w2 q c.
Proof. intros H1 H2 -> ->. by eapply said_trans. Qed.

Lemma AppendResponse_said (uuid kind text : string) (w : World) :
  ∃ e w', source.AppendResponse uuid kind text w = (Return e, w') ∧
          said w w' [] [].
Proof.
  apply quiet; [apply AppendResponse_returns | apply AppendResponse_traces].
Qed.

Lemma UpdateStatus_said (uuid status : string) (success : bool) (w : World) :
  ∃ e w', source.UpdateStatus uuid status success w = (Return e, w') ∧
          said w w' [] [].
Proof.
  apply quiet; [apply UpdateStatus_returns | apply UpdateStatus_traces].
Qed.

Lemma handleError_said (o : Orchestrator) (message : string) (e : error)
  (w : World) :
  ∃ w', handleError o message e w = (Return tt, w') ∧ said w w' [] [].
Proof.
  destruct (quiet (handleError o message e) w) as ([] & w' & Heq & Hs);
    [apply handleError_returns | apply handleError_traces |].
  by exists w'.
Qed.

Lemma connectToDatabase_said (o : Orchestrator) (w : World) :
  ∃ r w', connectToDatabase E o w = (Return r, w') ∧ said w w' [] [].
Proof.
  apply quiet;
    [apply connectToDatabase_returns | apply connectToDatabase_traces].
Qed.

Lemma processSchemaRows_said (uuid : string) (rows : Rows) (w : World) :
  ∃ r w', source.processSchemaRows E uuid rows w = (Return r, w') ∧
          said w w' [] [].
Proof.
  apply quiet; [apply processSchemaRows_returns |].
  unfold source.processSchemaRows.
  pose proof AppendResponse_traces. eauto 20 with keeps.
Qed.

Lemma db_QueryContext_said (h : nat) (query : string) (w : World) :
  ∃ w', source.db_QueryContext E h query w = (QueryContext E h query, w') ∧
        said w w' [query] [].
Proof. eexists. split; [reflexivity |]. split; [done |]. by rewrite app_nil_r. Qed.

Lemma provider_Complete_said (o : Orchestrator) (req : CompletionRequest)
  (w : World) :
  ∃ w', provider_Complete E o req w = (Complete E (provider o) req, w') ∧
        said w w' [] [req].
Proof. eexists. split; [reflexivity |]. split; [by rewrite app_nil_r | done]. Qed.

Lemma GetSchema_said (p : source.PostgresConnector) (uuid : string)
  (w : World) :
  ∃ r w', source.GetSchema E p uuid w = (r, w') ∧
          said w w' [source.getSchemaQuery] [].
Proof.
  unfold source.GetSchema. rewrite bind_run.
  destruct (AppendResponse_said uuid "step_output"
              "Fetching database schema..." w) as (e & w1 & -> & Hs1).
  rewrite bind_run.
  destruct (db_QueryContext_said (source.db p) source.getSchemaQuery w1)
    as (w2 & -> & Hs2).
  assert (said w w2 [source.getSchemaQuery] []) as Hs
    by by eapply said_step.
  destruct (QueryContext E _ _) as [[rows|e']|v]; [| by eexists _, _..].
  destruct (processSchemaRows_said uuid rows w2) as (r & w3 & -> & Hs3).
  eexists _, _. split; [done |]. by eapply said_step.
Qed.

Lemma fetchDatabaseSchema_said (o : Orchestrator)
  (db : source.PostgresConnector) (w : World) :
  ∃ r w', fetchDatabaseSchema E o db w = (r, w') ∧
          said w w' [source.getSchemaQuery] [].
Proof.
  unfold fetchDatabaseSchema. rewrite bind_run.
  destruct (GetSchema_said db (askID o) w) as (r & w1 & -> & Hs).
  destruct r as [[schema|e]|v]; by eexists _, _.
Qed.

Lemma generateSQLQuery_said (o : Orchestrator) (schema question : string)
  (w : World) :
  ∃ r w',
    generateSQLQuery E o schema question w = (r, w') ∧
    said w w' [] [sqlRequest schema question] ∧
    ∀ query, r = Return (ok query) →
      extracted E o (sqlRequest schema question) "sql" query.
Proof.
  unfold generateSQLQuery. rewrite bind_run.
  destruct (AppendResponse_said (askID o) "step_output"
              "Generating SQL query... please wait" w)
    as (e & w1 & -> & Hs1).
  cbv zeta. rewrite bind_run.
  destruct (provider_Complete_said o (sqlRequest schema question) w1)
    as (w2 & Hc & Hs2).
  change (provider_Complete E o _ w1)
    with (provider_Complete E o (sqlRequest schema question) w1).
  rewrite Hc.
  assert (said w w2 [] [sqlRequest schema question]) as Hs
    by by eapply said_step.
  destruct (Complete E (provider o) (sqlRequest schema question))
    as [[c e']|v] eqn:Hanswer; [| by eexists _, _].
  rewrite bind_run. unfold lift at 1.
  destruct c as [c|], e' as [e'|]; simpl completionContent; cbv iota beta;
    try by eexists _, _.
  rewrite bind_run. unfold lift at 1.
  destruct (prompt.ExtractResponse "sql" (ResponseContent c))
    as [query|v] eqn:Hex; [| by eexists _, _].
  cbv iota beta. case_decide as Hq; [by eexists _, _ |].
  rewrite bind_run.
  destruct (AppendResponse_said (askID o) "step_output" query w2)
    as (e2 & w3 & -> & Hs3).
  assert (said w w3 [] [sqlRequest schema question]) as Hs'
    by by eapply said_step.
  destruct e2 as [e2|]; eexists _, _; (split; [done |]); (split; [done |]).
  - done.
  - intros ? [= <-]. by exists c.
Qed.

Lemma executeQuery_said (o : Orchestrator) (db : source.PostgresConnector)
  (query : string) (w : World) :
  ∃ r w', executeQuery E o db query w = (r, w') ∧ said w w' [query] [].
Proof.
  unfold executeQuery, source.ExecuteQuery. rewrite !bind_run.
  destruct (db_QueryContext_said (source.db db) query w) as (w1 & -> & Hs1).
  destruct (QueryContext E _ _) as [[rows|e]|v]; [| by eexists _, _..].
  unfold mret at 1, M_ret at 1.
  destruct (source.processQueryResults rows) as [data|e];
    [| by eexists _, _].
  rewrite bind_run.
  destruct (AppendResponse_said (askID o) "step_output"
              "Query executed successfully" w1) as (e & w2 & -> & Hs2).
  eexists _, _. split; [done |]. by eapply said_step.
Qed.

Lemma generateFinalResponse_said (o : Orchestrator) (question : string)
  (queryResult : QueryResult) (w : World) :
  ∃ r w',
    generateFinalResponse E o question queryResult w = (r, w') ∧
    (said w w' [] [] ∨
     ∃ resultJSON, said w w' [] [reportRequest question resultJSON]).
Proof.
  unfold generateFinalResponse.
  destruct (json_Marshal E (Data queryResult)) as [resultJSON|e];
    [| eexists _, _; split; [done |]; left; apply said_refl].
  cbv zeta. rewrite bind_run.
  destruct (AppendResponse_said (askID o) "step_output"
              "Generating report..." w) as (e & w1 & -> & Hs1).
  rewrite bind_run.
  destruct (provider_Complete_said o (reportRequest question resultJSON) w1)
    as (w2 & Hc & Hs2).
  change (provider_Complete E o _ w1)
    with (provider_Complete E o (reportRequest question resultJSON) w1).
  rewrite Hc.
  assert (said w w2 [] [reportRequest question resultJSON]) as Hs
    by by eapply said_step.
  destruct (Complete E (provider o) (reportRequest question resultJSON))
    as [[c e']|v]; [| by eexists _, _; eauto].
  rewrite bind_run. unfold lift at 1.
  destruct c as [c|], e' as [e'|]; simpl completionContent; cbv iota beta;
    try by (eexists _, _; eauto).
  rewrite bind_run. unfold lift at 1.
  destruct (prompt.ExtractResponse "markdown" (ResponseContent c))
    as [markdown|v]; [| by eexists _, _; eauto].
  cbv iota beta. case_decide as Hq; [by eexists _, _; eauto |].
  rewrite bind_run.
  destruct (AppendResponse_said (askID o) "final_response" markdown w2)
    as (e2 & w3 & -> & Hs3).
  assert (said w w3 [] [reportRequest question resultJSON]) as Hs'
    by by eapply said_step.
  destruct e2 as [e2|]; eexists _, _; eauto.
Qed.

Lemma loadAssistantResponse_run (o : Orchestrator) (w : World) :
  loadAssistantResponse o w
  = (Return match assistantResponses w !! askID o with
            | Some response => ok response
            | None => err (wrapError "failed to load assistant response: "
                             ErrResponseNotFound)
            end, w).
Proof.
  unfold loadAssistantResponse. rewrite bind_run. simpl.
  unfold memory.LoadAssistantResponse.
  by destruct (assistantResponses w !! askID o).
Qed.

Lemma steps_said (o : Orchestrator) (w : World) :
  ∃ r w' qs cs,
    steps E o w = (r, w') ∧ said w w' qs cs ∧ conversation E o w qs cs.
Proof.
  unfold steps. rewrite bind_run, loadAssistantResponse_run.
  destruct (assistantResponses w !! askID o) as [response|] eqn:Hr.
  2:{ destruct (handleError_said o "Failed to load assistant response"
                  (wrapError "failed to load assistant response: "
                     ErrResponseNotFound) w) as (w' & -> & Hs).
      exists (Return tt), w', [], []. split_and!; [done | done |]. by left. }
  rewrite bind_run.
  destruct (connectToDatabase_said o w) as (r1 & w1 & -> & Hs1).
  destruct r1 as [db|e].
  2:{ rewrite bind_run.
      destruct (AppendResponse_said (askID o) "error"
                  ("Failed to connect to database: " +:+ Error e) w1)
        as (e1 & w2 & -> & Hs2).
      destruct (handleError_said o "Failed to connect to database" e w2)
        as (w3 & -> & Hs3).
      exists (Return tt), w3, [], []. split_and!; [done | | by left].
      eapply (said_step w w2 w3 [] [] [] [] [] []); [| done..].
      by eapply (said_step w w1 w2 [] [] [] [] [] []). }
  rewrite bind_run.
  destruct (fetchDatabaseSchema_said o db w1) as (r2 & w2 & -> & Hs2).
  assert (said w w2 [source.getSchemaQuery] []) as Hs12
    by by eapply said_step.
  destruct r2 as [[schema|e]|v].
  3:{ eexists _, _, _, _. split_and!; [done | done |]. right. by left. }
  2:{ destruct (handleError_said o "Failed to fetch database schema" e w2)
        as (w3 & -> & Hs3).
      eexists _, _, _, _. split_and!; [done | | right; by left].
      by eapply said_step. }
  rewrite bind_run.
  destruct (generateSQLQuery_said o schema (Question response) w2)
    as (r3 & w3 & -> & Hs3 & Hex).
  assert (said w w3 [source.getSchemaQuery]
            [sqlRequest schema (Question response)]) as Hs123
    by by eapply said_step.
  assert (conversation E o w [source.getSchemaQuery]
            [sqlRequest schema (Question response)]) as Hconv3.
  { right. right. exists response, schema. split; [done |]. by left. }
  destruct r3 as [[query|e]|v].
  3:{ by eexists _, _, _, _. }
  2:{ destruct (handleError_said o "Failed to generate SQL query" e w3)
        as (w4 & -> & Hs4).
      eexists _, _, _, _. split_and!; [done | | done].
      by eapply said_step. }
  specialize (Hex query eq_refl).
  rewrite bind_run.
  destruct (executeQuery_said o db query w3) as (r4 & w4 & -> & Hs4).
  assert (said w w4 [source.getSchemaQuery; query]
            [sqlRequest schema (Question response)]) as Hs1234
    by by eapply said_step.
  assert (conversation E o w [source.getSchemaQuery; query]
            [sqlRequest schema (Question response)]) as Hconv4.
  { right. right. exists response, schema. split; [done |]. right.
    exists query. split_and!; [done | done |]. by left. }
  destruct r4 as [[queryResult|e]|v].
  3:{ by eexists _, _, _, _. }
  2:{ destruct (handleError_said o "Failed to execute query" e w4)
        as (w5 & -> & Hs5).
      eexists _, _, _, _. split_and!; [done | | done].
      by eapply said_step. }
  rewrite bind_run.
  destruct (generateFinalResponse_said o (Question response) queryResult w4)
    as (r5 & w5 & -> & Hs5).
  assert (∃ cs, said w w5 [source.getSchemaQuery; query] cs ∧
                conversation E o w [source.getSchemaQuery; query] cs)
    as (cs & Hs12345 & Hconv5).
  { destruct Hs5 as [Hs5 | [resultJSON Hs5]].
    - eexists. split; [by eapply said_step | done].
    - eexists. split; [by eapply said_step |].
      right. right. exists response, schema. split; [done |]. right.
      exists query. split_and!; [done | done |]. right. by exists resultJSON. }
  destruct r5 as [[e|]|v].
  3:{ by eexists _, _, _, _. }
  - destruct (handleError_said o "Failed to generate final response" e w5)
      as (w6 & -> & Hs6).
    eexists _, _, _, _. split_and!; [done | | done].
    eapply said_step; [exact Hs12345 | exact Hs6 | by rewrite app_nil_r..].
  - rewrite bind_run.
    destruct (UpdateStatus_said (askID o) "completed" true w5)
      as (e & w6 & -> & Hs6).
    eexists _, _, _, _. split_and!; [done | | done].
    eapply said_step; [exact Hs12345 | exact Hs6 | by rewrite app_nil_r..].
Qed.

End conversation_facts.

(** * Runs, step by step *)
Section run_paths.
Import spec props models storage llminterface orchestrator.
Context `{UnicodeTables} (E : Env).

(** A run talks to the outside in one fixed order.  What it has sent when
    it ends, to the database and to the LLM, is at most two queries and two
    requests: first the schema query, then the SQL request, then as its
    second query the very text that [ExtractResponse] found between the sql
    tags of the LLM's answer, and then the report request. *)
Theorem run_conversation (o : Orchestrator) (w : World) :
  ∃ qs cs,
    said w (Run E o w).2 qs cs ∧ conversation E o w qs cs.
Proof.
  unfold Run, recover.
  destruct (steps_said E o w) as (r & w1 & qs & cs & -> & Hs & Hconv).
  destruct r as [[]|v]; [by eexists _, _ |].
  rewrite bind_run.
  destruct (UpdateStatus_said (askID o) "failed" false w1)
    as (e & w2 & -> & Hs2).
  eexists _, _. split; [| done]. simpl.
  eapply said_step; [exact Hs | exact Hs2 | by rewrite app_nil_r..].
Qed.

Lemma logged_journal (w w' : World) (uuid : string) (r : AssistantResponse)
  (now : Z) :
  journal w' = journal w → logged w uuid r now → logged w' uuid r now.
Proof. unfold journal, logged. intros [= -> ->]. done. Qed.

Lemma AppendResponse_logged (uuid kind text : string)
  (r : AssistantResponse) (now : Z) (w : World) :
  logged w uuid r now →
  ∃ w', source.AppendResponse uuid kind text w = (Return None, w') ∧
        logged w' uuid (appendUpdate r (update kind text now)) (now + 1) ∧
        traces w' = traces w.
Proof.
  intros (Hr & Hu & Hc). eexists. split; [by apply AppendResponse_found |].
  split; [| done]. unfold logged. simpl.
  rewrite Hu, lookup_insert_eq, Hc. done.
Qed.

Lemma UpdateStatus_logged (uuid status : string) (success : bool)
  (r : AssistantResponse) (now : Z) (w : World) :
  logged w uuid r now →
  ∃ w', source.UpdateStatus uuid status success w = (Return None, w') ∧
        logged w' uuid (setStatus r status success) now ∧
        traces w' = traces w.
Proof.
  intros (Hr & Hu & Hc). eexists. split; [by apply UpdateStatus_found |].
  split; [| done]. unfold logged. simpl.
  rewrite Hu, lookup_insert_eq. done.
Qed.

Lemma handleError_logged (o : Orchestrator) (message : string) (e : error)
  (r : AssistantResponse) (now : Z) (w : World) :
  logged w (askID o) r now →
  ∃ w', handleError o message e w = (Return tt, w') ∧
        logged w' (askID o)
          (setStatus
             (appendUpdate r
                (update "error" (message +:+ ": " +:+ Error e) now))
             "failed" false) (now + 1) ∧
        traces w' = traces w.
Proof.
  intros Hl. unfold handleError. rewrite bind_run.
  destruct (AppendResponse_logged _ "error"
              (message +:+ ": " +:+ Error e) _ _ _ Hl)
    as (w1 & -> & Hl1 & Ht1).
  rewrite bind_run.
  destruct (UpdateStatus_logged _ "failed" false _ _ _ Hl1)
    as (w2 & -> & Hl2 & Ht2).
  eexists. split; [done |]. split; [done | congruence].
Qed.

Lemma sql_DB_Open_journal (dsn : string) :
  keeps journal (source.sql_DB_Open E dsn).
Proof. intros w. unfold source.sql_DB_Open. by case_match. Qed.

Lemma LoadSource_journal (name : string) :
  keeps journal (source.LoadSource E name).
Proof.
  apply LoadSource_frame;
    [apply LoadDatabaseConfig_quiet | apply sql_DB_Open_journal | done..].
Qed.

(** A run for a request that the response store does not hold changes
    nothing at all: its errors go to the log only. *)
Theorem run_on_unknown_request (o : Orchestrator) (w : World) :
  assistantResponses w !! askID o = None → Run E o w = (Return tt, w).
Proof.
  intros Hr. unfold Run, recover, steps.
  rewrite bind_run, loadAssistantResponse_run, Hr.
  unfold handleError. rewrite bind_run.
  rewrite (AppendResponse_missing _ _ _ _ Hr). cbv iota beta.
  rewrite bind_run. by rewrite (UpdateStatus_missing _ _ _ _ Hr).
Qed.

(** When the source database cannot be resolved and the server of the
    storage answers every call without an error, the run ends with the
    response failed and without success, and with the same error text in
    it twice, at successive times: [Run] appends the text, and
    [handleError] appends it again.  Nothing is sent to the database or to
    the LLM. *)
Theorem connection_failure_is_logged_twice (S : postgres.Server)
  (o : Orchestrator) (r0 : AssistantResponse) (e : error) (w : World) :
  postgres.reliable S →
  assistantResponses w !! askID o = Some r0 → UUID r0 = askID o →
  (wired.LoadSource E S (dbConfigName o) w).1 = Return (err e) →
  ∃ w' text,
    wired.Run E S o w = (Return tt, w') ∧
    text = "Failed to connect to database: failed to connect to source database: "
           +:+ Error e ∧
    assistantResponses w' !! askID o
    = Some {| UUID := UUID r0; Question := Question r0; Success := false;
              Status := "failed";
              Response := Response r0 ++
                          [update "error" text (clock w);
                           update "error" text (clock w + 1)] |} ∧
    traces w' = traces w.
Proof.
  intros Hrel Hr Hu Hconn.
  rewrite (Run_reliable E S Hrel).
  rewrite (LoadSource_reliable E S Hrel) in Hconn.
  assert (logged w (askID o) r0 (clock w)) as Hl by done.
  unfold Run, recover, steps.
  rewrite bind_run, loadAssistantResponse_run, Hr. rewrite bind_run.
  unfold connectToDatabase. rewrite bind_run.
  pose proof (LoadSource_journal (dbConfigName o) w) as Hj.
  pose proof (LoadSource_traces E (dbConfigName o) w) as Ht.
  destruct (source.LoadSource E (dbConfigName o) w) as [r1 w1].
  simpl in Hconn, Hj, Ht. subst r1. cbv iota beta.
  unfold mret at 1, M_ret at 1. cbv iota beta.
  apply (logged_journal _ _ _ _ _ Hj) in Hl.
  rewrite bind_run.
  destruct (AppendResponse_logged _ "error"
              ("Failed to connect to database: " +:+
               Error (wrapError "failed to connect to source database: " e))
              _ _ _ Hl) as (w2 & -> & Hl2 & Ht2).
  destruct (handleError_logged o "Failed to connect to database"
              (wrapError "failed to connect to source database: " e)
              _ _ _ Hl2) as (w3 & -> & Hl3 & Ht3).
  eexists _, _. split_and!; [done | reflexivity | | congruence].
  destruct Hl3 as (-> & _ & _). f_equal.
  unfold setStatus, appendUpdate. simpl. f_equal.
  by rewrite <- app_assoc.
Qed.


Lemma db_QueryContext_logged (h : nat) (query uuid : string)
  (r : AssistantResponse) (now : Z) (w : World) :
  logged w uuid r now →
  ∃ w', source.db_QueryContext E h query w = (QueryContext E h query, w') ∧
        logged w' uuid r now ∧ said w w' [query] [].
Proof.
  intros Hl. destruct (db_QueryContext_said E h query w) as (w' & Heq & Hs).
  exists w'. split_and!; [done | | done].
  injection Heq as <-. done.
Qed.

Lemma provider_Complete_logged (o : Orchestrator) (req : CompletionRequest)
  (uuid : string) (r : AssistantResponse) (now : Z) (w : World) :
  logged w uuid r now →
  ∃ w', provider_Complete E o req w = (Complete E (provider o) req, w') ∧
        logged w' uuid r now ∧ said w w' [] [req].
Proof.
  intros Hl. destruct (provider_Complete_said E o req w) as (w' & Heq & Hs).
  exists w'. split_and!; [done | | done].
  injection Heq as <-. done.
Qed.

Lemma AppendResponse_record (uuid question status kind text : string)
  (success : bool) (updates : list Update) (now : Z) (w : World) :
  logged w uuid
    {| UUID := uuid; Question := question; Success := success;
       Status := status; Response := updates |} now →
  ∃ w', source.AppendResponse uuid kind text w = (Return None, w') ∧
        logged w' uuid
          {| UUID := uuid; Question := question; Success := success;
             Status := status;
             Response := updates ++ [update kind text now] |} (now + 1) ∧
        said w w' [] [].
Proof.
  intros Hl.
  destruct (AppendResponse_logged uuid kind text _ _ _ Hl)
    as (w' & Heq & Hl' & Ht).
  exists w'. split_and!; [done | done | by apply said_traces].
Qed.

Lemma UpdateStatus_record (uuid question status status' : string)
  (success success' : bool) (updates : list Update) (now : Z) (w : World) :
  logged w uuid
    {| UUID := uuid; Question := question; Success := success;
       Status := status; Response := updates |} now →
  ∃ w', source.UpdateStatus uuid status' success' w = (Return None, w') ∧
        logged w' uuid
          {| UUID := uuid; Question := question; Success := success';
             Status := status'; Response := updates |} now ∧
        said w w' [] [].
Proof.
  intros Hl.
  destruct (UpdateStatus_logged uuid status' success' _ _ _ Hl)
    as (w' & Heq & Hl' & Ht).
  exists w'. split_and!; [done | done | by apply said_traces].
Qed.

(** A run that meets no error leaves the response completed, with eight
    updates after those it started with, in this order and stamped with
    successive readings of the clock: three of the schema retrieval, the
    announcement of the SQL generation and the query found in the LLM's
    answer, the execution, the announcement of the report and, as the final
    response, the markdown found in the LLM's second answer.  It has sent
    the schema query and that query to the database, and the two requests
    to the LLM. *)
Theorem successful_run_log (o : Orchestrator) (r0 : AssistantResponse)
  (db : source.PostgresConnector) (rows rows2 : Rows)
  (schema query resultJSON markdown : string) (tables : list string)
  (c1 c2 : CompletionResponse) (data : list (gmap string driverValue))
  (w : World) :
  assistantResponses w !! askID o = Some r0 → UUID r0 = askID o →
  (source.LoadSource E (dbConfigName o) w).1 = Return (ok db) →
  QueryContext E (source.db db) source.getSchemaQuery = Return (ok rows) →
  source.scanSchemaRows E (records rows)
    ("Database Schema:" +:+ source.nl +:+ source.nl) []
  = ok (schema, tables) →
  Err rows = None →
  Complete E (provider o) (sqlRequest schema (Question r0))
  = Return (Some c1, None) →
  prompt.ExtractResponse "sql" (ResponseContent c1) = Return query →
  query ≠ EmptyString →
  QueryContext E (source.db db) query = Return (ok rows2) →
  source.processQueryResults rows2 = ok data →
  json_Marshal E data = ok resultJSON →
  Complete E (provider o) (reportRequest (Question r0) resultJSON)
  = Return (Some c2, None) →
  prompt.ExtractResponse "markdown" (ResponseContent c2)
  = Return markdown →
  markdown ≠ EmptyString →
  ∃ w',
    Run E o w = (Return tt, w') ∧
    assistantResponses w' !! askID o
    = Some {| UUID := UUID r0; Question := Question r0; Success := true;
              Status := "completed";
              Response :=
                Response r0 ++
                [ update "step_output" "Fetching database schema..."
                    (clock w);
                  update "debug_log"
                    ("Processed tables: " +:+ GoStrings.Join tables ", ")
                    (clock w + 1);
                  update "step_output" "Schema retrieval completed"
                    (clock w + 2);
                  update "step_output" "Generating SQL query... please wait"
                    (clock w + 3);
                  update "step_output" query (clock w + 4);
                  update "step_output" "Query executed successfully"
                    (clock w + 5);
                  update "step_output" "Generating report..." (clock w + 6);
                  update "final_response" markdown (clock w + 7) ] |} ∧
    said w w' [source.getSchemaQuery; query]
      [sqlRequest schema (Question r0);
       reportRequest (Question r0) resultJSON].
Proof.
  intros Hr Hu Hconn Hq1 Hscan Herr Hc1 Hx1 Hne1 Hq2 Hdata Hjson Hc2 Hx2 Hne2.
  destruct r0 as [u question success status updates]. simpl in *. subst u.
  assert (logged w (askID o)
            {| UUID := askID o; Question := question; Success := success;
               Status := status; Response := updates |} (clock w)) as Hl
    by done.
  unfold Run, recover, steps.
  rewrite bind_run, loadAssistantResponse_run, Hr. rewrite bind_run.
  (* connect *)
  unfold connectToDatabase. rewrite bind_run.
  pose proof (LoadSource_journal (dbConfigName o) w) as Hj.
  pose proof (LoadSource_traces E (dbConfigName o) w) as Ht.
  destruct (source.LoadSource E (dbConfigName o) w) as [r1 w1].
  simpl in Hconn, Hj, Ht. subst r1. cbv iota beta.
  unfold mret at 1, M_ret at 1. cbv iota beta.
  apply (logged_journal _ _ _ _ _ Hj) in Hl. apply said_traces in Ht.
  (* schema *)
  rewrite bind_run. unfold fetchDatabaseSchema. rewrite bind_run.
  unfold source.GetSchema. rewrite bind_run.
  destruct (AppendResponse_record _ _ _ "step_output"
              "Fetching database schema..." _ _ _ _ Hl)
    as (w2 & -> & Hl2 & Ht2).
  rewrite bind_run.
  destruct (db_QueryContext_logged (source.db db) source.getSchemaQuery
              _ _ _ _ Hl2) as (w3 & -> & Hl3 & Ht3).
  rewrite Hq1. cbv iota beta. unfold source.processSchemaRows.
  rewrite Hscan. rewrite bind_run.
  destruct (AppendResponse_record _ _ _ "debug_log"
              ("Processed tables: " +:+ GoStrings.Join tables ", ")
              _ _ _ _ Hl3) as (w4 & -> & Hl4 & Ht4).
  rewrite Herr. rewrite bind_run.
  destruct (AppendResponse_record _ _ _ "step_output"
              "Schema retrieval completed" _ _ _ _ Hl4)
    as (w5 & -> & Hl5 & Ht5).
  unfold mret at 1, M_ret at 1. cbv iota beta.
  unfold mret at 1, M_ret at 1. cbv iota beta.
  (* SQL *)
  rewrite bind_run. unfold generateSQLQuery. rewrite bind_run.
  destruct (AppendResponse_record _ _ _ "step_output"
              "Generating SQL query... please wait" _ _ _ _ Hl5)
    as (w6 & -> & Hl6 & Ht6).
  cbv zeta. rewrite bind_run.
  destruct (provider_Complete_logged o (sqlRequest schema question)
              _ _ _ _ Hl6) as (w7 & Heq7 & Hl7 & Ht7).
  change (provider_Complete E o _ w6)
    with (provider_Complete E o (sqlRequest schema question) w6).
  rewrite Heq7, Hc1. rewrite bind_run. unfold lift at 1.
  simpl completionContent. cbv iota beta.
  rewrite bind_run. unfold lift at 1. rewrite Hx1. cbv iota beta.
  rewrite decide_False by done. rewrite bind_run.
  destruct (AppendResponse_record _ _ _ "step_output" query _ _ _ _ Hl7)
    as (w8 & -> & Hl8 & Ht8).
  unfold mret at 1, M_ret at 1. cbv iota beta.
  (* query *)
  rewrite bind_run. unfold executeQuery, source.ExecuteQuery.
  rewrite !bind_run.
  destruct (db_QueryContext_logged (source.db db) query _ _ _ _ Hl8)
    as (w9 & -> & Hl9 & Ht9).
  rewrite Hq2. cbv iota beta. unfold mret at 1, M_ret at 1.
  rewrite Hdata. rewrite bind_run.
  destruct (AppendResponse_record _ _ _ "step_output"
              "Query executed successfully" _ _ _ _ Hl9)
    as (w10 & -> & Hl10 & Ht10).
  unfold mret at 1, M_ret at 1. cbv iota beta.
  (* report *)
  rewrite bind_run. unfold generateFinalResponse. cbn [Data].
  rewrite Hjson. cbv zeta. rewrite bind_run.
  destruct (AppendResponse_record _ _ _ "step_output" "Generating report..."
              _ _ _ _ Hl10) as (w11 & -> & Hl11 & Ht11).
  rewrite bind_run.
  destruct (provider_Complete_logged o
              (reportRequest question resultJSON) _ _ _ _ Hl11)
    as (w12 & Heq12 & Hl12 & Ht12).
  change (provider_Complete E o _ w11)
    with (provider_Complete E o (reportRequest question resultJSON)
            w11).
  rewrite Heq12, Hc2. rewrite bind_run. unfold lift at 1.
  simpl completionContent. cbv iota beta.
  rewrite bind_run. unfold lift at 1. rewrite Hx2. cbv iota beta.
  rewrite decide_False by done. rewrite bind_run.
  destruct (AppendResponse_record _ _ _ "final_response" markdown _ _ _ _ Hl12)
    as (w13 & -> & Hl13 & Ht13).
  unfold mret at 1, M_ret at 1. cbv iota beta.
  (* status *)
  rewrite bind_run.
  destruct (UpdateStatus_record _ _ _ "completed" _ true _ _ _ Hl13)
    as (w14 & -> & Hl14 & Ht14).
  exists w14. split_and!; [done | |].
  - destruct Hl14 as (-> & _ & _). f_equal. f_equal.
    rewrite <- !app_assoc. simpl. rewrite <- !Z.add_assoc. done.
  - pose proof (said_trans _ _ _ _ _ _ _ Ht Ht2) as S2.
    pose proof (said_trans _ _ _ _ _ _ _ S2 Ht3) as S3.
    pose proof (said_trans _ _ _ _ _ _ _ S3 Ht4) as S4.
    pose proof (said_trans _ _ _ _ _ _ _ S4 Ht5) as S5.
    pose proof (said_trans _ _ _ _ _ _ _ S5 Ht6) as S6.
    pose proof (said_trans _ _ _ _ _ _ _ S6 Ht7) as S7.
    pose proof (said_trans _ _ _ _ _ _ _ S7 Ht8) as S8.
    pose proof (said_trans _ _ _ _ _ _ _ S8 Ht9) as S9.
    pose proof (said_trans _ _ _ _ _ _ _ S9 Ht10) as S10.
    pose proof (said_trans _ _ _ _ _ _ _ S10 Ht11) as S11.
    pose proof (said_trans _ _ _ _ _ _ _ S11 Ht12) as S12.
    pose proof (said_trans _ _ _ _ _ _ _ S12 Ht13) as S13.
    exact (said_trans _ _ _ _ _ _ _ S13 Ht14).
Qed.

End run_paths.

Section run_paths_scenario.
Import spec props models storage llminterface scenario.
#[local] Existing Instance asciiOnly.

(** The witness of [run_on_unknown_request]: the orchestrator of [u1] in a
    process that has not accepted the request. *)
Lemma run_on_unknown_request_witness :
  orchestrator.Run fine orc start = (Return tt, start).
Proof. apply (run_on_unknown_request fine orc start). reflexivity. Defined.

(** The witness of [connection_failure_is_logged_twice]: the accepted
    request, for a database configuration that is not stored. *)
Lemma connection_failure_is_logged_twice_witness :
  postgres.reliable postgres.steady ∧
  ∃ w' text,
    wired.Run fine postgres.steady
      {| orchestrator.provider := orchestrator.provider orc;
         orchestrator.askID := "u1";
         orchestrator.dbConfigName := "nowhere" |} wired.accepted
    = (Return tt, w') ∧
    text = "Failed to connect to database: failed to connect to source database: failed to load database config: database configuration not found" ∧
    Response <$> assistantResponses w' !! "u1"
    = Some (Response initial ++
            [update "error" text 1; update "error" text 2]).
Proof.
  split; [apply steady_reliable |].
  destruct (connection_failure_is_logged_twice fine postgres.steady
              {| orchestrator.provider := orchestrator.provider orc;
                 orchestrator.askID := "u1";
                 orchestrator.dbConfigName := "nowhere" |}
              initial
              (wrapError "failed to load database config: "
                 ErrConfigNotFound) wired.accepted)
    as (w' & text & Hrun & Htext & Hr & _);
    [apply steady_reliable | apply wired_accepted_holds_initial
    | reflexivity | reflexivity |].
  exists w', text. split_and!; [done | by rewrite Htext |].
  simpl in Hr. by rewrite Hr.
Defined.

(** The witness of [successful_run_log]: the accepted request, with a
    database and an LLM that answer well. *)
Lemma successful_run_log_witness :
  ∃ w' schema,
    orchestrator.Run fine orc accepted = (Return tt, w') ∧
    Status <$> assistantResponses w' !! "u1" = Some "completed" ∧
    said accepted w'
      [source.getSchemaQuery;
       "select name, sum(qty) from products group by name order by 2 desc limit 5"]
      [sqlRequest schema "Show me the top 5 products by sales volume";
       reportRequest "Show me the top 5 products by sales volume" "[{}]"].
Proof.
  edestruct (successful_run_log fine orc initial
               (source.NewPostgresConnector 0) schemaRows dataRows)
    as (w' & Hrun & Hr & Hs);
    [apply accepted_holds_initial | reflexivity | reflexivity | reflexivity
    | vm_compute; reflexivity | reflexivity | reflexivity
    | vm_compute; reflexivity | | reflexivity | vm_compute; reflexivity
    | reflexivity | reflexivity | vm_compute; reflexivity | |].
  - done.
  - done.
  - eexists w', _. split_and!; [exact Hrun | | exact Hs].
    simpl in Hr. by rewrite Hr.
Defined.

End run_paths_scenario.

(** * The connection pools *)
Section connection_facts.
Import spec props models storage.
Context `{UnicodeTables} (E : Env).

Lemma sql_DB_Open_configs (dsn : string) :
  keeps storedConfigs (source.sql_DB_Open E dsn).
Proof. intros w. unfold source.sql_DB_Open. by case_match. Qed.

(** Accepting a request and running its background task never write to the
    stored configurations: the database configurations and the LLM
    configurations are afterwards what they were, whatever the task met. *)
Theorem orchestration_keeps_configurations (request : AssistantRequest)
  (uuid : string) (w : World) :
  storedConfigs (handlers.CreateAssistantRequest request uuid w).2
  = storedConfigs w ∧
  storedConfigs (handlers.backgroundTask E request uuid w).2
  = storedConfigs w.
Proof.
  split.
  - by apply CreateAssistantRequest_frame.
  - apply backgroundTask_frame;
      [apply Load_quiet | done | done | apply LoadDatabaseConfig_quiet
      | apply LoadLLMConfig_quiet | apply sql_DB_Open_configs | done..].
Qed.

Lemma createConnectionPool_run (config : DatabaseConfig) (w : World) :
  source.createConnectionPool E config w
  = match sql_Open E (source.dataSourceName config) with
    | Some e =>
        (Return (err (wrapError "failed to open database connection: " e)),
         w)
    | None =>
        let h := nextDB w in
        let d closed :=
          {| DSN := source.dataSourceName config; MaxOpenConns := 25;
             MaxIdleConns := 5; ConnMaxLifetime := source.time_Hour;
             Closed := closed |} in
        match Ping E h with
        | Some e =>
            (Return (err (wrapError "failed to ping database: " e)),
             set_dbs (<[h := d true]> (dbs w)) (S h) w)
        | None => (Return (ok h), set_dbs (<[h := d false]> (dbs w)) (S h) w)
        end
    end.
Proof.
  destruct (sql_Open E _) as [e|] eqn:Hopen.
  - unfold source.createConnectionPool. cbv zeta. rewrite bind_run.
    unfold source.sql_DB_Open. by rewrite Hopen.
  - by rewrite createConnectionPool_opened.
Qed.

Lemma loadAndConnect_open (name : string) (w : World) :
  poolsOpen w → poolsOpen (source.loadAndConnect E name w).2.
Proof.
  intros Hopen. unfold source.loadAndConnect. rewrite bind_run. simpl.
  unfold memory.LoadDatabaseConfig.
  destruct (configs w !! name) as [config|]; [| done].
  cbv iota beta. rewrite bind_run, createConnectionPool_run.
  destruct (sql_Open E _) as [e|]; [done |].
  cbv zeta. destruct (Ping E (nextDB w)) as [e|]; simpl.
  - intros n h Hn. simpl in *. destruct (Hopen n h Hn) as (Hlt & d & Hd & Hc).
    split; [lia |]. exists d. rewrite lookup_insert_ne by lia. done.
  - intros n h. simpl.
    destruct (decide (n = name)) as [-> | Hne].
    + rewrite lookup_insert_eq. intros [= <-]. split; [lia |].
      eexists. by rewrite lookup_insert_eq.
    + rewrite lookup_insert_ne by done. intros Hn.
      destruct (Hopen n h Hn) as (Hlt & d & Hd & Hc).
      split; [lia |]. exists d. rewrite lookup_insert_ne by lia. done.
Qed.

(** [LoadSource] keeps the cache of the registry sound: where every cached
    pool was opened and is not closed, that is so afterwards too, whether
    the resolution reuses a pool, replaces one, adds one or fails. *)
Theorem LoadSource_keeps_cache_open (name : string) (w : World) :
  poolsOpen w → poolsOpen (source.LoadSource E name w).2.
Proof.
  intros Hopen. unfold source.LoadSource. rewrite bind_run. simpl.
  destruct (pools w !! name) as [h|] eqn:Hp;
    [| by apply loadAndConnect_open].
  rewrite bind_run. unfold source.db_Ping, lift.
  destruct (Ping E h) as [e|]; [| done].
  rewrite bind_run. simpl. apply loadAndConnect_open.
  intros n h' Hn. simpl in *.
  apply lookup_delete_Some in Hn as [_ Hn]. by apply (Hopen n h').
Qed.

(** The pool that [LoadSource] discards after a failed ping is dropped from
    the cache and never closed: its pool object is afterwards what it was,
    and the name resolves to no pool or to a new one. *)
Theorem LoadSource_leaks_discarded_pool (name : string) (h : nat)
  (e : error) (w : World) :
  pools w !! name = Some h → h < nextDB w → Ping E h = Some e →
  dbs (source.LoadSource E name w).2 !! h = dbs w !! h ∧
  pools (source.LoadSource E name w).2 !! name ≠ Some h ∧
  ∀ other, other ≠ name →
    pools (source.LoadSource E name w).2 !! other = pools w !! other.
Proof.
  intros Hp Hlt Hping. unfold source.LoadSource. rewrite bind_run. simpl.
  rewrite Hp. rewrite bind_run. unfold source.db_Ping, lift. rewrite Hping.
  rewrite bind_run. simpl.
  unfold source.loadAndConnect. rewrite bind_run. simpl.
  unfold memory.LoadDatabaseConfig. simpl.
  destruct (configs w !! name) as [config|]; simpl.
  2:{ rewrite lookup_delete_eq. split_and!; [done | done |].
      intros other Hne. by rewrite lookup_delete_ne. }
  rewrite bind_run, createConnectionPool_run. simpl.
  destruct (sql_Open E _) as [e1|]; simpl.
  { rewrite lookup_delete_eq. split_and!; [done | done |].
    intros other Hne. by rewrite lookup_delete_ne. }
  destruct (Ping E (nextDB w)) as [e2|]; simpl.
  - rewrite lookup_delete_eq, lookup_insert_ne by lia.
    split_and!; [done | done |].
    intros other Hne. by rewrite lookup_delete_ne.
  - rewrite lookup_insert_eq, lookup_insert_ne by lia.
    split_and!; [done | intros [= ?]; lia |].
    intros other Hne. rewrite lookup_insert_ne by done.
    by rewrite lookup_delete_ne.
Qed.

End connection_facts.

Section closing.
Import spec props models storage registry.
Context (Close_error : nat → option error) `{MapOrder}.

Lemma pool_Close_run (pool : nat) (w : World) :
  pool_Close Close_error pool w
  = (Return (Close_error pool),
     set_dbs (alter closedPool pool (dbs w)) (nextDB w) w).
Proof. reflexivity. Qed.

Lemma closePools_spec (visit : list (string * nat)) (errors : list string)
  (w : World) :
  ∃ errors' w',
    closePools Close_error visit errors w = (Return (errors ++ errors'), w') ∧
    pools w' = pools w ∧
    (∀ h, dbs w' !! h
          = if decide (h ∈ visit.*2) then closedPool <$> dbs w !! h
            else dbs w !! h) ∧
    (errors' = [] ↔ Forall (λ p, Close_error p.2 = None) visit).
Proof.
  revert errors w. induction visit as [|[name pool] visit IH];
    intros errors w.
  - exists [], w. simpl. rewrite app_nil_r.
    split_and!; done.
  - simpl closePools. rewrite bind_run, pool_Close_run. cbv iota beta.
    assert (∀ w' h,
      (dbs w' !! h
       = if decide (h ∈ visit.*2)
         then closedPool <$> alter closedPool pool (dbs w) !! h
         else alter closedPool pool (dbs w) !! h) →
      dbs w' !! h
      = if decide (h ∈ ((name, pool) :: visit).*2)
        then closedPool <$> dbs w !! h else dbs w !! h) as Hdbs.
    { intros w' h ->.
      destruct (decide (h ∈ visit.*2)) as [Hin|Hin];
        destruct (decide (h ∈ ((name, pool) :: visit).*2)) as [Hin'|Hin'];
        rewrite fmap_cons in Hin'; simpl in Hin';
        destruct (decide (h = pool)) as [-> | Hne];
        rewrite ?lookup_alter_eq, ?lookup_alter_ne by done;
        try done; try (by destruct (dbs w !! pool));
        first [ by destruct Hin'; apply elem_of_cons; right
              | by destruct Hin'; apply elem_of_cons; left
              | by apply elem_of_cons in Hin' as [? | ?] ]. }
    destruct (Close_error pool) as [e|] eqn:Hce.
    + destruct (IH (errors ++
                      ["failed to close pool " +:+ name +:+ ": " +:+ Error e])
                  (set_dbs (alter closedPool pool (dbs w)) (nextDB w) w))
        as (errors' & w' & -> & Hp & Hd & He).
      eexists (_ :: errors'), w'. split_and!.
      * by rewrite <- app_assoc.
      * done.
      * intros h. apply Hdbs, Hd.
      * split; [done |]. intros Hall. apply Forall_cons in Hall as [Hc _].
        simpl in Hc. congruence.
    + destruct (IH errors
                  (set_dbs (alter closedPool pool (dbs w)) (nextDB w) w))
        as (errors' & w' & -> & Hp & Hd & He).
      exists errors', w'. split_and!; [done | done | |].
      * intros h. apply Hdbs, Hd.
      * rewrite He. split; [by constructor |].
        by intros [_ ?]%Forall_cons.
Qed.

(** [Close] closes every pool of the registry and keeps them all in the
    cache: afterwards each cached pool object is closed, every other pool
    object is what it was, and the names resolve to the pools they resolved
    to.  It returns [nil] exactly when no pool failed to close. *)
Theorem Close_closes_every_pool (w : World) :
  ∃ e w',
    Close Close_error w = (Return e, w') ∧
    pools w' = pools w ∧
    (∀ name h, pools w !! name = Some h →
       dbs w' !! h = closedPool <$> dbs w !! h) ∧
    (∀ h, (∀ name, pools w !! name ≠ Some h) → dbs w' !! h = dbs w !! h) ∧
    (e = None ↔ ∀ name h, pools w !! name = Some h → Close_error h = None).
Proof.
  unfold Close. rewrite bind_run.
  destruct (closePools_spec (range (pools w)) [] w)
    as (errors & w' & -> & Hp & Hd & He).
  simpl app. cbv iota beta.
  assert (∀ h, h ∈ (range (pools w)).*2 ↔ ∃ name, pools w !! name = Some h)
    as Hin by (intros h; apply range_values).
  exists (if decide (0 < length errors)
          then Some (errorString ("errors closing pools: " +:+
                                  GoStrings.Join errors "; "))
          else None), w'.
  split_and!.
  - rewrite app_nil_l. by case_decide.
  - done.
  - intros name h Hn. rewrite Hd, decide_True; [done |].
    apply Hin. by exists name.
  - intros h Hn. rewrite Hd, decide_False; [done |].
    intros (name & Hname)%Hin. by apply (Hn name).
  - assert (errors = [] ↔
            ∀ name h, pools w !! name = Some h → Close_error h = None)
      as <-.
    { rewrite He, Forall_forall. split.
      - intros Hall name h Hn. apply (Hall (name, h)). by apply range_elem.
      - intros Hall [name h] Hn. apply (Hall name h). by apply range_elem. }
    destruct errors; simpl; [done |].
    try rewrite decide_True by (simpl; lia). split; discriminate.
Qed.

End closing.

Section connection_scenario.
Import spec props models storage scenario.
#[local] Existing Instance asciiOnly.

(** The witness of [LoadSource_keeps_cache_open]: the first resolution of
    the sales database, from an empty cache. *)
Lemma LoadSource_keeps_cache_open_witness :
  poolsOpen start ∧
  poolsOpen (source.LoadSource fine "sales_db" start).2 ∧
  pools (source.LoadSource fine "sales_db" start).2 !! "sales_db" = Some 0.
Proof.
  assert (poolsOpen start) as Hstart by (intros name h; done).
  split_and!; [done | | reflexivity].
  by apply (LoadSource_keeps_cache_open fine "sales_db" start).
Defined.

(** The witness of [LoadSource_leaks_discarded_pool]: the second
    resolution of the sales database, after its pool has died. *)
Lemma LoadSource_leaks_discarded_pool_witness :
  pools cases.connected !! "sales_db" = Some 0 ∧
  Closed <$> dbs (source.LoadSource cases.stale "sales_db" cases.connected).2
             !! 0
  = Some false ∧
  pools (source.LoadSource cases.stale "sales_db" cases.connected).2
    !! "sales_db"
  = Some 1.
Proof.
  destruct (LoadSource_leaks_discarded_pool cases.stale "sales_db" 0
              (errorString "driver: bad connection") cases.connected)
    as (Hd & _ & _); [reflexivity | vm_compute; lia | reflexivity |].
  split_and!; [reflexivity | by rewrite Hd | reflexivity].
Defined.

End connection_scenario.

(** ** The rows of a query and the schema text *)
Section rows_facts.
Import source props.

Lemma rowMap_absent (columns : list string) (values : list driverValue)
  (i : nat) (row : gmap string driverValue) (c : string) :
  c ∉ columns → rowMap i columns values row !! c = row !! c.
Proof.
  revert i row. induction columns as [|column columns IH]; intros i row Hc.
  - done.
  - apply not_elem_of_cons in Hc as [Hne Hc]. cbn [rowMap].
    rewrite IH by done. by rewrite lookup_insert_ne.
Qed.

Lemma rowMap_last (pre post : list string) (values : list driverValue)
  (i : nat) (row : gmap string driverValue) (c : string) :
  c ∉ post →
  rowMap i (pre ++ c :: post) values row !! c
  = Some (cell values (i + length pre)).
Proof.
  revert i row. induction pre as [|x pre IH]; intros i row Hc.
  - cbn [app rowMap]. rewrite rowMap_absent by done.
    rewrite lookup_insert_eq. unfold cell. simpl. do 4 f_equal. lia.
  - cbn [app rowMap]. rewrite IH by done. simpl. do 2 f_equal. lia.
Qed.

Lemma rowMap_is_Some (columns : list string) (values : list driverValue)
  (i : nat) (row : gmap string driverValue) (c : string) :
  is_Some (rowMap i columns values row !! c)
  ↔ c ∈ columns ∨ is_Some (row !! c).
Proof.
  revert i row. induction columns as [|column columns IH]; intros i row.
  - cbn [rowMap]. rewrite elem_of_nil. tauto.
  - cbn [rowMap]. rewrite IH, elem_of_cons.
    destruct (decide (c = column)) as [->|Hne].
    + rewrite lookup_insert_eq. split; [auto | intros _; right; eauto].
    + rewrite lookup_insert_ne by done. tauto.
Qed.

Lemma convertValue_no_bytes (v : driverValue) (b : string) :
  convertValue v ≠ dv_bytes b.
Proof. by destruct v. Qed.

Lemma rowMap_no_bytes (columns : list string) (values : list driverValue)
  (i : nat) (row : gmap string driverValue) (c b : string) :
  row !! c ≠ Some (dv_bytes b) →
  rowMap i columns values row !! c ≠ Some (dv_bytes b).
Proof.
  revert i row. induction columns as [|column columns IH]; intros i row Hr.
  - done.
  - cbn [rowMap]. apply IH.
    destruct (decide (c = column)) as [->|Hne].
    + rewrite lookup_insert_eq. intros [= Hv].
      by apply convertValue_no_bytes in Hv.
    + by rewrite lookup_insert_ne.
Qed.

(** The loop over the rows: it returns rows exactly when every row scans,
    and then adds one map for each row, in the order of the rows. *)
Lemma scanQueryRows_ok (columns : list string) (rows : list Row)
  (acc data : list (gmap string driverValue)) :
  scanQueryRows columns rows acc = ok data →
  ∃ scanned,
    Forall2 (λ row values, scanValues row = ok values) rows scanned ∧
    data = acc ++ map (λ values, rowMap 0 columns values ∅) scanned.
Proof.
  revert acc. induction rows as [|row rows IH]; intros acc Hrun.
  - injection Hrun as <-. exists []. split; [constructor |].
    by rewrite app_nil_r.
  - cbn [scanQueryRows] in Hrun.
    destruct (scanValues row) as [values|e] eqn:Hscan; [| done].
    destruct (IH _ Hrun) as (scanned & Hall & ->).
    exists (values :: scanned). split; [by constructor |].
    by rewrite <- app_assoc.
Qed.

Lemma scanQueryRows_err (columns : list string) (rows : list Row)
  (acc : list (gmap string driverValue)) (e : error) :
  scanQueryRows columns rows acc = err e ↔
  ∃ scanned row e' rest,
    rows = scanned ++ row :: rest ∧
    Forall (λ row, ∃ values, scanValues row = ok values) scanned ∧
    scanValues row = err e' ∧ e = wrapError "failed to scan row: " e'.
Proof.
  revert acc. induction rows as [|row rows IH]; intros acc.
  - split; [done |]. intros (scanned & row & e' & rest & Heq & _).
    by destruct scanned.
  - cbn [scanQueryRows].
    destruct (scanValues row) as [values|e0] eqn:Hscan.
    + rewrite IH. split.
      * intros (scanned & row' & e' & rest & -> & Hall & Hrow & ->).
        exists (row :: scanned), row', e', rest.
        split_and!; [done | constructor; eauto | done | done].
      * intros (scanned & row' & e' & rest & Heq & Hall & Hrow & ->).
        destruct scanned as [|row0 scanned].
        -- injection Heq as <- <-. congruence.
        -- injection Heq as <- ->. apply Forall_cons in Hall as [_ Hall].
           by exists scanned, row', e', rest.
    + split.
      * intros [= <-]. exists [], row, e0, rows.
        split_and!; [done | constructor | done | done].
      * intros (scanned & row' & e' & rest & Heq & Hall & Hrow & ->).
        destruct scanned as [|row0 scanned].
        -- injection Heq as <- <-. congruence.
        -- injection Heq as <- ->.
           apply Forall_cons in Hall as [[values Hv] _]. congruence.
Qed.

(** On success [processQueryResults] returns one map for each row of the
    result set, in the order of the rows.  The map of a row has exactly the
    column names of the result set as its keys; under a name it holds the
    value that [Scan] gave for the last column of that name, with a byte
    slice turned into a string, so no byte slice is left in the result. *)
Theorem processQueryResults_shape (rows : Rows)
  (data : list (gmap string driverValue)) :
  processQueryResults rows = ok data →
  ∃ columns,
    Columns rows = ok columns ∧ Err rows = None ∧
    length data = length (records rows) ∧
    ∀ i m, data !! i = Some m →
      ∃ row values,
        records rows !! i = Some row ∧ scanValues row = ok values ∧
        (∀ c, is_Some (m !! c) ↔ c ∈ columns) ∧
        (∀ j c, columns !! j = Some c →
                (∀ k, j < k → columns !! k ≠ Some c) →
                m !! c = Some (cell values j)) ∧
        (∀ c b, m !! c ≠ Some (dv_bytes b)).
Proof.
  unfold processQueryResults. intros Hrun.
  destruct (Columns rows) as [columns|e] eqn:Hcols; [| done].
  destruct (scanQueryRows columns (records rows) []) as [acc|e] eqn:Hscan;
    [| done].
  destruct (Err rows) as [e|] eqn:Herr; [done |]. injection Hrun as <-.
  apply scanQueryRows_ok in Hscan as (scanned & Hall & ->).
  rewrite app_nil_l. exists columns. split_and!; [done | done | |].
  { rewrite length_map. symmetry. by eapply Forall2_length. }
  intros i m Hm. rewrite list_lookup_fmap in Hm.
  destruct (scanned !! i) as [values|] eqn:Hi; [| done].
  injection Hm as <-.
  destruct (Forall2_lookup_r _ _ _ _ _ Hall Hi) as (row & Hrow & Hvalues).
  exists row, values. split_and!; [done | done | | |].
  - intros c. rewrite rowMap_is_Some, lookup_empty.
    split; [intros [Hc | [? [=]]]; done | auto].
  - intros j c Hj Hlast.
    rewrite <- (take_drop_middle _ _ _ Hj).
    rewrite rowMap_last.
    + rewrite length_take. apply lookup_lt_Some in Hj.
      simpl. do 2 f_equal. lia.
    + intros (k & Hk)%list_elem_of_lookup. rewrite lookup_drop in Hk.
      apply (Hlast (S j + k)); [lia | done].
  - intros c b. apply rowMap_no_bytes. by rewrite lookup_empty.
Qed.

(** [processQueryResults] is all or nothing: it returns rows exactly when
    the columns are known, every row scans and the iteration ends without
    an error.  The first row that does not scan ends the call with
    "failed to scan row", whatever the rows before it held and whatever
    [rows.Err] would say. *)
Theorem processQueryResults_all_or_nothing (rows : Rows) :
  ((∃ data, processQueryResults rows = ok data)
   ↔ (∃ columns, Columns rows = ok columns) ∧
     Forall (λ row, ∃ values, scanValues row = ok values) (records rows) ∧
     Err rows = None) ∧
  ∀ columns scanned row rest e,
    Columns rows = ok columns →
    records rows = scanned ++ row :: rest →
    Forall (λ row, ∃ values, scanValues row = ok values) scanned →
    scanValues row = err e →
    processQueryResults rows = err (wrapError "failed to scan row: " e).
Proof.
  split.
  - unfold processQueryResults.
    destruct (Columns rows) as [columns|e] eqn:Hcols.
    2: { split; [by intros [? ?] | intros [[? [=]] _]]. }
    destruct (scanQueryRows columns (records rows) []) as [acc|e] eqn:Hscan.
    + apply scanQueryRows_ok in Hscan as (scanned & Hall & _).
      assert (Forall (λ row, ∃ values, scanValues row = ok values)
                (records rows)) as Hrows.
      { clear -Hall. induction Hall; constructor; eauto. }
      destruct (Err rows) as [e|].
      * split; [by intros [? ?] | by intros (_ & _ & ?)].
      * split; [eauto | eauto].
    + split; [by intros [? ?] |]. intros (_ & Hrows & _). exfalso.
      apply scanQueryRows_err in Hscan
        as (scanned & row & e' & rest & Heq & _ & Hrow & _).
      rewrite Heq in Hrows. apply Forall_app in Hrows as [_ Hrows].
      apply Forall_cons in Hrows as [[values Hv] _]. congruence.
  - intros columns scanned row rest e Hcols Heq Hall Hrow.
    unfold processQueryResults. rewrite Hcols.
    assert (scanQueryRows columns (records rows) []
            = err (wrapError "failed to scan row: " e)) as ->; [| done].
    apply scanQueryRows_err. by exists scanned, row, e, rest.
Qed.

End rows_facts.

Section rows_scenario.
Import source props scenario.

(** The witness of [processQueryResults_shape]: the rows of the scenario's
    data query. *)
Lemma processQueryResults_shape_witness :
  ∃ data,
    processQueryResults dataRows = ok data ∧
    ∃ columns,
      Columns dataRows = ok columns ∧ Err dataRows = None ∧
      length data = length (records dataRows) ∧
      ∀ i m, data !! i = Some m →
        ∃ row values,
          records dataRows !! i = Some row ∧ scanValues row = ok values ∧
          (∀ c, is_Some (m !! c) ↔ c ∈ columns) ∧
          (∀ j c, columns !! j = Some c →
                  (∀ k, j < k → columns !! k ≠ Some c) →
                  m !! c = Some (cell values j)) ∧
          (∀ c b, m !! c ≠ Some (dv_bytes b)).
Proof.
  eexists. split; [reflexivity |].
  apply (processQueryResults_shape dataRows). reflexivity.
Defined.

End rows_scenario.

(** ** The schema text *)
Section schema_facts.
Import GoStrings source props.
Context `{UnicodeTables} (E : Env) (S : postgres.Server).

Lemma wired_AppendResponse_returns (uuid kind text : string) (w : World) :
  ∃ e w', source.AppendResponse (H := postgres.PostgresStorage S)
            uuid kind text w = (Return e, w').
Proof.
  destruct (wired_AppendResponse_cases S uuid kind text w)
    as [(r & _ & Heq) | (e & w' & Heq & _)];
    unfold wired.AppendResponse in Heq; rewrite Heq; by eexists _, _.
Qed.

Lemma concat_cons (x : string) (xs : list string) :
  String.concat EmptyString (x :: xs) = x +:+ String.concat EmptyString xs.
Proof. destruct xs; simpl; [by rewrite append_nil_r | done]. Qed.

Lemma concat_app (xs ys : list string) :
  String.concat EmptyString (xs ++ ys)
  = String.concat EmptyString xs +:+ String.concat EmptyString ys.
Proof.
  induction xs as [|x xs IH]; [done |].
  rewrite <- app_comm_cons, !concat_cons, IH. by rewrite append_assoc.
Qed.

(** The loop over the columns writes one line for each column, after what
    the builder holds. *)
Lemma columns_text (columns : list string) (schema : string) :
  fold_left (λ schema column, schema +:+ "  - " +:+ column +:+ nl)
    columns schema
  = schema +:+
    String.concat EmptyString
      (map (λ column, "  - " +:+ column +:+ nl) columns).
Proof.
  revert schema. induction columns as [|column columns IH]; intros schema.
  - simpl. by rewrite append_nil_r.
  - cbn [fold_left map]. rewrite IH, concat_cons. by rewrite !append_assoc.
Qed.

(** [formatSchemaEntry] only writes after what the builder holds: the text
    of the table. *)
Lemma formatSchemaEntry_text (schema : string) (t : Table) :
  formatSchemaEntry schema (tableName t) (tableComment t) (tableColumns t)
  = schema +:+ tableText t.
Proof.
  unfold formatSchemaEntry, tableText. rewrite columns_text.
  destruct (tableComment t) as [comment|]; by rewrite !append_assoc.
Qed.

Lemma scanSchemaRows_ok (rows : list Row) (schema schema' : string)
  (processed processed' : list string) :
  scanSchemaRows E rows schema processed = ok (schema', processed') ↔
  ∃ tables,
    Forall2 (describes E) rows tables ∧
    schema' = schema +:+ String.concat EmptyString (map tableText tables) ∧
    processed' = processed ++ map tableName tables.
Proof.
  revert schema processed.
  induction rows as [|row rows IH]; intros schema processed.
  - cbn [scanSchemaRows]. split.
    + intros [= <- <-]. exists []. split; [constructor |].
      by rewrite append_nil_r, app_nil_r.
    + intros (tables & Hall & -> & ->). apply Forall2_nil_inv_l in Hall as ->.
      by rewrite append_nil_r, app_nil_r.
  - cbn [scanSchemaRows]. split.
    + destruct (scanSchema row) as [[[name json] comment]|e] eqn:Hscan;
        [| done].
      destruct (json_Unmarshal E json) as [columns|e] eqn:Hjson; [| done].
      intros (tables & Hall & -> & ->)%IH.
      exists ({| tableName := name; tableComment := comment;
                 tableColumns := columns |} :: tables).
      split; [constructor; [by exists json | done] |].
      cbn [map]. rewrite concat_cons.
      pose proof (formatSchemaEntry_text schema
                    {| tableName := name; tableComment := comment;
                       tableColumns := columns |}) as Hentry.
      cbn [tableName tableComment tableColumns] in Hentry. rewrite Hentry.
      by rewrite append_assoc, <- app_assoc.
    + intros (tables & Hall & -> & ->).
      apply Forall2_cons_inv_l in Hall
        as (t & tables' & (json & Hscan & Hjson) & Hall & ->).
      rewrite Hscan, Hjson. apply IH. exists tables'.
      split; [done |]. cbn [map]. rewrite concat_cons.
      rewrite formatSchemaEntry_text.
      by rewrite append_assoc, <- app_assoc.
Qed.

(** Over the PostgreSQL storage, whatever its server answers, [GetSchema]
    returns a schema exactly when the schema query answers with rows that
    all scan and parse and the iteration ends without an error; the schema
    is then the heading followed by the texts of the tables, in the order
    of the rows. *)
Theorem GetSchema_text (p : PostgresConnector) (uuid schema : string)
  (w : World) :
  (∃ w', wired.GetSchema E S p uuid w = (Return (ok schema), w')) ↔
  ∃ rows tables,
    QueryContext E (db p) getSchemaQuery = Return (ok rows) ∧
    Forall2 (describes E) (records rows) tables ∧
    Err rows = None ∧
    schema = "Database Schema:" +:+ nl +:+ nl +:+
             String.concat EmptyString (map tableText tables).
Proof.
  unfold wired.GetSchema, GetSchema. rewrite bind_run.
  destruct (wired_AppendResponse_returns uuid "step_output"
              "Fetching database schema..." w) as (e1 & w1 & ->).
  rewrite bind_run. unfold db_QueryContext at 1.
  destruct (QueryContext E (db p) getSchemaQuery) as [[rows|e]|v] eqn:Hq.
  2: { split; [by intros [? [=]] | by intros (? & ? & [=] & _)]. }
  2: { split; [by intros [? [=]] | by intros (? & ? & [=] & _)]. }
  unfold processSchemaRows.
  destruct (scanSchemaRows E (records rows) ("Database Schema:" +:+ nl +:+ nl)
              []) as [[text processed]|e] eqn:Hscan.
  - apply scanSchemaRows_ok in Hscan as (tables & Hall & -> & ->).
    rewrite bind_run.
    destruct (wired_AppendResponse_returns uuid "debug_log"
                ("Processed tables: " +:+ Join ([] ++ map tableName tables) ", ")
                (set_queries (queries w1 ++ [getSchemaQuery]) w1))
      as (e2 & w2 & ->).
    destruct (Err rows) as [e|] eqn:Herr.
    + split; [by intros [? [=]] |].
      intros (rows' & ? & [= <-] & _ & Herr' & _). congruence.
    + rewrite bind_run.
      destruct (wired_AppendResponse_returns uuid "step_output"
                  "Schema retrieval completed" w2) as (e3 & w3 & ->).
      split.
      * intros [w' [= <- <-]]. exists rows, tables.
        by rewrite !append_assoc.
      * intros (rows' & tables' & [= <-] & Hall' & _ & ->).
        assert (tables' = tables) as ->.
        { clear -Hall Hall'. revert tables' Hall'.
          induction Hall as [|row t rows0 tables Ht Hall IH];
            intros tables' Hall'.
          - by apply Forall2_nil_inv_l in Hall'.
          - apply Forall2_cons_inv_l in Hall'
              as (t' & tables'' & Ht' & Hall' & ->).
            f_equal; [| by apply IH].
            destruct Ht as (j & Hs & Hj), Ht' as (j' & Hs' & Hj').
            destruct t, t'. simpl in *. congruence. }
        exists w3. by rewrite !append_assoc.
  - split; [by intros [? [=]] |].
    intros (rows' & tables & [= <-] & Hall & _ & _). exfalso.
    assert (∃ r, scanSchemaRows E (records rows)
                   ("Database Schema:" +:+ nl +:+ nl) [] = ok r)
      as [r Hr]; [| congruence].
    eexists (_, _). apply scanSchemaRows_ok. by exists tables.
Qed.

End schema_facts.

(** ** The LLM provider *)
Section provider_facts.
Import models llminterface provider props.

(** The two helpers that read [max_tokens] from the options of an LLM
    configuration, the one of the orchestrator and the one of the provider
    factory, give the same number except when the option is the number
    zero: the orchestrator then takes the default 3000 and the factory
    takes 0. *)
Theorem getMaxTokens_differ_at_zero
  (options : option (gmap string optionValue)) :
  (factory.getMaxTokens options ≠ orchestrator.getMaxTokens options
   ↔ zeroMaxTokens options) ∧
  (zeroMaxTokens options →
   factory.getMaxTokens options = 0%Z ∧
   orchestrator.getMaxTokens options = 3000%Z).
Proof.
  assert (zeroMaxTokens options →
          factory.getMaxTokens options = 0%Z ∧
          orchestrator.getMaxTokens options = 3000%Z) as Hzero.
  { intros (m & q & -> & Hq & Hnum).
    unfold factory.getMaxTokens, orchestrator.getMaxTokens. rewrite Hq.
    rewrite decide_True by done. split; [| done].
    unfold orchestrator.int_of_float64. rewrite Hnum.
    apply Z.quot_0_l. done. }
  split; [| done]. split.
  - unfold factory.getMaxTokens, orchestrator.getMaxTokens.
    destruct options as [m|]; [| done].
    destruct (m !! "max_tokens") as [[q|]|] eqn:Hq; [| done..].
    destruct (decide (Qnum q = 0%Z)) as [Hnum|Hnum]; [| done].
    intros _. by exists m, q.
  - intros [-> ->]%Hzero. done.
Qed.

Lemma convertMessages_ok (msgs : list Message) :
  Forall (λ msg, supportedRole (Role msg)) msgs →
  ∃ messages, convertMessages msgs = ok messages ∧
              length messages = length msgs.
Proof.
  induction 1 as [|msg msgs Hrole _ (messages & IH & Hlen)].
  - by exists [].
  - cbn [convertMessages]. rewrite IH. unfold convertMessage.
    destruct Hrole as [-> | [-> | ->]]; simpl;
      eexists; (split; [reflexivity | simpl; by rewrite Hlen]).
Qed.

Lemma convertMessage_unsupported (msg : Message) :
  ¬ supportedRole (Role msg) →
  convertMessage msg
  = err (errorString ("unsupported message role: " +:+ Role msg)).
Proof.
  intros Hrole. unfold convertMessage, supportedRole in *.
  repeat case_decide; tauto.
Qed.

Lemma convertMessages_first_unsupported (good rest : list Message)
  (bad : Message) :
  Forall (λ msg, supportedRole (Role msg)) good →
  ¬ supportedRole (Role bad) →
  convertMessages (good ++ bad :: rest)
  = err (errorString ("unsupported message role: " +:+ Role bad)).
Proof.
  intros Hgood Hbad. induction Hgood as [|msg good Hrole _ IH].
  - cbn [app convertMessages]. by rewrite convertMessage_unsupported.
  - cbn [app convertMessages]. rewrite IH.
    destruct (convertMessages_ok [msg]) as (m & Hm & _);
      [by constructor |].
    cbn [convertMessages] in Hm. by destruct (convertMessage msg).
Qed.

Section api.
Context (New : ChatCompletionNewParams → result ChatCompletion).

(** A request with a message whose role is not user, assistant or system
    is refused with the role of the first such message, before any
    parameter is read from the configuration and whatever the API would
    answer. *)
Theorem Complete_refuses_unsupported_role (p : Provider)
  (req : CompletionRequest) (good rest : list Message) (bad : Message) :
  is_Some (client p) →
  Messages req = good ++ bad :: rest →
  Forall (λ msg, supportedRole (Role msg)) good →
  ¬ supportedRole (Role bad) →
  ∀ New' : ChatCompletionNewParams → result ChatCompletion,
    Complete New' p req
    = Return (None,
              Some (plainError
                      (errorString
                         ("unsupported message role: " +:+ Role bad)))).
Proof.
  intros [key Hclient] Hmsgs Hgood Hbad New'. unfold Complete.
  rewrite Hclient, Hmsgs.
  by rewrite convertMessages_first_unsupported.
Qed.

(** A provider that [Initialize] accepted never panics in [Complete]: the
    configuration it reads is there.  For a request whose messages all
    have a supported role it calls the API with the parameters of
    [paramsFor], and it returns a response exactly when the API returns at
    least one choice; the response is the first choice.  Otherwise it
    returns an error and no response. *)
Theorem Complete_of_initialized_provider (p0 p : Provider)
  (cfg : openai.Config) (req : CompletionRequest) :
  Initialize p0 cfg = (None, p) →
  (∃ response e,
     Complete New p req = Return (response, e) ∧
     (is_Some response ↔ e = None)) ∧
  (Forall (λ msg, supportedRole (Role msg)) (Messages req) →
   ∃ messages,
     convertMessages (Messages req) = ok messages ∧
     ∀ response,
       Complete New p req = Return (Some response, None) ↔
       ∃ completion rest,
         New (paramsFor cfg req messages) = ok completion ∧
         Choices completion = ResponseContent response :: rest).
Proof.
  unfold Initialize. intros Hinit.
  destruct (openai.Validate cfg) as [e|]; [done |].
  injection Hinit as <-.
  assert (∀ messages, convertMessages (Messages req) = ok messages →
          Complete New
            {| config := Some cfg; client := Some (openai.APIKey cfg) |} req
          = match New (paramsFor cfg req messages) with
            | err e =>
                Return (None,
                        Some (llmError
                                {| ErrProvider := "openai";
                                   ErrCode := "api_error";
                                   ErrMessage := Error e;
                                   ErrRetryable := isRetryableError e |}))
            | ok completion =>
                match Choices completion with
                | [] =>
                    Return (None,
                            Some (llmError
                                    {| ErrProvider := "openai";
                                       ErrCode := "no_completion";
                                       ErrMessage :=
                                         "no completion choices returned";
                                       ErrRetryable := false |}))
                | content :: _ =>
                    Return (Some {| ResponseContent := content |}, None)
                end
            end) as Hrun.
  { intros messages Hconv. unfold Complete, paramsFor, config_field.
    cbn [client config]. rewrite Hconv.
    by destruct (decide (MaxTokens req = 0%Z)),
         (decide (Model req = EmptyString)). }
  split.
  - destruct (convertMessages (Messages req)) as [messages|e] eqn:Hconv.
    + rewrite (Hrun messages eq_refl).
      destruct (New (paramsFor cfg req messages)) as [[[|content ?]]|e].
      * eexists _, _. split; [reflexivity |]. split; [by intros [? ?] | done].
      * eexists _, _. split; [reflexivity |]. split; [done | eauto].
      * eexists _, _. split; [reflexivity |]. split; [by intros [? ?] | done].
    + unfold Complete. cbn [client]. rewrite Hconv.
      eexists _, _. split; [reflexivity |]. split; [by intros [? ?] | done].
  - intros (messages & Hconv & _)%convertMessages_ok.
    exists messages. split; [done |]. intros response.
    rewrite (Hrun messages Hconv).
    destruct (New (paramsFor cfg req messages)) as [[[|content others]]|e];
      cbn [Choices].
    + split; [done | by intros (? & ? & [= <-] & ?)].
    + split.
      * intros [= <-]. by eexists _, _.
      * intros (? & ? & [= <-] & [= -> _]). by destruct response.
    + split; [done | by intros (? & ? & [=] & _)].
Qed.

End api.

End provider_facts.

(** ** The provider registry *)
Section registry_facts.
Import models provider llmregistry memory_configs props.
Context `{MapOrder}.

Lemma range_singleton {A : Type} (k : string) (a : A) :
  range ({[k := a]} : gmap string A) = [(k, a)].
Proof.
  apply Permutation_singleton_r. rewrite (range_visits A).
  by rewrite map_to_list_singleton.
Qed.

(** Over the in-memory storage [GetProvider] never panics and changes
    nothing.  It returns a provider only for the name openai, and the
    provider is then made from one of the configurations stored for
    openai, whose name, API key and model are not empty; its token limit
    is the one the factory reads from the options.  Where just one
    configuration is stored for openai and these three fields are not
    empty, it returns the provider of that configuration. *)
Theorem GetProvider_from_stored_config (name : string) (w : World) :
  ∃ answer,
    GetProvider (NewRegistry (Some GetLLMConfigs)) name w
    = (Return answer, w) ∧
    (∀ p, answer = ok p →
       name = "openai" ∧
       ∃ configName c,
         llmStored w "openai" configName = Some (LLMConfig_value c) ∧
         LLMName c ≠ EmptyString ∧ APIKey c ≠ EmptyString ∧
         Model c ≠ EmptyString ∧
         p = providerOf c) ∧
    (∀ configName c,
       name = "openai" →
       llmConfigs w !! "openai" = Some {[configName := LLMConfig_value c]} →
       LLMName c ≠ EmptyString → APIKey c ≠ EmptyString →
       Model c ≠ EmptyString →
       answer = ok (providerOf c)).
Proof.
  assert (∀ c,
            LLMName c ≠ EmptyString → APIKey c ≠ EmptyString →
            Model c ≠ EmptyString →
            Initialize NewProvider
              (openai.NewConfig (LLMName c) (APIKey c) (Model c)
                 (factory.getMaxTokens (LLMOptions c)))
            = (None, providerOf c)) as Hvalid.
  { intros c Hn Hk Hm. unfold Initialize, openai.Validate. simpl.
    by rewrite !decide_False by done. }
  unfold GetProvider, NewRegistry. cbn [storage]. rewrite bind_run.
  unfold GetLLMConfigs, llmStored.
  destruct (llmConfigs w !! name) as [stored|] eqn:Hstored.
  2: { eexists. split; [reflexivity |]. split; [done |].
       intros ? ? ->. congruence. }
  pose proof (range_values stored) as Hin.
  destruct ((range stored).*2) as [|config configs] eqn:Hrange.
  { eexists. split; [reflexivity |]. split; [done |].
    intros configName c -> Hone. rewrite Hstored in Hone.
    injection Hone as ->. by rewrite range_singleton in Hrange. }
  cbn [length]. rewrite decide_False by done.
  unfold factory.CreateProvider, factory.CreateConfig.
  destruct (decide (name = "openai")) as [->|Hname].
  2: { eexists. split; [reflexivity |]. split; [done |]. done. }
  destruct config as [c|c|].
  2, 3: eexists; (split; [reflexivity |]); (split; [done |]);
    intros configName c' _ Hone; rewrite Hstored in Hone;
    injection Hone as ->; by rewrite range_singleton in Hrange.
  destruct (Hin (LLMConfig_value c)) as [(configName & Hc) _]; [left |].
  destruct (Initialize NewProvider _) as [[e|] p] eqn:Hinit.
  - eexists. split; [reflexivity |]. split; [done |].
    intros configName' c' _ Hone. rewrite Hstored in Hone.
    injection Hone as ->. rewrite range_singleton in Hrange.
    injection Hrange as -> _. intros Hn Hk Hm.
    change {| openai.Name := LLMName c; openai.APIKey := APIKey c;
              openai.Model := Model c;
              openai.MaxTokens := factory.getMaxTokens (LLMOptions c) |}
      with (openai.NewConfig (LLMName c) (APIKey c) (Model c)
              (factory.getMaxTokens (LLMOptions c))) in Hinit.
    rewrite Hvalid in Hinit by done. done.
  - eexists. split; [reflexivity |].
    unfold Initialize, openai.Validate in Hinit. simpl in Hinit.
    repeat case_decide; try done. injection Hinit as <-.
    split.
    + intros p [= <-]. split; [done |]. exists configName, c.
      rewrite Hstored. simpl. by rewrite Hc.
    + intros configName' c' _ Hone. rewrite Hstored in Hone.
      injection Hone as ->. rewrite range_singleton in Hrange.
      by injection Hrange as ->.
Qed.

End registry_facts.

Section provider_scenario.
Import models llminterface provider props scenario.

(** The witness of [Complete_refuses_unsupported_role]: a request whose
    second message has the role tool. *)
Lemma Complete_refuses_unsupported_role_witness :
  Complete (λ _, ok {| Choices := ["never asked for"] |}) (providerOf gpt)
    {| Messages := [ {| Role := "user"; Content := "hello" |};
                     {| Role := "tool"; Content := "42" |};
                     {| Role := "robot"; Content := "beep" |} ];
       MaxTokens := 0; Temperature := 0.3; Model := EmptyString |}
  = Return (None,
            Some (plainError
                    (errorString "unsupported message role: tool"))).
Proof.
  apply (Complete_refuses_unsupported_role (providerOf gpt)
           {| Messages := [ {| Role := "user"; Content := "hello" |};
                            {| Role := "tool"; Content := "42" |};
                            {| Role := "robot"; Content := "beep" |} ];
              MaxTokens := 0; Temperature := 0.3; Model := EmptyString |}
           [ {| Role := "user"; Content := "hello" |} ]
           [ {| Role := "robot"; Content := "beep" |} ]
           {| Role := "tool"; Content := "42" |}).
  - by eexists.
  - reflexivity.
  - constructor; [by left | constructor].
  - intros [Hr | [Hr | Hr]]; discriminate Hr.
Defined.

(** The witness of [Complete_of_initialized_provider]: the provider of the
    scenario's configuration, an API that echoes the model it is asked
    for, and a request that names no model. *)
Lemma Complete_of_initialized_provider_witness :
  Initialize NewProvider (openai.NewConfig "default" "sk-test" "gpt-4" 3000)
  = (None, providerOf gpt) ∧
  Complete (λ params, ok {| Choices := [ParamModel params] |})
    (providerOf gpt)
    {| Messages := [ {| Role := "user"; Content := "hello" |} ];
       MaxTokens := 0; Temperature := 0.3; Model := EmptyString |}
  = Return (Some {| ResponseContent := "gpt-4" |}, None).
Proof.
  split; [reflexivity |].
  destruct (Complete_of_initialized_provider
              (λ params, ok {| Choices := [ParamModel params] |})
              NewProvider (providerOf gpt)
              (openai.NewConfig "default" "sk-test" "gpt-4" 3000)
              {| Messages := [ {| Role := "user"; Content := "hello" |} ];
                 MaxTokens := 0; Temperature := 0.3;
                 Model := EmptyString |} eq_refl) as [_ Hsent].
  destruct Hsent as (messages & Hconv & Hiff);
    [constructor; [by left | constructor] |].
  apply Hiff. injection Hconv as <-. by eexists _, _.
Defined.

End provider_scenario.
